(** * Live voice pipeline: PCM codec, playback scheduler and session controller

    A shallow embedding of [services/geminiService.ts] (audio helpers) and
    [components/LiveVoiceMode.tsx] (the voice session component).

    Conventions of the embedding.
    - A JavaScript number that holds an audio sample or a time is a rational
      ([Q]); samples are finite.  On a float32 sample the products
      [s * 0x8000] and [s * 0x7FFF] and the quotient [v / 32768.0] are exact
      in double precision, so exact rational arithmetic computes what the
      code computes.  Times are compared, and a duration is added to the
      cursor once per chunk; the sum is written as the rational sum.
    - An [ArrayBuffer] is a [list byte]; an [Int16Array] is a [list Z] of
      values in [-32768, 32767]; a JavaScript string is the list of its
      UTF-16 code units ([list Z]).
    - A thrown exception is the [Throw] case of [result].
    - The component's [useState] and [useRef] cells and the platform objects
      it creates form a [State]; each callback is a function on it.  A
      closure is a record of the values it captured.  The platform's calls
      into the component are [Event]s; [ctx.currentTime] comes with the
      event that reads it.
    - The level shown by the visualizer is a square root, which need not be
      rational: it is kept as a [Number], the real number known by its
      square, or NaN.
    - A [then] callback runs as a microtask, after the callback that
      registered it has returned and once its promise is fulfilled.
    - An exception that no handler of the component catches escapes the
      callback with the state the callback left behind; the platform
      reports it and goes on with the next event. *)

From Stdlib Require Import ZArith QArith Qabs Qround Lia List Bool.
From Stdlib Require Import Strings.Byte.
From Stdlib Require Strings.String Strings.Ascii.
From stdpp Require Import base list.
Import ListNotations.
Import String.StringSyntax.

Local Open Scope Z_scope.

(** ** Exceptions *)

Inductive exn : Type :=
| InvalidCharacterError   (* atob / btoa on a malformed string *)
| RangeError              (* typed-array view over a misaligned buffer, negative start time *)
| NotSupportedError       (* createBuffer with a zero length *)
| InvalidStateError.      (* stop() / start() on a node in the wrong state *)

Inductive result (A : Type) : Type :=
| Ok (a : A)
| Throw (e : exn).
Arguments Ok {A} a.
Arguments Throw {A} e.

Definition rbind {A B} (r : result A) (k : A -> result B) : result B :=
  match r with
  | Ok a => k a
  | Throw e => Throw e
  end.

Notation "'let*' x ':=' r 'in' k" := (rbind r (fun x => k))
  (at level 10, x name, r at level 100, k at level 200).

(** [for (let i = start; i < start + n; i++) body] over a loop state. *)
Fixpoint for_loop {S : Type} (n : nat) (i : nat) (body : nat -> S -> S) (s : S) : S :=
  match n with
  | O => s
  | Datatypes.S n' => for_loop n' (Datatypes.S i) body (body i s)
  end.

(** ** Bytes and typed arrays *)

Definition byte_to_Z (b : byte) : Z := Z.of_N (Byte.to_N b).

(** Storing a number into a [Uint8Array] keeps it modulo 256. *)
Definition Z_to_byte (z : Z) : byte :=
  match Byte.of_N (Z.to_N (z mod 256)) with
  | Some b => b
  | None => x00
  end.

#[local] Instance byte_inhabited : Inhabited byte := populate x00.
#[local] Instance Q_inhabited : Inhabited Q := populate 0%Q.

Module Codec.

(** *** Platform: numeric conversions *)

Definition Math_min (a b : Q) : Q := if Qle_bool a b then a else b.
Definition Math_max (a b : Q) : Q := if Qle_bool b a then a else b.

(** Truncation toward zero, the first step of [ToInt16]. *)
Definition truncate (q : Q) : Z := Z.quot (Qnum q) (Z.pos (Qden q)).

(** [ToInt16]: truncate, reduce modulo 2^16, read as two's complement. *)
Definition ToInt16 (q : Q) : Z :=
  let m := truncate q mod 65536 in
  if 32768 <=? m then m - 65536 else m.

(** The bytes of one [Int16Array] element in the buffer (little-endian). *)
Definition int16_bytes (v : Z) : list byte :=
  [Z_to_byte v; Z_to_byte (v / 256)].

(** [int16.buffer]: the bytes under an [Int16Array]. *)
Definition Int16Array_buffer (a : list Z) : list byte :=
  flat_map int16_bytes a.

Definition int16_of_bytes (lo hi : byte) : Z :=
  let u := byte_to_Z lo + 256 * byte_to_Z hi in
  if 32768 <=? u then u - 65536 else u.

Fixpoint int16_view (bs : list byte) : list Z :=
  match bs with
  | lo :: hi :: rest => int16_of_bytes lo hi :: int16_view rest
  | _ => []
  end.

(** [new Int16Array(arrayBuffer)]: a [RangeError] unless the byte length is a
    multiple of the element size. *)
Definition new_Int16Array (buf : list byte) : result (list Z) :=
  if Nat.even (length buf) then Ok (int16_view buf) else Throw RangeError.

(** *** Platform: [btoa] and [atob] *)

Definition b64_char (n : Z) : Z :=
  if n <? 26 then n + 65
  else if n <? 52 then n + 71
  else if n <? 62 then n - 4
  else if n =? 62 then 43
  else 47.

Definition b64_index (c : Z) : option Z :=
  if (65 <=? c) && (c <=? 90) then Some (c - 65)
  else if (97 <=? c) && (c <=? 122) then Some (c - 71)
  else if (48 <=? c) && (c <=? 57) then Some (c + 4)
  else if c =? 43 then Some 62
  else if c =? 47 then Some 63
  else None.

Definition pad_char : Z := 61.

Fixpoint b64_encode (bs : list Z) : list Z :=
  match bs with
  | a :: b :: c :: rest =>
      let n := a * 65536 + b * 256 + c in
      b64_char (n / 262144) :: b64_char (n / 4096 mod 64)
        :: b64_char (n / 64 mod 64) :: b64_char (n mod 64) :: b64_encode rest
  | [a; b] =>
      let n := (a * 256 + b) * 4 in
      [b64_char (n / 4096); b64_char (n / 64 mod 64); b64_char (n mod 64); pad_char]
  | [a] =>
      let n := a * 16 in
      [b64_char (n / 64); b64_char (n mod 64); pad_char; pad_char]
  | [] => []
  end.

(** [btoa]: an [InvalidCharacterError] if a code unit is above 255. *)
Definition btoa (s : list Z) : result (list Z) :=
  if forallb (fun c => (0 <=? c) && (c <=? 255)) s
  then Ok (b64_encode s) else Throw InvalidCharacterError.

Definition is_ascii_whitespace (c : Z) : bool :=
  (c =? 9) || (c =? 10) || (c =? 12) || (c =? 13) || (c =? 32).

(** Remove one or two trailing [=]. *)
Definition strip_padding (data : list Z) : list Z :=
  match rev data with
  | c1 :: r1 =>
      if c1 =? pad_char then
        match r1 with
        | c2 :: r2 => if c2 =? pad_char then rev r2 else rev r1
        | [] => rev r1
        end
      else data
  | [] => data
  end.

Fixpoint sextets (data : list Z) : option (list Z) :=
  match data with
  | [] => Some []
  | c :: rest =>
      match b64_index c, sextets rest with
      | Some n, Some ns => Some (n :: ns)
      | _, _ => None
      end
  end.

Fixpoint b64_decode (sx : list Z) : list Z :=
  match sx with
  | s0 :: s1 :: s2 :: s3 :: rest =>
      let n := ((s0 * 64 + s1) * 64 + s2) * 64 + s3 in
      n / 65536 :: n / 256 mod 256 :: n mod 256 :: b64_decode rest
  | [s0; s1; s2] =>
      let n := ((s0 * 64 + s1) * 64 + s2) / 4 in
      [n / 256; n mod 256]
  | [s0; s1] =>
      let n := (s0 * 64 + s1) / 16 in
      [n]
  | _ => []
  end.

(** [atob], the forgiving base64 decoding of the platform: strip ASCII
    whitespace; if the length is a multiple of 4 remove one or two trailing
    [=]; fail if the length is 1 modulo 4 or a character is outside the
    alphabet; decode 6 bits per character, dropping the incomplete byte. *)
Definition atob (data : list Z) : result (list Z) :=
  let data := List.filter (fun c => negb (is_ascii_whitespace c)) data in
  let data := if (length data mod 4 =? 0)%nat then strip_padding data else data in
  if (length data mod 4 =? 1)%nat then Throw InvalidCharacterError
  else match sextets data with
       | Some sx => Ok (b64_decode sx)
       | None => Throw InvalidCharacterError
       end.

(** *** geminiService.ts: audio helpers *)

(** The value stored at [int16[i]] before conversion:
    [s < 0 ? s * 0x8000 : s * 0x7FFF] with [s] the clamped sample. *)
Definition scale_sample (x : Q) : Q :=
  let s := Math_max (-1) (Math_min 1 x) in
  if negb (Qle_bool 0 s) then s * 32768 else s * 32767.

Definition String_fromCharCode (b : byte) : Z := byte_to_Z b.

(** [arrayBufferToBase64]. *)
Definition arrayBufferToBase64 (buffer : list byte) : result (list Z) :=
  let bytes := buffer in
  let len := length bytes in
  let binary :=
    for_loop len 0
      (fun i binary => binary ++ [String_fromCharCode (bytes !!! i)]) [] in
  btoa binary.

(** [base64ToArrayBuffer]. *)
Definition base64ToArrayBuffer (base64 : list Z) : result (list byte) :=
  (let* binaryString := atob base64 in
   let len := length binaryString in
   let bytes :=
     for_loop len 0
       (fun i bytes => <[i := Z_to_byte (binaryString !!! i)]> bytes)
       (replicate len x00) in
   Ok bytes).

Record PcmBlob : Type := { blob_data : list Z; blob_mimeType : list Z }.

(** The code units of ['audio/pcm;rate=16000']. *)
Definition pcm_mime : list Z :=
  [97; 117; 100; 105; 111; 47; 112; 99; 109; 59; 114; 97; 116; 101; 61;
   49; 54; 48; 48; 48].

(** The [Int16Array] filled by the loop of [createPcmBlob]. *)
Definition floatToInt16 (data : list Q) : list Z :=
  let l := length data in
  for_loop l 0
    (fun i int16 => <[i := ToInt16 (scale_sample (data !!! i))]> int16)
    (replicate l 0).

(** [createPcmBlob]. *)
Definition createPcmBlob (data : list Q) : result PcmBlob :=
  (let* b64 := arrayBufferToBase64 (Int16Array_buffer (floatToInt16 data)) in
   Ok {| blob_data := b64; blob_mimeType := pcm_mime |}).

(** *** LiveVoiceMode.tsx: decodeRawPcm *)

Record AudioBuffer : Type :=
  { channelData : list Q; sampleRate : Z }.

(** [buffer.duration]: length over sample rate, in seconds. *)
Definition duration (b : AudioBuffer) : Q :=
  Z.of_nat (length (channelData b)) # Z.to_pos (sampleRate b).

(** [ctx.createBuffer(1, frameCount, rate)]: the length must be at least 1. *)
Definition createBuffer (frameCount : nat) (rate : Z) : result AudioBuffer :=
  if (frameCount =? 0)%nat then Throw NotSupportedError
  else Ok {| channelData := replicate frameCount 0%Q; sampleRate := rate |}.

Definition decodeRawPcm (arrayBuffer : list byte) : result AudioBuffer :=
  (let* dataInt16 := new_Int16Array arrayBuffer in
   let frameCount := length dataInt16 in
   let* buffer := createBuffer frameCount 24000 in
   let channelData' :=
     for_loop frameCount 0
       (fun i cd => <[i := (inject_Z (dataInt16 !!! i) / 32768)%Q]> cd)
       (channelData buffer) in
   Ok {| channelData := channelData'; sampleRate := sampleRate buffer |}).

End Codec.

(** The spec's wording of the codec, to compare the code with. *)
Module CodecSpec.
Import Codec.

(** "each sample clamped to [-1, 1]" *)
Definition clamp (s : Q) : Q :=
  if Qle_bool 1 s then 1%Q else if Qle_bool s (-1) then (-1)%Q else s.

(** "negative values scaled by 32768, non-negative by 32767, truncated to a
    16-bit signed integer" *)
Definition pcm16_of_sample (x : Q) : Z :=
  let s := clamp x in
  truncate (if negb (Qle_bool 0 s) then s * 32768 else s * 32767)%Q.

(** "serialized little-endian": low byte first, of the two's complement. *)
Definition le16 (v : Z) : list byte :=
  let u := v mod 65536 in [Z_to_byte (u mod 256); Z_to_byte (u / 256)].

Definition floatTo16BitPCM (samples : list Q) : list byte :=
  flat_map (fun x => le16 (pcm16_of_sample x)) samples.

(** The 6-bit groups of a byte sequence, and the padding that follows them in
    the encoded text. *)
Fixpoint b64_body (bs : list Z) : list Z :=
  match bs with
  | a :: b :: c :: rest =>
      let n := a * 65536 + b * 256 + c in
      n / 262144 :: n / 4096 mod 64 :: n / 64 mod 64 :: n mod 64 :: b64_body rest
  | [a; b] =>
      let n := (a * 256 + b) * 4 in
      [n / 4096; n / 64 mod 64; n mod 64]
  | [a] =>
      let n := a * 16 in
      [n / 64; n mod 64]
  | [] => []
  end.

Definition b64_padding (bs : list Z) : list Z :=
  match (length bs mod 3)%nat with
  | 1%nat => [pad_char; pad_char]
  | 2%nat => [pad_char]
  | _ => []
  end.

(** The round trip of the spec's quantisation property: encode a block as
    the capture pipeline does, decode it as the playback path does. *)
Definition pcm_round_trip (x : list Q) : result AudioBuffer :=
  let* blob := createPcmBlob x in
  let* arrayBuffer := base64ToArrayBuffer (blob_data blob) in
  decodeRawPcm arrayBuffer.

End CodecSpec.

(** ** LiveVoiceMode.tsx: the voice session component *)

Module Voice.
Import Codec.

Inductive Status : Type := connecting | connected | error | disconnected.

(** An [AudioBufferSourceNode] of the platform. *)
Inductive NodeState : Type :=
| Unscheduled             (* created, [start] not called yet *)
| Scheduled (when : Q)    (* [start(when)] was called *)
| Stopped                 (* [stop()] was called after [start] *)
| Finished.               (* played to the end of its buffer *)

Record SourceNode : Type :=
  { node_buffer : AudioBuffer; node_state : NodeState }.

(** The closure installed as [processor.onaudioprocess].  Its free variables
    are those of the render in which [startSession] was created: the value
    of [isMuted] in that render, and the session promise. *)
Record AudioCallback : Type :=
  { cb_ctx : nat; cb_isMuted : bool; cb_session : nat }.

(** [startSession] suspended at [await getUserMedia]. *)
Record StartEnv : Type :=
  { se_inputCtx : nat; se_outputCtx : nat; se_outNode : nat; se_isMuted : bool }.

(** The callbacks handed to [connectToLiveSession], with what they close over. *)
Record ConnEnv : Type :=
  { ce_inputCtx : nat; ce_stream : nat; ce_session : nat;
    ce_outputCtx : nat; ce_outNode : nat; ce_isMuted : bool }.

(** Calls that leave the component, and what the platform reports of it. *)
Inductive Effect : Type :=
| SessionClose (session : nat)
| ContextClose (ctx : nat)
| TracksStop (stream : nat)
| NodeStart (node : nat) (when : Q)
| NodeStop (node : nat)
| SendRealtimeInput (session : nat) (media : PcmBlob)
| ConsoleError
| Uncaught (e : exn)                  (* an exception escaped a callback *)
| UnhandledRejection (promise : nat). (* a rejection met no handler *)

(** A real number that is not negative, known by its square, or NaN:
    [Root q] is the square root of [q]. *)
Inductive Number : Type :=
| NaN
| Root (square : Q).

(** The number [q], for [0 <= q]. *)
Definition number (q : Q) : Number := Root (q * q).

(** A callback handed to [then] on a session promise. *)
Inductive Reaction : Type :=
| SendMedia (media : PcmBlob)   (* [session => session.sendRealtimeInput({ media })] *)
| CloseSession.                 (* [session => session.close()], with [.catch(() => {})] *)

(** [useState] *)
Record React : Type :=
  { status : Status; isMuted : bool; volume : Number }.

(** [useRef] *)
Record Refs : Type :=
  { inputContextRef : option nat;
    outputContextRef : option nat;
    streamRef : option nat;
    processorRef : option nat;
    sourceRef : option nat;
    outputNodeRef : option nat;
    nextStartTimeRef : Q;
    activeSourcesRef : list nat;       (* a [Set], in insertion order *)
    sessionPromiseRef : option nat }.

(** Platform objects the component created, and the calls it made.  The
    latest suspended [startSession], the latest session callbacks and the
    latest capture callback have a field each; a start, a session or a
    processor that a later one follows stays alive in the browser, and is
    kept in the list of the earlier ones. *)
Record Heap : Type :=
  { nodes : list SourceNode;           (* source nodes, by identity *)
    onaudioprocess : option AudioCallback;
    pendingStart : option StartEnv;
    callbacks : option ConnEnv;
    fresh : nat;                       (* next object identity *)
    effects : list Effect;
    settled : list (nat * bool);       (* promises that were fulfilled ([true])
                                          or rejected ([false]) *)
    reactions : list (nat * Reaction); (* [then] callbacks still to run,
                                          oldest first, each with its promise *)
    earlierStarts : list StartEnv;
    earlierCallbacks : list ConnEnv;
    earlierProcessors : list AudioCallback }.

Record State : Type := { react : React; refs : Refs; heap : Heap }.

Definition set_status (v : Status) (r : React) : React :=
  {| status := v; isMuted := isMuted r; volume := volume r |}.
Definition set_isMuted (v : bool) (r : React) : React :=
  {| status := status r; isMuted := v; volume := volume r |}.
Definition set_volume (v : Number) (r : React) : React :=
  {| status := status r; isMuted := isMuted r; volume := v |}.

Definition set_inputContextRef (v : option nat) (r : Refs) : Refs :=
  {| inputContextRef := v; outputContextRef := outputContextRef r;
     streamRef := streamRef r; processorRef := processorRef r;
     sourceRef := sourceRef r; outputNodeRef := outputNodeRef r;
     nextStartTimeRef := nextStartTimeRef r; activeSourcesRef := activeSourcesRef r;
     sessionPromiseRef := sessionPromiseRef r |}.
Definition set_outputContextRef (v : option nat) (r : Refs) : Refs :=
  {| inputContextRef := inputContextRef r; outputContextRef := v;
     streamRef := streamRef r; processorRef := processorRef r;
     sourceRef := sourceRef r; outputNodeRef := outputNodeRef r;
     nextStartTimeRef := nextStartTimeRef r; activeSourcesRef := activeSourcesRef r;
     sessionPromiseRef := sessionPromiseRef r |}.
Definition set_streamRef (v : option nat) (r : Refs) : Refs :=
  {| inputContextRef := inputContextRef r; outputContextRef := outputContextRef r;
     streamRef := v; processorRef := processorRef r; sourceRef := sourceRef r;
     outputNodeRef := outputNodeRef r; nextStartTimeRef := nextStartTimeRef r;
     activeSourcesRef := activeSourcesRef r;
     sessionPromiseRef := sessionPromiseRef r |}.
Definition set_processorRef (v : option nat) (r : Refs) : Refs :=
  {| inputContextRef := inputContextRef r; outputContextRef := outputContextRef r;
     streamRef := streamRef r; processorRef := v; sourceRef := sourceRef r;
     outputNodeRef := outputNodeRef r; nextStartTimeRef := nextStartTimeRef r;
     activeSourcesRef := activeSourcesRef r;
     sessionPromiseRef := sessionPromiseRef r |}.
Definition set_sourceRef (v : option nat) (r : Refs) : Refs :=
  {| inputContextRef := inputContextRef r; outputContextRef := outputContextRef r;
     streamRef := streamRef r; processorRef := processorRef r; sourceRef := v;
     outputNodeRef := outputNodeRef r; nextStartTimeRef := nextStartTimeRef r;
     activeSourcesRef := activeSourcesRef r;
     sessionPromiseRef := sessionPromiseRef r |}.
Definition set_outputNodeRef (v : option nat) (r : Refs) : Refs :=
  {| inputContextRef := inputContextRef r; outputContextRef := outputContextRef r;
     streamRef := streamRef r; processorRef := processorRef r;
     sourceRef := sourceRef r; outputNodeRef := v;
     nextStartTimeRef := nextStartTimeRef r; activeSourcesRef := activeSourcesRef r;
     sessionPromiseRef := sessionPromiseRef r |}.
Definition set_nextStartTimeRef (v : Q) (r : Refs) : Refs :=
  {| inputContextRef := inputContextRef r; outputContextRef := outputContextRef r;
     streamRef := streamRef r; processorRef := processorRef r;
     sourceRef := sourceRef r; outputNodeRef := outputNodeRef r; nextStartTimeRef := v;
     activeSourcesRef := activeSourcesRef r;
     sessionPromiseRef := sessionPromiseRef r |}.
Definition set_activeSourcesRef (v : list nat) (r : Refs) : Refs :=
  {| inputContextRef := inputContextRef r; outputContextRef := outputContextRef r;
     streamRef := streamRef r; processorRef := processorRef r;
     sourceRef := sourceRef r; outputNodeRef := outputNodeRef r;
     nextStartTimeRef := nextStartTimeRef r; activeSourcesRef := v;
     sessionPromiseRef := sessionPromiseRef r |}.
Definition set_sessionPromiseRef (v : option nat) (r : Refs) : Refs :=
  {| inputContextRef := inputContextRef r; outputContextRef := outputContextRef r;
     streamRef := streamRef r; processorRef := processorRef r;
     sourceRef := sourceRef r; outputNodeRef := outputNodeRef r;
     nextStartTimeRef := nextStartTimeRef r; activeSourcesRef := activeSourcesRef r;
     sessionPromiseRef := v |}.

Definition set_nodes (v : list SourceNode) (r : Heap) : Heap :=
  {| nodes := v; onaudioprocess := onaudioprocess r; pendingStart := pendingStart r;
     callbacks := callbacks r; fresh := fresh r; effects := effects r;
     settled := settled r; reactions := reactions r; earlierStarts := earlierStarts r;
     earlierCallbacks := earlierCallbacks r;
     earlierProcessors := earlierProcessors r |}.
Definition set_onaudioprocess (v : option AudioCallback) (r : Heap) : Heap :=
  {| nodes := nodes r; onaudioprocess := v; pendingStart := pendingStart r;
     callbacks := callbacks r; fresh := fresh r; effects := effects r;
     settled := settled r; reactions := reactions r; earlierStarts := earlierStarts r;
     earlierCallbacks := earlierCallbacks r;
     earlierProcessors := earlierProcessors r |}.
Definition set_pendingStart (v : option StartEnv) (r : Heap) : Heap :=
  {| nodes := nodes r; onaudioprocess := onaudioprocess r; pendingStart := v;
     callbacks := callbacks r; fresh := fresh r; effects := effects r;
     settled := settled r; reactions := reactions r; earlierStarts := earlierStarts r;
     earlierCallbacks := earlierCallbacks r;
     earlierProcessors := earlierProcessors r |}.
Definition set_callbacks (v : option ConnEnv) (r : Heap) : Heap :=
  {| nodes := nodes r; onaudioprocess := onaudioprocess r;
     pendingStart := pendingStart r; callbacks := v; fresh := fresh r;
     effects := effects r; settled := settled r; reactions := reactions r;
     earlierStarts := earlierStarts r; earlierCallbacks := earlierCallbacks r;
     earlierProcessors := earlierProcessors r |}.
Definition set_fresh (v : nat) (r : Heap) : Heap :=
  {| nodes := nodes r; onaudioprocess := onaudioprocess r;
     pendingStart := pendingStart r; callbacks := callbacks r; fresh := v;
     effects := effects r; settled := settled r; reactions := reactions r;
     earlierStarts := earlierStarts r; earlierCallbacks := earlierCallbacks r;
     earlierProcessors := earlierProcessors r |}.
Definition set_effects (v : list Effect) (r : Heap) : Heap :=
  {| nodes := nodes r; onaudioprocess := onaudioprocess r;
     pendingStart := pendingStart r; callbacks := callbacks r; fresh := fresh r;
     effects := v; settled := settled r; reactions := reactions r;
     earlierStarts := earlierStarts r; earlierCallbacks := earlierCallbacks r;
     earlierProcessors := earlierProcessors r |}.
Definition set_settled (v : list (nat * bool)) (r : Heap) : Heap :=
  {| nodes := nodes r; onaudioprocess := onaudioprocess r;
     pendingStart := pendingStart r; callbacks := callbacks r; fresh := fresh r;
     effects := effects r; settled := v; reactions := reactions r;
     earlierStarts := earlierStarts r; earlierCallbacks := earlierCallbacks r;
     earlierProcessors := earlierProcessors r |}.
Definition set_reactions (v : list (nat * Reaction)) (r : Heap) : Heap :=
  {| nodes := nodes r; onaudioprocess := onaudioprocess r;
     pendingStart := pendingStart r; callbacks := callbacks r; fresh := fresh r;
     effects := effects r; settled := settled r; reactions := v;
     earlierStarts := earlierStarts r; earlierCallbacks := earlierCallbacks r;
     earlierProcessors := earlierProcessors r |}.
Definition set_earlierStarts (v : list StartEnv) (r : Heap) : Heap :=
  {| nodes := nodes r; onaudioprocess := onaudioprocess r;
     pendingStart := pendingStart r; callbacks := callbacks r; fresh := fresh r;
     effects := effects r; settled := settled r; reactions := reactions r;
     earlierStarts := v; earlierCallbacks := earlierCallbacks r;
     earlierProcessors := earlierProcessors r |}.
Definition set_earlierCallbacks (v : list ConnEnv) (r : Heap) : Heap :=
  {| nodes := nodes r; onaudioprocess := onaudioprocess r;
     pendingStart := pendingStart r; callbacks := callbacks r; fresh := fresh r;
     effects := effects r; settled := settled r; reactions := reactions r;
     earlierStarts := earlierStarts r; earlierCallbacks := v;
     earlierProcessors := earlierProcessors r |}.
Definition set_earlierProcessors (v : list AudioCallback) (r : Heap) : Heap :=
  {| nodes := nodes r; onaudioprocess := onaudioprocess r;
     pendingStart := pendingStart r; callbacks := callbacks r; fresh := fresh r;
     effects := effects r; settled := settled r; reactions := reactions r;
     earlierStarts := earlierStarts r; earlierCallbacks := earlierCallbacks r;
     earlierProcessors := v |}.

Definition upd_react (f : React -> React) (st : State) : State :=
  {| react := f (react st); refs := refs st; heap := heap st |}.
Definition upd_refs (f : Refs -> Refs) (st : State) : State :=
  {| react := react st; refs := f (refs st); heap := heap st |}.
Definition upd_heap (f : Heap -> Heap) (st : State) : State :=
  {| react := react st; refs := refs st; heap := f (heap st) |}.

Definition setStatus (v : Status) : State -> State := upd_react (set_status v).
Definition setIsMuted (v : bool) : State -> State := upd_react (set_isMuted v).
Definition setVolume (v : Number) : State -> State := upd_react (set_volume v).

Definition perform (e : Effect) : State -> State :=
  upd_heap (fun h => set_effects (effects h ++ [e]) h).

(** A new platform object; its identity is returned. *)
Definition allocate (st : State) : nat * State :=
  (fresh (heap st), upd_heap (fun h => set_fresh (S (fresh h)) h) st).

(** The component as first mounted. *)
Definition initial : State :=
  {| react := {| status := connecting; isMuted := false; volume := number 0 |};
     refs := {| inputContextRef := None; outputContextRef := None; streamRef := None;
                processorRef := None; sourceRef := None; outputNodeRef := None;
                nextStartTimeRef := 0; activeSourcesRef := [];
                sessionPromiseRef := None |};
     heap := {| nodes := []; onaudioprocess := None; pendingStart := None;
                callbacks := None; fresh := 0; effects := [];
                settled := []; reactions := []; earlierStarts := [];
                earlierCallbacks := []; earlierProcessors := [] |} |}.

(** [try { body } catch (e) { handler }] *)
Definition try_catch {A} (body : result A) (handler : exn -> result A) : result A :=
  match body with
  | Ok a => Ok a
  | Throw e => handler e
  end.

(** [xs.forEach(f)] over a snapshot of a collection. *)
Fixpoint forEach {A} (xs : list A) (f : A -> State -> result State) (st : State)
  : result State :=
  match xs with
  | [] => Ok st
  | x :: xs' => let* st' := f x st in forEach xs' f st'
  end.

(** [Set.prototype.add] and [Set.prototype.delete]. *)
Definition Set_add (x : nat) (s : list nat) : list nat :=
  if existsb (Nat.eqb x) s then s else s ++ [x].
Definition Set_delete (x : nat) (s : list nat) : list nat :=
  List.filter (fun y => negb (Nat.eqb x y)) s.

Definition set_node_state (id : nat) (ns : NodeState) (st : State) : State :=
  upd_heap (fun h =>
    set_nodes (alter (fun n => {| node_buffer := node_buffer n; node_state := ns |})
                     id (nodes h)) h) st.

(** Whether [close()] was called on an audio context. *)
Definition context_closed (ctx : nat) (st : State) : bool :=
  existsb (fun e => match e with ContextClose c => Nat.eqb c ctx | _ => false end)
          (effects (heap st)).

(** The platform marks a node that played to its end. *)
Definition node_finished (id : nat) (st : State) : State :=
  match nodes (heap st) !! id with
  | Some {| node_state := Scheduled _ |} => set_node_state id Finished st
  | _ => st
  end.

(** The earlier ones, once the latest is followed by a new one. *)
Definition earlier {A} (latest : option A) (before : list A) : list A :=
  match latest with
  | Some x => before ++ [x]
  | None => before
  end.

(** [startSession] reaches its [await]: it is suspended with what it
    closed over. *)
Definition suspend (env : StartEnv) : State -> State :=
  upd_heap (fun h =>
    set_pendingStart (Some env)
      (set_earlierStarts (earlier (pendingStart h) (earlierStarts h)) h)).

(** The callbacks of a new session are registered. *)
Definition register (env : ConnEnv) : State -> State :=
  upd_heap (fun h =>
    set_callbacks (Some env)
      (set_earlierCallbacks (earlier (callbacks h) (earlierCallbacks h)) h)).

(** [processor.onaudioprocess = cb] on a new processor. *)
Definition install (cb : AudioCallback) : State -> State :=
  upd_heap (fun h =>
    set_onaudioprocess (Some cb)
      (set_earlierProcessors (earlier (onaudioprocess h) (earlierProcessors h)) h)).

(** How a callback ends: it returns, or an exception escapes it.  Either
    way the state is what the callback left behind. *)
Inductive completion : Type :=
| Returns (st : State)
| Escapes (e : exn) (st : State).

Definition state_of (c : completion) : State :=
  match c with Returns st | Escapes _ st => st end.

Definition and_then (c : completion) (k : State -> completion) : completion :=
  match c with
  | Returns st => k st
  | Escapes e st => Escapes e st
  end.

(** The platform reports an exception that escaped a callback. *)
Definition reported (c : completion) : State :=
  match c with
  | Returns st => st
  | Escapes e st => perform (Uncaught e) st
  end.

(** The calls of [setupAudioInput] into the audio graph. *)
Inductive GraphCall : Type :=
| CreateMediaStreamSource     (* [ctx.createMediaStreamSource(stream)] *)
| CreateScriptProcessor       (* [ctx.createScriptProcessor(4096, 1, 1)] *)
| ConnectSource               (* [source.connect(processor)] *)
| ConnectProcessor.           (* [processor.connect(ctx.destination)] *)

(** What the platform does outside the component. *)
Record Platform : Type :=
  { (* whether [stop()] on a node that was stopped or has finished throws
       (it does on older engines, it is ignored on current ones) *)
    stop_again_throws : bool;
    (* the exception with which a call into the audio graph is refused, if
       it is: a stream without an audio track, say, or a context whose
       sample rate the engine cannot join to the stream's *)
    graph_error : GraphCall -> State -> option exn }.

(** [sum / n] for the sum of a block and its length; [None] is NaN.  The
    sum over no samples is 0, and [0 / 0] is NaN. *)
Definition quotient (sum : Q) (n : nat) : option Q :=
  match n with
  | O => None
  | S _ => Some (sum / inject_Z (Z.of_nat n))%Q
  end.

(** [Math.sqrt] *)
Definition Math_sqrt (x : option Q) : Number :=
  match x with
  | Some q => if Qle_bool 0 q then Root q else NaN
  | None => NaN
  end.

(** [x * k] for [0 <= k]. *)
Definition times (x : Number) (k : Q) : Number :=
  match x with
  | NaN => NaN
  | Root q => Root (q * (k * k))
  end.

(** [Math.min(x, k)] for [0 <= k]; with NaN it is NaN. *)
Definition Math_min_number (x : Number) (k : Q) : Number :=
  match x with
  | NaN => NaN
  | Root q => Root (Math_min q (k * k))
  end.

(** Whether a promise was fulfilled ([Some true]), was rejected
    ([Some false]) or is pending. *)
Definition promise_state (promise : nat) (st : State) : option bool :=
  match List.find (fun p => Nat.eqb (fst p) promise) (settled (heap st)) with
  | Some p => Some (snd p)
  | None => None
  end.

(** [promise.then(reaction)] *)
Definition then_ (promise : nat) (reaction : Reaction) : State -> State :=
  upd_heap (fun h => set_reactions (reactions h ++ [(promise, reaction)]) h).

(** The platform settles a promise; a promise settles once. *)
Definition settle (promise : nat) (fulfilled : bool) (st : State) : State :=
  match promise_state promise st with
  | Some _ => st
  | None => upd_heap (fun h => set_settled ((promise, fulfilled) :: settled h) h) st
  end.

(** What a [then] callback does once its promise has settled.  On a
    rejected promise the callback does not run: the send has no rejection
    handler, the close has one that ignores the failure. *)
Definition reaction_calls (st : State) (r : nat * Reaction) : list Effect :=
  match promise_state (fst r) st, snd r with
  | Some true, SendMedia media => [SendRealtimeInput (fst r) media]
  | Some true, CloseSession => [SessionClose (fst r)]
  | Some false, SendMedia _ => [UnhandledRejection (fst r)]
  | Some false, CloseSession => []
  | None, _ => []
  end.

(** The microtasks that follow a callback: the [then] callbacks whose
    promise has settled run in the order they were registered; those of a
    pending promise wait. *)
Definition microtasks (st : State) : State :=
  upd_heap (fun h =>
    set_reactions
      (List.filter (fun r => match promise_state (fst r) st with
                             | None => true
                             | Some _ => false
                             end) (reactions h))
      (set_effects (effects h ++ flat_map (reaction_calls st) (reactions h)) h)) st.

Section WithPlatform.
Variable pf : Platform.

(** [source.stop()] *)
Definition source_stop (id : nat) (st : State) : result State :=
  match nodes (heap st) !! id with
  | None => Ok st
  | Some n =>
      match node_state n with
      | Unscheduled => Throw InvalidStateError
      | Scheduled _ => Ok (perform (NodeStop id) (set_node_state id Stopped st))
      | Stopped | Finished =>
          if stop_again_throws pf then Throw InvalidStateError else Ok st
      end
  end.

(** [source.start(when)] *)
Definition source_start (id : nat) (when : Q) (st : State) : result State :=
  if negb (Qle_bool 0 when) then Throw RangeError
  else match nodes (heap st) !! id with
       | Some n =>
           match node_state n with
           | Unscheduled =>
               Ok (perform (NodeStart id when) (set_node_state id (Scheduled when) st))
           | _ => Throw InvalidStateError
           end
       | None => Throw InvalidStateError
       end.

(** [try { source.stop(); } catch(e) {}] *)
Definition try_stop (source : nat) (st : State) : result State :=
  try_catch (source_stop source st) (fun _ => Ok st).

(** [activeSourcesRef.current.forEach(source => { try { source.stop(); } catch(e) {} })] *)
Definition stop_all (st : State) : result State :=
  forEach (activeSourcesRef (refs st)) try_stop st.

(** [cleanup].  The session is closed from a promise callback whose
    failure is ignored; closing a context returns a promise. *)
Definition cleanup (st : State) : result State :=
  let st :=
    match sessionPromiseRef (refs st) with
    | Some session =>
        upd_refs (set_sessionPromiseRef None) (then_ session CloseSession st)
    | None => st
    end in
  (* Stop all playing audio *)
  let* st := stop_all st in
  let st := upd_refs (set_activeSourcesRef []) st in
  (* Close contexts *)
  let st := match inputContextRef (refs st) with
            | Some c => perform (ContextClose c) st
            | None => st
            end in
  let st := match outputContextRef (refs st) with
            | Some c => perform (ContextClose c) st
            | None => st
            end in
  (* Stop tracks *)
  let st := match streamRef (refs st) with
            | Some s => perform (TracksStop s) st
            | None => st
            end in
  let st := upd_refs (set_inputContextRef None) st in
  let st := upd_refs (set_outputContextRef None) st in
  let st := setStatus disconnected st in
  Ok (setVolume (number 0) st).

(** [startSession], up to [await navigator.mediaDevices.getUserMedia].
    [audio_ok] tells whether the audio contexts could be created.  The
    closures made here see the [isMuted] of the render that ran the effect. *)
Definition startSession (audio_ok : bool) (st : State) : State :=
  let render_isMuted := isMuted (react st) in
  let st := setStatus connecting st in
  let st := upd_refs (set_nextStartTimeRef 0) st in
  if audio_ok then
    let '(inputCtx, st) := allocate st in
    let st := upd_refs (set_inputContextRef (Some inputCtx)) st in
    let '(outputCtx, st) := allocate st in
    let st := upd_refs (set_outputContextRef (Some outputCtx)) st in
    let '(outNode, st) := allocate st in
    let st := upd_refs (set_outputNodeRef (Some outNode)) st in
    suspend {| se_inputCtx := inputCtx; se_outputCtx := outputCtx;
               se_outNode := outNode; se_isMuted := render_isMuted |} st
  else setStatus error (perform ConsoleError st).

(** [startSession] after its [await]: the stream was granted, or the
    request failed. *)
Definition startSession_resumed (env : StartEnv) (granted : bool) (st : State) : State :=
  if granted then
    let '(stream, st) := allocate st in
    let st := upd_refs (set_streamRef (Some stream)) st in
    let '(sessionPromise, st) := allocate st in
    let st := register
      {| ce_inputCtx := se_inputCtx env; ce_stream := stream;
         ce_session := sessionPromise;
         ce_outputCtx := se_outputCtx env; ce_outNode := se_outNode env;
         ce_isMuted := se_isMuted env |} st in
    upd_refs (set_sessionPromiseRef (Some sessionPromise)) st
  else setStatus error (perform ConsoleError st).

(** The latest [startSession] is resumed. *)
Definition startSession_resume (granted : bool) (st : State) : State :=
  match pendingStart (heap st) with
  | None => st
  | Some env => startSession_resumed env granted (upd_heap (set_pendingStart None) st)
  end.

(** An earlier [startSession], which a later one did not cancel, is resumed. *)
Definition startSession_resume_earlier (k : nat) (granted : bool) (st : State) : State :=
  match earlierStarts (heap st) !! k with
  | None => st
  | Some env =>
      startSession_resumed env granted
        (upd_heap (fun h => set_earlierStarts (delete k (earlierStarts h)) h) st)
  end.

(** A call into the audio graph: the platform makes it or refuses it. *)
Definition graph_call (call : GraphCall) (st : State) : completion :=
  match graph_error pf call st with
  | Some e => Escapes e st
  | None => Returns st
  end.

(** [setupAudioInput].  None of its calls is inside a [try]. *)
Definition setupAudioInput (env : ConnEnv) (st : State) : completion :=
  and_then (graph_call CreateMediaStreamSource st) (fun st =>
  let '(source, st) := allocate st in
  let st := upd_refs (set_sourceRef (Some source)) st in
  and_then (graph_call CreateScriptProcessor st) (fun st =>
  let '(processor, st) := allocate st in
  let st := upd_refs (set_processorRef (Some processor)) st in
  let st := install {| cb_ctx := ce_inputCtx env; cb_isMuted := ce_isMuted env;
                       cb_session := ce_session env |} st in
  and_then (graph_call ConnectSource st) (fun st =>
  graph_call ConnectProcessor st))).

(** The [onOpen] callback. *)
Definition onOpen (env : ConnEnv) (st : State) : completion :=
  setupAudioInput env (setStatus connected st).

(** The body of [processor.onaudioprocess]. *)
Definition audioprocess (cb : AudioCallback) (inputData : list Q) (st : State)
  : result State :=
  if cb_isMuted cb then Ok st
  else
    (* Calculate volume for visualizer *)
    let sum :=
      for_loop (length inputData) 0
        (fun i sum => (sum + (inputData !!! i) * (inputData !!! i))%Q) 0%Q in
    let rms := Math_sqrt (quotient sum (length inputData)) in
    let st := setVolume (Math_min_number (times rms 5) 1) st in
    (* Create PCM Blob and Send *)
    let* pcmData := createPcmBlob inputData in
    Ok (then_ (cb_session cb) (SendMedia pcmData) st).

(** [playAudioChunk] up to its [await]: the payload is decoded.  A failure
    is caught and logged. *)
Definition playAudioChunk_decode (base64Audio : list Z) : result AudioBuffer :=
  let* arrayBuffer := base64ToArrayBuffer base64Audio in
  decodeRawPcm arrayBuffer.

(** [playAudioChunk] after its [await]; [currentTime] is [ctx.currentTime]
    as read there. *)
Definition playAudioChunk_schedule (audioBuffer : AudioBuffer) (currentTime : Q)
    (st : State) : State :=
  let source := length (nodes (heap st)) in
  let st := upd_heap (fun h =>
    set_nodes (nodes h ++ [{| node_buffer := audioBuffer; node_state := Unscheduled |}]) h)
    st in
  (* Ensure we don't schedule in the past *)
  let st :=
    if negb (Qle_bool currentTime (nextStartTimeRef (refs st)))
    then upd_refs (set_nextStartTimeRef currentTime) st else st in
  match source_start source (nextStartTimeRef (refs st)) st with
  | Ok st =>
      let st := upd_refs (fun r =>
        set_nextStartTimeRef (nextStartTimeRef r + duration audioBuffer)%Q r) st in
      upd_refs (fun r => set_activeSourcesRef (Set_add source (activeSourcesRef r)) r) st
  | Throw _ => perform ConsoleError st
  end.

(** [playAudioChunk], run to its end. *)
Definition playAudioChunk (base64Audio : list Z) (currentTime : Q) (st : State)
  : State :=
  match playAudioChunk_decode base64Audio with
  | Ok audioBuffer => playAudioChunk_schedule audioBuffer currentTime st
  | Throw _ => perform ConsoleError st
  end.

(** The interruption branch of [handleServerMessage]. *)
Definition flush (st : State) : result State :=
  let* st := stop_all st in
  let st := upd_refs (set_activeSourcesRef []) st in
  Ok (upd_refs (set_nextStartTimeRef 0) st).

(** An inbound [LiveServerMessage], as far as the component reads it:
    [serverContent.modelTurn.parts[0].inlineData.data] when there is inline
    data, and [serverContent.interrupted]. *)
Record Message : Type :=
  { inlineData : option (list Z); interrupted : bool }.

(** [handleServerMessage].  [playAudioChunk] is called but not awaited: it
    decodes, then yields at its [await]; the interruption branch runs; the
    scheduling half of [playAudioChunk] runs after the handler returned. *)
Definition handleServerMessage (message : Message) (currentTime : Q) (st : State)
  : result State :=
  let started :=
    match inlineData message with
    | Some (c :: base64Audio) => Some (playAudioChunk_decode (c :: base64Audio))
    | _ => None
    end in
  let st := match started with
            | Some (Throw _) => perform ConsoleError st
            | _ => st
            end in
  (* Handle Interruption *)
  let* st := if interrupted message then flush st else Ok st in
  match started with
  | Some (Ok audioBuffer) => Ok (playAudioChunk_schedule audioBuffer currentTime st)
  | _ => Ok st
  end.

(** [source.onended] *)
Definition onended (source : nat) (st : State) : State :=
  upd_refs (fun r => set_activeSourcesRef (Set_delete source (activeSourcesRef r)) r) st.

(** [toggleMute], called from the render that is on screen. *)
Definition toggleMute (st : State) : State :=
  setIsMuted (negb (isMuted (react st))) st.

(** What can happen to the component. *)
Inductive Event : Type :=
| EffectOpen (audio_ok : bool)        (* the effect runs with [isOpen] *)
| UserMedia (granted : bool)          (* [getUserMedia] settles *)
| SessionOpen
| SessionSettled (promise : nat) (fulfilled : bool)  (* a session promise settles *)
| SessionMessage (message : Message) (currentTime : Q)
| SessionClosed
| SessionError
| AudioProcess (inputData : list Q)   (* a captured block is ready *)
| SourceEnded (source : nat)          (* a node played to its end *)
| MuteClicked
| EffectCleanup                       (* the effect is torn down *)
| EarlierUserMedia (k : nat) (granted : bool)  (* of an earlier start *)
| EarlierSessionOpen (k : nat)                 (* of an earlier session *)
| EarlierAudioProcess (k : nat) (inputData : list Q).  (* of an earlier processor *)

(** The callback an event runs.  A block is delivered to a capture
    callback whenever its context is open; the browser delivers none to a
    processor that is connected to nothing.  A message, a close and an error
    run the same code whichever session they come from. *)
Definition handle (ev : Event) (st : State) : result State :=
  match ev with
  | EffectOpen audio_ok => Ok (startSession audio_ok st)
  | UserMedia granted => Ok (startSession_resume granted st)
  | SessionOpen =>
      match callbacks (heap st) with
      | Some env => Ok (reported (onOpen env st))
      | None => Ok st
      end
  | SessionSettled promise fulfilled => Ok (settle promise fulfilled st)
  | SessionMessage message currentTime =>
      match callbacks (heap st) with
      | Some _ => handleServerMessage message currentTime st
      | None => Ok st
      end
  | SessionClosed =>
      match callbacks (heap st) with
      | Some _ => Ok (setStatus disconnected st)
      | None => Ok st
      end
  | SessionError =>
      match callbacks (heap st) with
      | Some _ => Ok (perform ConsoleError (setStatus error st))
      | None => Ok st
      end
  | AudioProcess inputData =>
      match onaudioprocess (heap st) with
      | Some cb =>
          if context_closed (cb_ctx cb) st then Ok st
          else audioprocess cb inputData st
      | None => Ok st
      end
  | SourceEnded source =>
      Ok (onended source (node_finished source st))
  | MuteClicked => Ok (toggleMute st)
  | EffectCleanup => cleanup st
  | EarlierUserMedia k granted => Ok (startSession_resume_earlier k granted st)
  | EarlierSessionOpen k =>
      match earlierCallbacks (heap st) !! k with
      | Some env => Ok (reported (onOpen env st))
      | None => Ok st
      end
  | EarlierAudioProcess k inputData =>
      match earlierProcessors (heap st) !! k with
      | Some cb =>
          if context_closed (cb_ctx cb) st then Ok st
          else audioprocess cb inputData st
      | None => Ok st
      end
  end.

(** An event: its callback, then the microtasks. *)
Definition step (ev : Event) (st : State) : result State :=
  let* st := handle ev st in
  Ok (microtasks st).

Fixpoint run (evs : list Event) (st : State) : result State :=
  match evs with
  | [] => Ok st
  | ev :: evs' => let* st' := step ev st in run evs' st'
  end.

End WithPlatform.

(** The media sent so far, oldest first. *)
Definition sent (st : State) : list PcmBlob :=
  flat_map (fun e => match e with SendRealtimeInput _ m => [m] | _ => [] end)
           (effects (heap st)).

(** The exceptions that escaped a callback so far, oldest first. *)
Definition uncaught (st : State) : list exn :=
  flat_map (fun e => match e with Uncaught x => [x] | _ => [] end) (effects (heap st)).

(** The mean of the squares of the samples of a block that is not empty. *)
Definition mean_square (inputData : list Q) : Q :=
  (fold_left (fun sum x => sum + x * x) inputData 0 /
   inject_Z (Z.of_nat (length inputData)))%Q.

(** The start time a node was scheduled at, if it was started. *)
Definition started_at (st : State) (id : nat) : option Q :=
  match nodes (heap st) !! id with
  | Some n => match node_state n with Scheduled when => Some when | _ => None end
  | None => None
  end.

(** A node that is producing sound or waiting for its start time. *)
Definition playing (st : State) (id : nat) : bool :=
  match started_at st id with Some _ => true | None => false end.

(** The start time [playAudioChunk] picks for a cursor and a current time. *)
Definition start_time (cursor currentTime : Q) : Q :=
  if negb (Qle_bool currentTime cursor) then currentTime else cursor.

(** Events that neither enqueue a chunk nor flush or restart playback. *)
Definition keeps_schedule (ev : Event) : bool :=
  match ev with
  | EffectOpen _ | EffectCleanup => false
  | SessionMessage message _ =>
      negb (interrupted message) &&
      match inlineData message with Some (_ :: _) => false | _ => true end
  | _ => true
  end.

(** No [start] among these calls was given a time before [currentTime]. *)
Definition starts_not_before (currentTime : Q) (calls : list Effect) : Prop :=
  forall id t, In (NodeStart id t) calls -> (currentTime <= t)%Q.

(** An engine on which a second [stop()] throws and no call into the audio
    graph is refused, for the examples. *)
Definition strict_engine : Platform :=
  {| stop_again_throws := true; graph_error := fun _ _ => None |}.

(** An engine that cannot join the microphone stream to the input context. *)
Definition no_source_engine : Platform :=
  {| stop_again_throws := false;
     graph_error := fun call _ =>
       match call with
       | CreateMediaStreamSource => Some NotSupportedError
       | _ => None
       end |}.

(** The events that bring a mounted component to a connected session: the
    effect runs, the microphone is granted, the connection opens and the
    session promise (object 4) is fulfilled. *)
Definition connect_events : list Event :=
  [EffectOpen true; UserMedia true; SessionOpen; SessionSettled 4 true].

(** A component whose session is connected. *)
Definition connected_session : State :=
  match run strict_engine connect_events initial with
  | Ok st => st
  | Throw _ => initial
  end.

(** A message that carries one silent frame (the text [AAA=]). *)
Definition one_frame : Message :=
  {| inlineData := Some [65; 65; 65; 61]; interrupted := false |}.

(** A message that only signals an interruption. *)
Definition interruption : Message :=
  {| inlineData := None; interrupted := true |}.

End Voice.

(** ** Playback over whole runs *)

Module Schedule.
Import Codec Voice.

(** The active set holds each node once, and holds exactly the nodes that
    were started and have neither ended nor been stopped. *)
Definition active_is_playing (st : State) : Prop :=
  List.NoDup (activeSourcesRef (refs st)) /\
  forall id, In id (activeSourcesRef (refs st)) <-> playing st id = true.

(** Chunks that decoded, each with the clock read when it is scheduled,
    enqueued one after the other. *)
Definition enqueue_all (chunks : list (AudioBuffer * Q)) (st : State) : State :=
  fold_left (fun st c => playAudioChunk_schedule (fst c) (snd c) st) chunks st.

(** The start times a run of chunks gets from a cursor. *)
Fixpoint start_times (cursor : Q) (chunks : list (AudioBuffer * Q)) : list Q :=
  match chunks with
  | [] => []
  | (buf, now) :: rest =>
      let t := start_time cursor now in
      t :: start_times (t + duration buf) rest
  end.

End Schedule.

(** ** geminiService.ts, App.tsx, SettingsPanel.tsx: chat, image and speech requests *)

(** The code units of an ASCII literal. *)
Definition js (s : String.string) : list Z :=
  map (fun a => Z.of_nat (Ascii.nat_of_ascii a)) (String.list_ascii_of_string s).
Arguments js s%_string_scope.

Module Chat.
Import Codec.

(** *** types.ts *)

Inductive ModelType : Type := FLASH | PRO | IMAGE_GEN.
Inductive MessageRole : Type := USER | MODEL | SYSTEM.

Record Attachment : Type :=
  { mimeType : list Z; data : list Z; previewUrl : list Z }.

(** Optional fields are [option]s: [None] is [undefined]. *)
Record ChatMessage : Type :=
  { id : list Z;
    role : MessageRole;
    text : list Z;
    attachments : option (list Attachment);
    timestamp : Z;
    isError : option bool;
    isThinking : option bool }.

Record AppSettings : Type :=
  { model : ModelType;
    enableThinking : bool;
    thinkingBudget : Z;
    enableTTS : bool;
    systemInstruction : list Z }.

(** *** constants.ts *)

Definition DEFAULT_THINKING_BUDGET : Z := 4096.

Definition INITIAL_SETTINGS : AppSettings :=
  {| model := FLASH; enableThinking := false; thinkingBudget := 0; enableTTS := false;
     systemInstruction :=
       js "You are Nova, an advanced AI assistant. You are helpful, precise, and creative. Use Markdown for formatting." |}.

(** *** What goes to and comes from the SDK *)

Inductive Part : Type :=
| InlineData (mimeType data : list Z)
| Text (text : list Z).

Record Content : Type := { c_role : MessageRole; c_parts : list Part }.

(** The [message] of [sendMessage]: a string or an array of parts. *)
Inductive MessageArg : Type :=
| PlainString (s : list Z)
| Parts (ps : list Part).

Record ChatRequest : Type :=
  { r_model : ModelType;
    r_history : list Content;
    r_systemInstruction : list Z;
    r_thinkingConfig : option Z;       (* [{ thinkingBudget }] or [undefined] *)
    r_message : MessageArg }.

(** A thrown value: a [TypeError] of the engine, an [Error] with its
    message, an error of the SDK, or an exception of the audio helpers. *)
Inductive failure : Type :=
| TypeError
| ErrorMessage (message : list Z)
| SdkError (message : list Z)
| Helper (e : exn).

Inductive outcome (A : Type) : Type :=
| Returned (a : A)
| Failed (f : failure).
Arguments Returned {A} a.
Arguments Failed {A} f.

(** JavaScript truthiness of an optional boolean and of a string. *)
Definition truthy (b : option bool) : bool :=
  match b with Some true => true | _ => false end.
Definition nonempty (s : list Z) : bool :=
  match s with [] => false | _ => true end.

(** *** geminiService.ts: sendMessageToGemini *)

Definition inline_part (a : Attachment) : Part := InlineData (mimeType a) (data a).

(** The history in the format the SDK expects. *)
Definition pastHistory (history : list ChatMessage) : list Content :=
  map (fun m =>
         {| c_role := role m;
            c_parts :=
              match attachments m with
              | Some (a :: atts) => map inline_part (a :: atts) ++ [Text (text m)]
              | _ => [Text (text m)]
              end |})
      (List.filter (fun m => negb (truthy (isError m)) && negb (truthy (isThinking m)))
                   history).

(** [newParts] after the [forEach] and the final [push]. *)
Definition newParts (currentMessage : list Z) (atts : list Attachment) : list Part :=
  let newParts := [] in
  let newParts :=
    if (0 <? length atts)%nat
    then fold_left (fun newParts att => newParts ++ [inline_part att]) atts newParts
    else newParts in
  newParts ++ [Text currentMessage].

(** The arguments of [ai.chats.create] and of [chatSession.sendMessage]. *)
Definition chat_request (history : list ChatMessage) (currentMessage : list Z)
    (atts : list Attachment) (settings : AppSettings) : ChatRequest :=
  let thinkingConfig :=
    if enableThinking settings && (0 <? thinkingBudget settings)
    then Some (thinkingBudget settings) else None in
  let parts := newParts currentMessage atts in
  {| r_model := model settings;
     r_history := pastHistory history;
     r_systemInstruction := systemInstruction settings;
     r_thinkingConfig := thinkingConfig;
     r_message :=
       if (length parts =? 1)%nat && negb (0 <? length atts)%nat
       then PlainString currentMessage else Parts parts |}.

(** [sendMessageToGemini]; [sdk] is the remote chat: it answers with
    [result.text], which may be undefined, or throws. *)
Definition sendMessageToGemini (sdk : ChatRequest -> outcome (option (list Z)))
    (history : list ChatMessage) (currentMessage : list Z)
    (atts : list Attachment) (settings : AppSettings) : outcome (list Z) :=
  match sdk (chat_request history currentMessage atts settings) with
  | Returned (Some t) => Returned t     (* [result.text || ""] *)
  | Returned None => Returned []
  | Failed f => Failed f
  end.

(** *** geminiService.ts: generateImageWithGemini *)

Record RBlob : Type := { b_mimeType : option (list Z); b_data : option (list Z) }.
Record RPart : Type := { p_inlineData : option RBlob; p_text : option (list Z) }.
Record RContent : Type := { parts : option (list RPart) }.
Record Candidate : Type := { content : option RContent }.
Record Response : Type := { candidates : option (list Candidate) }.

(** A value inside a template literal. *)
Definition interpolate (s : option (list Z)) : list Z :=
  match s with Some s => s | None => js "undefined" end.

Definition data_url (b : RBlob) : list Z :=
  js "data:" ++ interpolate (b_mimeType b) ++ js ";base64," ++ interpolate (b_data b).

(** The body of the [for ... of] loop, on the pair [(imageUrl, caption)]. *)
Definition scan_part (acc : list Z * list Z) (part : RPart) : list Z * list Z :=
  match p_inlineData part with
  | Some b => (data_url b, snd acc)
  | None =>
      match p_text part with
      | Some (c :: t) => (fst acc, c :: t)
      | _ => acc
      end
  end.

Definition no_image : list Z := js "No image data received from the model.".

(** [generateImageWithGemini] from the response on. *)
Definition image_of_response (response : Response) : outcome (list Z * list Z) :=
  let scanned :=
    match candidates response with
    | None => Returned ([], [])
    | Some [] => Failed TypeError            (* [candidates[0]] is undefined *)
    | Some (c :: _) =>
        match content c with
        | None => Failed TypeError           (* [content] is undefined *)
        | Some ct =>
            match parts ct with
            | None => Returned ([], [])
            | Some ps => Returned (fold_left scan_part ps ([], []))
            end
        end
    end in
  match scanned with
  | Failed f => Failed f
  | Returned (imageUrl, caption) =>
      if nonempty imageUrl then Returned (imageUrl, caption)
      else Failed (ErrorMessage no_image)
  end.

Definition generateImageWithGemini (sdk : list Z -> list Z -> outcome Response)
    (prompt aspectRatio : list Z) : outcome (list Z * list Z) :=
  match sdk prompt aspectRatio with
  | Returned response => image_of_response response
  | Failed f => Failed f
  end.

(** *** geminiService.ts: generateSpeech *)

Definition no_audio : list Z := js "No audio data returned".

(** [response.candidates?.[0]?.content?.parts?.[0]?.inlineData?.data] *)
Definition first_inline_data (response : Response) : option (list Z) :=
  match candidates response with
  | Some (c :: _) =>
      match content c with
      | Some ct =>
          match parts ct with
          | Some (p :: _) =>
              match p_inlineData p with
              | Some b => b_data b
              | None => None
              end
          | _ => None
          end
      | None => None
      end
  | _ => None
  end.

Definition generateSpeech (sdk : list Z -> outcome Response) (text : list Z)
  : outcome (list byte) :=
  match sdk text with
  | Failed f => Failed f
  | Returned response =>
      match first_inline_data response with
      | Some (c :: base64Audio) =>
          match base64ToArrayBuffer (c :: base64Audio) with
          | Ok bytes => Returned bytes
          | Throw e => Failed (Helper e)
          end
      | _ => Failed (ErrorMessage no_audio)
      end
  end.

(** *** App.tsx: removeAttachment *)

(** [xs.filter((x, i) => f(x, i))] from index [i] on. *)
Fixpoint filter_indexed {A} (f : A -> nat -> bool) (i : nat) (xs : list A) : list A :=
  match xs with
  | [] => []
  | x :: xs' =>
      if f x i then x :: filter_indexed f (S i) xs' else filter_indexed f (S i) xs'
  end.

Definition removeAttachment (index : nat) (prev : list Attachment) : list Attachment :=
  filter_indexed (fun _ i => negb (Nat.eqb i index)) 0 prev.

(** *** SettingsPanel.tsx *)

Definition toggleThinking (settings : AppSettings) : AppSettings :=
  {| model := model settings;
     enableThinking := negb (enableThinking settings);
     thinkingBudget :=
       if negb (enableThinking settings) then DEFAULT_THINKING_BUDGET else 0;
     enableTTS := enableTTS settings;
     systemInstruction := systemInstruction settings |}.

(** [handleBudgetChange], with the integer the slider holds. *)
Definition handleBudgetChange (value : Z) (settings : AppSettings) : AppSettings :=
  {| model := model settings;
     enableThinking := enableThinking settings;
     thinkingBudget := value;
     enableTTS := enableTTS settings;
     systemInstruction := systemInstruction settings |}.

(** Readings of a part list used in the statements. *)

(** The blobs of the parts that have inline data, in order. *)
Definition inline_blobs (ps : list RPart) : list RBlob :=
  flat_map (fun p => match p_inlineData p with Some b => [b] | None => [] end) ps.

(** The texts that are not empty of the parts without inline data, in order. *)
Definition captions (ps : list RPart) : list (list Z) :=
  flat_map (fun p => match p_inlineData p, p_text p with
                     | None, Some (c :: t) => [c :: t]
                     | _, _ => []
                     end) ps.

(** A response whose first candidate has the parts [ps]. *)
Definition response_with (ps : list RPart) (others : list Candidate) : Response :=
  {| candidates := Some ({| content := Some {| parts := Some ps |} |} :: others) |}.

(** The messages that are sent as history. *)
Definition sent_as_history (history : list ChatMessage) : list ChatMessage :=
  List.filter (fun m => negb (truthy (isError m)) && negb (truthy (isThinking m)))
              history.

End Chat.

(** * Properties *)

(** ** Loops over typed arrays *)

Section Loops.
Context {A : Type}.

(** A loop that writes [f i] at every index [i] of its range leaves the
    prefix alone and fills the range with [f]. *)
Lemma for_loop_fill (f : nat -> A) (n i : nat) (a : list A) :
  length a = (i + n)%nat ->
  for_loop n i (fun j a => <[j := f j]> a) a = take i a ++ map f (seq i n).
Proof.
  revert i a. induction n as [|n IH]; intros i a Hlen; simpl.
  - rewrite take_ge by lia. now rewrite app_nil_r.
  - rewrite IH by (rewrite length_insert; lia).
    rewrite (take_S_r _ i (f i)).
    + rewrite take_insert_ge by lia. now rewrite <- app_assoc.
    + apply list_lookup_insert_eq. lia.
Qed.

(** A loop that appends [f i] for every index of its range. *)
Lemma for_loop_append (f : nat -> A) (n i : nat) (s : list A) :
  for_loop n i (fun j s => s ++ [f j]) s = s ++ map f (seq i n).
Proof.
  revert i s. induction n as [|n IH]; intros i s; simpl.
  - now rewrite app_nil_r.
  - rewrite IH. now rewrite <- app_assoc.
Qed.

(** A loop that folds the elements of an array into an accumulator. *)
Lemma for_loop_fold `{!Inhabited B} (g : A -> B -> A) (l pre : list B) (acc : A) :
  for_loop (length l) (length pre) (fun j s => g s ((pre ++ l) !!! j)) acc =
  fold_left g l acc.
Proof.
  revert pre acc. induction l as [|x l IH]; intros pre acc; [reflexivity|].
  cbn [length for_loop fold_left].
  rewrite list_lookup_total_middle by reflexivity.
  replace (pre ++ x :: l) with ((pre ++ [x]) ++ l) by now rewrite <- app_assoc.
  replace (S (length pre)) with (length (pre ++ [x]))
    by (rewrite length_app; cbn; lia).
  apply IH.
Qed.

Lemma map_lookup_total_seq `{!Inhabited B} (g : B -> A) (l : list B) :
  map (fun i => g (l !!! i)) (seq 0 (length l)) = map g l.
Proof.
  induction l as [|x l IH] using rev_ind; [reflexivity|].
  rewrite length_app. simpl length. rewrite Nat.add_1_r, seq_S, !map_app. simpl.
  rewrite list_lookup_total_middle by reflexivity. f_equal.
  rewrite <- IH. apply map_ext_in. intros i Hi. apply in_seq in Hi.
  now rewrite lookup_total_app_l by lia.
Qed.
End Loops.

(** ** Bytes *)

Lemma byte_to_Z_range (b : byte) : 0 <= byte_to_Z b < 256.
Proof.
  unfold byte_to_Z. pose proof (Byte.to_N_bounded b). lia.
Qed.

Lemma Z_to_byte_to_Z (b : byte) : Z_to_byte (byte_to_Z b) = b.
Proof.
  unfold Z_to_byte. pose proof (byte_to_Z_range b) as Hb.
  rewrite Z.mod_small by exact Hb. unfold byte_to_Z.
  now rewrite N2Z.id, Byte.of_to_N.
Qed.

Lemma byte_to_Z_to_byte (z : Z) : byte_to_Z (Z_to_byte z) = z mod 256.
Proof.
  unfold Z_to_byte, byte_to_Z.
  pose proof (Z.mod_pos_bound z 256 ltac:(lia)) as Hm.
  pose proof (Byte.to_of_N_option_map (Z.to_N (z mod 256))) as Ho.
  destruct (Byte.of_N (Z.to_N (z mod 256))) as [b|] eqn:E; simpl in Ho.
  - apply Byte.to_of_N in E. rewrite E. lia.
  - destruct (N.leb_spec (Z.to_N (z mod 256)) 255); [discriminate | lia].
Qed.

(** ** The loops of the codec are maps *)

Module CodecLoops.
Import Codec.

Lemma floatToInt16_map (data : list Q) :
  floatToInt16 data = map (fun x => ToInt16 (scale_sample x)) data.
Proof.
  unfold floatToInt16.
  rewrite (for_loop_fill (fun i => ToInt16 (scale_sample (data !!! i))))
    by (rewrite length_replicate; lia).
  rewrite take_0. simpl. apply (map_lookup_total_seq (fun x => ToInt16 (scale_sample x))).
Qed.

Lemma arrayBufferToBase64_btoa (buffer : list byte) :
  arrayBufferToBase64 buffer = btoa (map byte_to_Z buffer).
Proof.
  unfold arrayBufferToBase64, String_fromCharCode.
  rewrite (for_loop_append (fun i => byte_to_Z (buffer !!! i))). simpl.
  now rewrite (map_lookup_total_seq byte_to_Z).
Qed.

Lemma base64ToArrayBuffer_atob (base64 : list Z) :
  base64ToArrayBuffer base64 =
  let* binaryString := atob base64 in Ok (map Z_to_byte binaryString).
Proof.
  unfold base64ToArrayBuffer. destruct (atob base64) as [s|e]; simpl; [|reflexivity].
  rewrite (for_loop_fill (fun i => Z_to_byte (s !!! i)))
    by (rewrite length_replicate; lia).
  rewrite take_0. simpl. now rewrite (map_lookup_total_seq Z_to_byte).
Qed.

Lemma decodeRawPcm_map (arrayBuffer : list byte) :
  decodeRawPcm arrayBuffer =
  let* dataInt16 := new_Int16Array arrayBuffer in
  if (length dataInt16 =? 0)%nat then Throw NotSupportedError
  else Ok {| channelData := map (fun v => (inject_Z v / 32768)%Q) dataInt16;
             sampleRate := 24000 |}.
Proof.
  unfold decodeRawPcm. destruct (new_Int16Array arrayBuffer) as [d|e]; simpl; [|reflexivity].
  unfold createBuffer. destruct (length d =? 0)%nat; simpl; [reflexivity|].
  rewrite (for_loop_fill (fun i => (inject_Z (d !!! i) / 32768)%Q))
    by (rewrite length_replicate; lia).
  rewrite take_0. simpl.
  now rewrite (map_lookup_total_seq (fun v => (inject_Z v / 32768)%Q)).
Qed.

End CodecLoops.

(** ** Base64: [atob] undoes [btoa] *)

Module Base64Facts.
Import Codec CodecSpec.

Lemma list_ind3 {A} (P : list A -> Prop) :
  P [] -> (forall a, P [a]) -> (forall a b, P [a; b]) ->
  (forall a b c l, P l -> P (a :: b :: c :: l)) -> forall l, P l.
Proof.
  intros H0 H1 H2 H3. fix IH 1.
  intros [|a [|b [|c l]]]; [exact H0 | apply H1 | apply H2 | apply H3, IH].
Qed.

Ltac sextet_cases n H :=
  let k := fresh "k" in
  let E := fresh "E" in
  assert (E : exists k : nat, (k < 64)%nat /\ n = Z.of_nat k)
    by (exists (Z.to_nat n); lia);
  destruct E as [k [E ->]]; clear H;
  do 64 (destruct k as [|k]; [reflexivity|]); lia.

Lemma b64_index_char n : 0 <= n < 64 -> b64_index (b64_char n) = Some n.
Proof. intros H. sextet_cases n H. Qed.

Lemma b64_char_not_ws n : 0 <= n < 64 -> is_ascii_whitespace (b64_char n) = false.
Proof. intros H. sextet_cases n H. Qed.

Lemma b64_char_not_pad n : 0 <= n < 64 -> (b64_char n =? pad_char) = false.
Proof. intros H. sextet_cases n H. Qed.

Lemma b64_encode_split bs :
  b64_encode bs = map b64_char (b64_body bs) ++ b64_padding bs.
Proof.
  induction bs as [|a|a b|a b c l IH] using list_ind3; try reflexivity.
  cbn [b64_encode b64_body map app]. rewrite IH. do 4 f_equal.
  unfold b64_padding. cbn [length].
  replace (S (S (S (length l)))) with (length l + 1 * 3)%nat by lia.
  now rewrite Nat.Div0.mod_add.
Qed.

Lemma b64_body_range bs :
  Forall (fun b => 0 <= b < 256) bs -> Forall (fun s => 0 <= s < 64) (b64_body bs).
Proof.
  induction bs as [|a|a b|a b c l IH] using list_ind3; intros H; cbn [b64_body].
  - constructor.
  - inversion_clear H. repeat constructor; Z.div_mod_to_equations; lia.
  - inversion_clear H as [|? ? Ha H']. inversion_clear H' as [|? ? Hb _].
    repeat constructor; Z.div_mod_to_equations; lia.
  - inversion_clear H as [|? ? Ha H']. inversion_clear H' as [|? ? Hb H''].
    inversion_clear H'' as [|? ? Hc Hl].
    repeat (constructor; [Z.div_mod_to_equations; lia|]). auto.
Qed.

Lemma b64_decode_body bs :
  Forall (fun b => 0 <= b < 256) bs -> b64_decode (b64_body bs) = bs.
Proof.
  induction bs as [|a|a b|a b c l IH] using list_ind3; intros H; cbn [b64_body b64_decode].
  - reflexivity.
  - inversion_clear H. f_equal. Z.div_mod_to_equations; lia.
  - inversion_clear H as [|? ? Ha H']. inversion_clear H' as [|? ? Hb _].
    f_equal; [|f_equal]; Z.div_mod_to_equations; lia.
  - inversion_clear H as [|? ? Ha H']. inversion_clear H' as [|? ? Hb H''].
    inversion_clear H'' as [|? ? Hc Hl].
    rewrite IH by assumption.
    f_equal; [|f_equal; [|f_equal]]; Z.div_mod_to_equations; lia.
Qed.

Lemma b64_body_length bs :
  exists k r, length (b64_body bs) = (r + k * 4)%nat /\
    (r = 0 \/ r = 2 \/ r = 3)%nat /\
    b64_padding bs = repeat pad_char ((4 - r) mod 4).
Proof.
  induction bs as [|a|a b|a b c l IH] using list_ind3.
  - exists 0%nat, 0%nat. auto.
  - exists 0%nat, 2%nat. auto.
  - exists 0%nat, 3%nat. auto 6.
  - destruct IH as (k & r & Hlen & Hr & Hpad). exists (S k), r.
    cbn [b64_body length]. rewrite Hlen. split; [lia|]. split; [exact Hr|].
    rewrite <- Hpad. unfold b64_padding. cbn [length].
    replace (S (S (S (length l)))) with (length l + 1 * 3)%nat by lia.
    now rewrite Nat.Div0.mod_add.
Qed.

Lemma sextets_map_char sx :
  Forall (fun s => 0 <= s < 64) sx -> sextets (map b64_char sx) = Some sx.
Proof.
  induction 1 as [|s sx Hs _ IH]; [reflexivity|].
  cbn [map sextets]. now rewrite b64_index_char, IH.
Qed.

Lemma filter_ws_map_char sx :
  Forall (fun s => 0 <= s < 64) sx ->
  List.filter (fun c => negb (is_ascii_whitespace c)) (map b64_char sx) = map b64_char sx.
Proof.
  induction 1 as [|s sx Hs _ IH]; [reflexivity|].
  cbn [map List.filter]. now rewrite b64_char_not_ws, IH.
Qed.

Lemma strip_padding_encoded sx n :
  Forall (fun s => 0 <= s < 64) sx -> (n <= 2)%nat ->
  strip_padding (map b64_char sx ++ repeat pad_char n) = map b64_char sx.
Proof.
  intros Hsx Hn. unfold strip_padding. rewrite rev_app_distr.
  assert (Hlast : forall c r, rev (map b64_char sx) = c :: r -> (c =? pad_char) = false).
  { intros c r E. assert (Hin : In c (rev (map b64_char sx))) by (rewrite E; now left).
    apply in_rev, in_map_iff in Hin. destruct Hin as (s & <- & Hin).
    apply b64_char_not_pad. rewrite Forall_forall in Hsx. apply Hsx.
    now apply list_elem_of_In. }
  destruct n as [|[|[|n]]]; [| | |lia]; cbn [repeat rev app].
  - rewrite app_nil_r. destruct (rev (map b64_char sx)) as [|c r] eqn:E; [reflexivity|].
    now rewrite (Hlast c r eq_refl).
  - rewrite Z.eqb_refl. destruct (rev (map b64_char sx)) as [|c r] eqn:E.
    + apply (f_equal (@rev Z)) in E. now rewrite rev_involutive in E.
    + rewrite (Hlast c r eq_refl). rewrite <- E. apply rev_involutive.
  - rewrite !Z.eqb_refl. apply rev_involutive.
Qed.

Lemma atob_b64_encode bs :
  Forall (fun b => 0 <= b < 256) bs -> atob (b64_encode bs) = Ok bs.
Proof.
  intros Hbs. pose proof (b64_body_range bs Hbs) as Hsx.
  destruct (b64_body_length bs) as (k & r & Hlen & Hr & Hpad).
  unfold atob. rewrite b64_encode_split, Hpad.
  rewrite List.filter_app, filter_ws_map_char by assumption.
  assert (Hf : List.filter (fun c => negb (is_ascii_whitespace c))
                 (repeat pad_char ((4 - r) mod 4)) = repeat pad_char ((4 - r) mod 4)).
  { destruct Hr as [-> | [-> | ->]]; reflexivity. }
  rewrite Hf.
  assert (H4 : (length (map b64_char (b64_body bs) ++ repeat pad_char ((4 - r) mod 4))
                  mod 4 = 0)%nat).
  { rewrite length_app, length_map, repeat_length, Hlen.
    destruct Hr as [-> | [-> | ->]].
    - change ((4 - 0) mod 4)%nat with 0%nat.
      replace (0 + k * 4 + 0)%nat with (0 + k * 4)%nat by lia.
      now rewrite Nat.Div0.mod_add.
    - change ((4 - 2) mod 4)%nat with 2%nat.
      replace (2 + k * 4 + 2)%nat with (0 + (k + 1) * 4)%nat by lia.
      now rewrite Nat.Div0.mod_add.
    - change ((4 - 3) mod 4)%nat with 1%nat.
      replace (3 + k * 4 + 1)%nat with (0 + (k + 1) * 4)%nat by lia.
      now rewrite Nat.Div0.mod_add. }
  rewrite H4. cbn [Nat.eqb].
  rewrite strip_padding_encoded by (assumption || (destruct Hr as [-> | [-> | ->]]; cbn; lia)).
  rewrite length_map, Hlen, Nat.Div0.mod_add.
  assert (Hr1 : (r mod 4 =? 1)%nat = false) by (destruct Hr as [-> | [-> | ->]]; reflexivity).
  rewrite Hr1, sextets_map_char by assumption.
  now rewrite b64_decode_body.
Qed.

Lemma btoa_bytes (bs : list byte) :
  btoa (map byte_to_Z bs) = Ok (b64_encode (map byte_to_Z bs)).
Proof.
  unfold btoa.
  assert (H : forallb (fun c => (0 <=? c) && (c <=? 255)) (map byte_to_Z bs) = true).
  { apply forallb_forall. intros c Hc. apply in_map_iff in Hc.
    destruct Hc as (b & <- & _). pose proof (byte_to_Z_range b).
    apply andb_true_iff. split; apply Z.leb_le; lia. }
  now rewrite H.
Qed.

Lemma bytes_in_range (bs : list byte) :
  Forall (fun b => 0 <= b < 256) (map byte_to_Z bs).
Proof.
  apply Forall_forall. intros c Hc. apply list_elem_of_In, in_map_iff in Hc.
  destruct Hc as (b & <- & _). apply byte_to_Z_range.
Qed.

Lemma map_Z_to_byte_to_Z (bs : list byte) : map Z_to_byte (map byte_to_Z bs) = bs.
Proof.
  induction bs as [|b bs IH]; [reflexivity|]. simpl. now rewrite Z_to_byte_to_Z, IH.
Qed.

Lemma base64ToArrayBuffer_encoded (bs : list byte) :
  base64ToArrayBuffer (b64_encode (map byte_to_Z bs)) = Ok bs.
Proof.
  rewrite CodecLoops.base64ToArrayBuffer_atob, atob_b64_encode by apply bytes_in_range.
  cbn [rbind]. now rewrite map_Z_to_byte_to_Z.
Qed.

End Base64Facts.

(** ** PCM16: what the encoder stores, and what the decoder reads back *)

Module PcmFacts.
Import Codec CodecSpec.

Lemma clamp_code x : Math_max (-1) (Math_min 1 x) = clamp x.
Proof.
  unfold Math_max, Math_min, clamp. destruct (Qle_bool 1 x); reflexivity.
Qed.

Lemma clamp_range x : (-1 <= clamp x <= 1)%Q.
Proof.
  unfold clamp. destruct (Qle_bool 1 x) eqn:E1; [split; discriminate|].
  destruct (Qle_bool x (-1)) eqn:E2; [split; discriminate|].
  split.
  - apply Qnot_lt_le. intros H. apply Qlt_le_weak, Qle_bool_iff in H. congruence.
  - apply Qnot_lt_le. intros H. apply Qlt_le_weak, Qle_bool_iff in H. congruence.
Qed.

Lemma truncate_scaled_range s :
  (-1 <= s <= 1)%Q ->
  -32768 <= truncate (if negb (Qle_bool 0 s) then s * 32768 else s * 32767)%Q <= 32767.
Proof.
  intros [Hlo Hhi]. destruct s as [n d]. unfold Qle in Hlo, Hhi. cbn in Hlo, Hhi.
  destruct (Qle_bool 0 (n # d)) eqn:E; cbn [negb].
  - apply Qle_bool_iff in E. unfold Qle in E. cbn in E.
    unfold truncate, Qmult. cbn [Qnum Qden]. rewrite Pos.mul_1_r.
    Z.quot_rem_to_equations. nia.
  - assert (Hn : n < 0).
    { destruct (Z_lt_le_dec n 0) as [|Hge]; [assumption|].
      assert (Qle_bool 0 (n # d) = true) by (apply Qle_bool_iff; unfold Qle; cbn; lia).
      congruence. }
    unfold truncate, Qmult. cbn [Qnum Qden]. rewrite Pos.mul_1_r.
    Z.quot_rem_to_equations. nia.
Qed.

Lemma ToInt16_in_range q :
  -32768 <= truncate q <= 32767 -> ToInt16 q = truncate q.
Proof.
  intros H. unfold ToInt16.
  destruct (Z.leb_spec 32768 (truncate q mod 65536));
    Z.div_mod_to_equations; lia.
Qed.

Lemma ToInt16_scale_sample x : ToInt16 (scale_sample x) = pcm16_of_sample x.
Proof.
  unfold scale_sample, pcm16_of_sample. rewrite clamp_code.
  apply ToInt16_in_range, truncate_scaled_range, clamp_range.
Qed.

Lemma pcm16_of_sample_range x : -32768 <= pcm16_of_sample x <= 32767.
Proof. apply truncate_scaled_range, clamp_range. Qed.

Lemma int16_of_bytes_int16_bytes v :
  -32768 <= v <= 32767 ->
  int16_of_bytes (Z_to_byte v) (Z_to_byte (v / 256)) = v.
Proof.
  intros H. unfold int16_of_bytes. rewrite !byte_to_Z_to_byte.
  destruct (Z.leb_spec 32768 (v mod 256 + 256 * ((v / 256) mod 256)));
    Z.div_mod_to_equations; lia.
Qed.

Lemma int16_view_buffer a :
  Forall (fun v => -32768 <= v <= 32767) a -> int16_view (Int16Array_buffer a) = a.
Proof.
  induction 1 as [|v a Hv _ IH]; [reflexivity|].
  cbn [Int16Array_buffer flat_map int16_bytes app int16_view].
  fold (Int16Array_buffer a). now rewrite IH, int16_of_bytes_int16_bytes.
Qed.

Lemma Int16Array_buffer_length a : length (Int16Array_buffer a) = (2 * length a)%nat.
Proof.
  induction a as [|v a IH]; [reflexivity|].
  unfold Int16Array_buffer in *. simpl. rewrite IH. lia.
Qed.

Lemma pcm16_sample_error x :
  (-1 <= x <= 1)%Q ->
  (Qabs (x - inject_Z (pcm16_of_sample x) / 32768) < 1 # 16384)%Q /\
  ((x <= 0)%Q -> (Qabs (x - inject_Z (pcm16_of_sample x) / 32768) < 1 # 32768)%Q).
Proof.
  intros [Hlo Hhi]. unfold pcm16_of_sample, clamp.
  destruct x as [n d].
  destruct (Qle_bool 1 (n # d)) eqn:E1.
  { replace (truncate _) with 32767 by reflexivity.
    apply Qle_bool_iff in E1. unfold Qle in *. cbn in *.
    split; [|intros H0; unfold Qle in H0; cbn in H0];
      unfold Qlt; cbn; rewrite ?Pos.mul_1_l, ?Pos2Z.inj_mul; lia. }
  destruct (Qle_bool (n # d) (-1)) eqn:E2.
  { replace (truncate _) with (-32768) by reflexivity.
    apply Qle_bool_iff in E2. unfold Qle in *. cbn in *.
    split; [|intros H0; unfold Qle in H0; cbn in H0];
      unfold Qlt; cbn; rewrite ?Pos.mul_1_l, ?Pos2Z.inj_mul; lia. }
  clear E1 E2.
  destruct (Qle_bool 0 (n # d)) eqn:E; cbn [negb].
  - apply Qle_bool_iff in E. unfold Qle in *. cbn in Hlo, Hhi, E.
    unfold truncate, Qmult. cbn [Qnum Qden]. rewrite Pos.mul_1_r.
    split; [|intros H0; unfold Qle in H0; cbn in H0];
      unfold Qlt; cbn; rewrite ?Pos.mul_1_l, ?Pos2Z.inj_mul;
      Z.quot_rem_to_equations; nia.
  - assert (Hn : n < 0).
    { destruct (Z_lt_le_dec n 0) as [|Hge]; [assumption|].
      assert (Qle_bool 0 (n # d) = true) by (apply Qle_bool_iff; unfold Qle; cbn; lia).
      congruence. }
    unfold Qle in *. cbn in Hlo, Hhi.
    unfold truncate, Qmult. cbn [Qnum Qden]. rewrite Pos.mul_1_r.
    split; [|intros H0; unfold Qle in H0; cbn in H0];
      unfold Qlt; cbn; rewrite ?Pos.mul_1_l, ?Pos2Z.inj_mul;
      Z.quot_rem_to_equations; nia.
Qed.

Lemma Z_to_byte_mod (z : Z) : Z_to_byte (z mod 256) = Z_to_byte z.
Proof. unfold Z_to_byte. now rewrite Z.mod_mod by lia. Qed.

Lemma int16_bytes_le16 (v : Z) : int16_bytes v = le16 v.
Proof.
  unfold int16_bytes, le16. f_equal; [|f_equal].
  - rewrite <- (Z_to_byte_mod v), <- (Z_to_byte_mod (_ mod 256)). f_equal.
    Z.div_mod_to_equations; lia.
  - rewrite <- (Z_to_byte_mod (v / 256)), <- (Z_to_byte_mod (_ / 256)). f_equal.
    Z.div_mod_to_equations; lia.
Qed.

Lemma createPcmBlob_buffer (data : list Q) :
  Int16Array_buffer (floatToInt16 data) = floatTo16BitPCM data.
Proof.
  rewrite CodecLoops.floatToInt16_map. unfold Int16Array_buffer, floatTo16BitPCM.
  induction data as [|x data IH]; [reflexivity|].
  cbn [map flat_map]. now rewrite IH, ToInt16_scale_sample, int16_bytes_le16.
Qed.

Lemma floatToInt16_range (data : list Q) :
  Forall (fun v => -32768 <= v <= 32767) (floatToInt16 data).
Proof.
  rewrite CodecLoops.floatToInt16_map. apply Forall_forall. intros v Hv.
  apply list_elem_of_In, in_map_iff in Hv. destruct Hv as (x & <- & _).
  rewrite ToInt16_scale_sample. apply pcm16_of_sample_range.
Qed.

Lemma createPcmBlob_value (data : list Q) :
  createPcmBlob data =
    Ok {| blob_data := b64_encode (map byte_to_Z (floatTo16BitPCM data));
          blob_mimeType := pcm_mime |}.
Proof.
  unfold createPcmBlob.
  rewrite createPcmBlob_buffer, CodecLoops.arrayBufferToBase64_btoa.
  now rewrite Base64Facts.btoa_bytes.
Qed.

End PcmFacts.

(** ** The codec claims *)

Module CodecClaims.
Import Codec CodecSpec.

(** C9. For every byte sequence [b], decoding the text that
    [arrayBufferToBase64] produces for [b] with [base64ToArrayBuffer] gives
    back exactly [b]: the encoder does not throw, and nothing is lost. *)
Theorem base64_round_trip (b : list byte) :
  exists text, arrayBufferToBase64 b = Ok text /\ base64ToArrayBuffer text = Ok b.
Proof.
  exists (b64_encode (map byte_to_Z b)). split.
  - rewrite CodecLoops.arrayBufferToBase64_btoa. apply Base64Facts.btoa_bytes.
  - apply Base64Facts.base64ToArrayBuffer_encoded.
Qed.

(** C7. For every input block, the bytes under the [Int16Array] that
    [createPcmBlob] fills are those of the spec's encoder: each sample is
    clamped to [-1, 1], a negative value is multiplied by 32768 and a
    non-negative one by 32767, the product is truncated to an integer that
    fits 16 signed bits, and that integer is written low byte first.  There
    are exactly two bytes per sample, and the blob carries their base64
    text. *)
Theorem createPcmBlob_encodes_pcm16 (data : list Q) :
  Int16Array_buffer (floatToInt16 data) = floatTo16BitPCM data /\
  Forall (fun x => -32768 <= pcm16_of_sample x <= 32767) data /\
  length (floatTo16BitPCM data) = (2 * length data)%nat /\
  createPcmBlob data =
    Ok {| blob_data := b64_encode (map byte_to_Z (floatTo16BitPCM data));
          blob_mimeType := pcm_mime |}.
Proof.
  pose proof (PcmFacts.createPcmBlob_buffer data) as Hbuf.
  split; [exact Hbuf|]. split; [|split].
  - apply Forall_forall. intros x _. apply PcmFacts.pcm16_of_sample_range.
  - rewrite <- Hbuf, PcmFacts.Int16Array_buffer_length.
    rewrite CodecLoops.floatToInt16_map. now rewrite length_map.
  - apply PcmFacts.createPcmBlob_value.
Qed.

(** What [pcm_round_trip] returns on a block that is not empty. *)
Lemma pcm_round_trip_value (x : list Q) :
  x <> [] ->
  pcm_round_trip x =
    Ok {| channelData := map (fun s => (inject_Z (pcm16_of_sample s) / 32768)%Q) x;
          sampleRate := 24000 |}.
Proof.
  intros Hx. unfold pcm_round_trip, createPcmBlob.
  rewrite CodecLoops.arrayBufferToBase64_btoa, Base64Facts.btoa_bytes. cbn [rbind blob_data].
  rewrite Base64Facts.base64ToArrayBuffer_encoded. cbn [rbind].
  rewrite CodecLoops.decodeRawPcm_map. unfold new_Int16Array.
  rewrite PcmFacts.Int16Array_buffer_length.
  replace (Nat.even (2 * length (floatToInt16 x)))%nat with true
    by (symmetry; apply Nat.even_spec; now exists (length (floatToInt16 x))).
  cbn [rbind].
  rewrite PcmFacts.int16_view_buffer by apply PcmFacts.floatToInt16_range.
  rewrite CodecLoops.floatToInt16_map, length_map.
  destruct x as [|s x]; [congruence|]. cbn [length Nat.eqb].
  rewrite map_map. do 2 f_equal.
  apply map_ext. intros a. now rewrite PcmFacts.ToInt16_scale_sample.
Qed.

(** C4, as the code has it.  For every block [x] that is not empty and whose
    samples are in [-1, 1], encoding [x] and decoding the result gives a
    buffer of the same length; each decoded sample differs from the sample
    of [x] by less than 2/32768, and by less than 1/32768 where the sample
    of [x] is not positive. *)
Theorem pcm_round_trip_error (x : list Q) :
  x <> [] ->
  Forall (fun s => (-1 <= s <= 1)%Q) x ->
  exists buf,
    pcm_round_trip x = Ok buf /\
    length (channelData buf) = length x /\
    Forall2 (fun s y =>
               (Qabs (s - y) < 1 # 16384)%Q /\
               ((s <= 0)%Q -> (Qabs (s - y) < 1 # 32768)%Q))
            x (channelData buf).
Proof.
  intros Hx Hrange. eexists. split; [apply pcm_round_trip_value, Hx|].
  cbn [channelData]. split; [apply length_map|].
  clear Hx. induction Hrange as [|s x Hs _ IH]; cbn [map]; constructor.
  - apply PcmFacts.pcm16_sample_error, Hs.
  - exact IH.
Qed.

Lemma pcm_round_trip_error_witness :
  exists buf,
    pcm_round_trip [1 # 2; -1 # 4]%Q = Ok buf /\
    length (channelData buf) = 2%nat /\
    Forall2 (fun s y =>
               (Qabs (s - y) < 1 # 16384)%Q /\
               ((s <= 0)%Q -> (Qabs (s - y) < 1 # 32768)%Q))
            [1 # 2; -1 # 4]%Q (channelData buf).
Proof.
  apply (pcm_round_trip_error [1 # 2; -1 # 4]%Q).
  - discriminate.
  - repeat constructor; discriminate.
Defined.

(** C4 as stated fails: the sample 65535/65536 is stored as 32766 and read
    back as 32766/32768, which is 3/65536 away. *)
Lemma pcm_round_trip_exceeds_one_step :
  Forall (fun s => (-1 <= s <= 1)%Q) [65535 # 65536]%Q /\
  exists buf,
    pcm_round_trip [65535 # 65536]%Q = Ok buf /\
    ~ Forall2 (fun s y => (Qabs (s - y) <= 1 # 32768)%Q)
              [65535 # 65536]%Q (channelData buf).
Proof.
  split; [repeat constructor; discriminate|].
  eexists. split; [vm_compute; reflexivity|].
  intros H. inversion H as [|s y l l' Hsy _]; subst.
  vm_compute in Hsy. now apply Hsy.
Qed.

(** On an empty block the decoder throws: [createBuffer] refuses a length
    of zero. *)
Lemma pcm_round_trip_empty : CodecSpec.pcm_round_trip [] = Throw NotSupportedError.
Proof. reflexivity. Qed.

End CodecClaims.

(** ** The component: stopping, flushing, tearing down, scheduling *)

Module VoiceFacts.
Import Codec Voice.

(** The microtasks only make calls and take reactions off the queue. *)
Lemma microtasks_frame st :
  react (microtasks st) = react st /\
  refs (microtasks st) = refs st /\
  nodes (heap (microtasks st)) = nodes (heap st) /\
  onaudioprocess (heap (microtasks st)) = onaudioprocess (heap st) /\
  pendingStart (heap (microtasks st)) = pendingStart (heap st) /\
  callbacks (heap (microtasks st)) = callbacks (heap st) /\
  fresh (heap (microtasks st)) = fresh (heap st) /\
  settled (heap (microtasks st)) = settled (heap st).
Proof. repeat split. Qed.

Lemma microtasks_effects st :
  effects (heap (microtasks st)) =
    effects (heap st) ++ flat_map (reaction_calls st) (reactions (heap st)).
Proof. reflexivity. Qed.

Lemma step_after_handle pf ev st st' :
  handle pf ev st = Ok st' -> step pf ev st = Ok (microtasks st').
Proof. intros H. unfold step. now rewrite H. Qed.

Lemma playing_set_node_state_stopped st id j :
  playing (perform (NodeStop id) (set_node_state id Stopped st)) j =
  if Nat.eqb id j then false else playing st j.
Proof.
  unfold playing, started_at, perform, set_node_state, upd_heap. cbn.
  destruct (Nat.eqb_spec id j) as [->|Hne].
  - rewrite list_lookup_alter_eq. now destruct (nodes (heap st) !! j).
  - now rewrite list_lookup_alter_ne.
Qed.

Lemma try_stop_ok pf id st :
  exists st',
    try_stop pf id st = Ok st' /\
    refs st' = refs st /\ react st' = react st /\
    length (nodes (heap st')) = length (nodes (heap st)) /\
    playing st' id = false /\
    (forall j, playing st' j = true -> playing st j = true) /\
    (nodes (heap st) !! id = None -> st' = st).
Proof.
  unfold try_stop, source_stop.
  destruct (nodes (heap st) !! id) as [n|] eqn:E.
  2:{ exists st. cbn. unfold playing, started_at. rewrite E. auto 10. }
  assert (Hsame : playing st id = false ->
    exists st', Ok st = Ok st' /\ refs st' = refs st /\ react st' = react st /\
      length (nodes (heap st')) = length (nodes (heap st)) /\
      playing st' id = false /\
      (forall j, playing st' j = true -> playing st j = true) /\
      (Some n = None -> st' = st)).
  { intros H. exists st. auto 10. }
  destruct (node_state n) eqn:En; cbn.
  - apply Hsame. unfold playing, started_at. now rewrite E, En.
  - eexists. split; [reflexivity|]. split; [reflexivity|]. split; [reflexivity|].
    split; [cbn; apply length_alter|].
    split; [rewrite playing_set_node_state_stopped; now rewrite Nat.eqb_refl|].
    split; [|discriminate].
    intros j. rewrite playing_set_node_state_stopped.
    now destruct (Nat.eqb id j).
  - destruct (stop_again_throws pf); cbn;
      apply Hsame; unfold playing, started_at; now rewrite E, En.
  - destruct (stop_again_throws pf); cbn;
      apply Hsame; unfold playing, started_at; now rewrite E, En.
Qed.

Lemma forEach_try_stop pf ids st :
  exists st',
    forEach ids (try_stop pf) st = Ok st' /\
    refs st' = refs st /\ react st' = react st /\
    length (nodes (heap st')) = length (nodes (heap st)) /\
    (forall id, In id ids -> playing st' id = false) /\
    (forall j, playing st' j = true -> playing st j = true).
Proof.
  revert st. induction ids as [|id ids IH]; intros st.
  - exists st. cbn. intuition.
  - destruct (try_stop_ok pf id st) as (st1 & E1 & Hr1 & Hre1 & Hl1 & Hp1 & Hm1 & _).
    destruct (IH st1) as (st2 & E2 & Hr2 & Hre2 & Hl2 & Hp2 & Hm2).
    exists st2. cbn [forEach]. rewrite E1. cbn [rbind].
    split; [exact E2|]. split; [congruence|]. split; [congruence|].
    split; [congruence|]. split.
    + intros j [<-|Hj]; [|now apply Hp2].
      destruct (playing st2 id) eqn:Ep; [|reflexivity].
      apply Hm2 in Ep. congruence.
    + intros j Hj. auto.
Qed.

Lemma flush_ok pf st :
  exists st',
    flush pf st = Ok st' /\
    activeSourcesRef (refs st') = [] /\
    nextStartTimeRef (refs st') = 0%Q /\
    react st' = react st /\
    length (nodes (heap st')) = length (nodes (heap st)) /\
    (forall id, In id (activeSourcesRef (refs st)) -> playing st' id = false) /\
    (forall j, playing st' j = true -> playing st j = true).
Proof.
  unfold flush, stop_all.
  destruct (forEach_try_stop pf (activeSourcesRef (refs st)) st)
    as (st1 & E & Hr & Hre & Hl & Hp & Hm).
  rewrite E. cbn [rbind]. eexists. split; [reflexivity|]. cbn. auto 10.
Qed.


Lemma cleanup_ok pf st :
  exists st',
    cleanup pf st = Ok st' /\
    sessionPromiseRef (refs st') = None /\
    inputContextRef (refs st') = None /\
    outputContextRef (refs st') = None /\
    activeSourcesRef (refs st') = [] /\
    status (react st') = disconnected /\
    streamRef (refs st') = streamRef (refs st) /\
    processorRef (refs st') = processorRef (refs st) /\
    sourceRef (refs st') = sourceRef (refs st) /\
    outputNodeRef (refs st') = outputNodeRef (refs st) /\
    (forall id, In id (activeSourcesRef (refs st)) -> playing st' id = false).
Proof.
  destruct st as [re [ic oc sr pr so on nx ac se] hp].
  unfold cleanup, stop_all. cbn [refs sessionPromiseRef].
  set (st0 := match se with Some session => _ | None => _ end).
  assert (H0 : refs st0 =
               {| inputContextRef := ic; outputContextRef := oc; streamRef := sr;
                  processorRef := pr; sourceRef := so; outputNodeRef := on;
                  nextStartTimeRef := nx; activeSourcesRef := ac;
                  sessionPromiseRef := None |}).
  { subst st0. now destruct se. }
  destruct (forEach_try_stop pf (activeSourcesRef (refs st0)) st0)
    as (st1 & E & Hr & Hre & Hl & Hp & Hm).
  rewrite E. cbn [rbind]. eexists. split; [reflexivity|].
  rewrite H0 in Hr, Hp. cbn in Hp.
  destruct ic, oc, sr; cbn; repeat (rewrite Hr; cbn);
    (repeat split; try reflexivity; exact Hp).
Qed.

Lemma alter_snoc {A} (f : A -> A) (l : list A) (x : A) :
  alter f (length l) (l ++ [x]) = l ++ [f x].
Proof.
  replace (length l) with (length l + 0)%nat at 1 by lia.
  now rewrite alter_app_r.
Qed.

Lemma start_time_ge cursor now : (now <= start_time cursor now)%Q.
Proof.
  unfold start_time. destruct (Qle_bool now cursor) eqn:E; cbn.
  - now apply Qle_bool_iff.
  - apply Qle_refl.
Qed.

Lemma schedule_spec buf now st :
  (0 <= now)%Q ->
  let id := length (nodes (heap st)) in
  let t := start_time (nextStartTimeRef (refs st)) now in
  let st' := playAudioChunk_schedule buf now st in
  started_at st' id = Some t /\
  nextStartTimeRef (refs st') = (t + duration buf)%Q /\
  activeSourcesRef (refs st') = Set_add id (activeSourcesRef (refs st)) /\
  nodes (heap st') =
    nodes (heap st) ++ [{| node_buffer := buf; node_state := Scheduled t |}] /\
  effects (heap st') = effects (heap st) ++ [NodeStart id t] /\
  react st' = react st.
Proof.
  intros Hnow id t st'. subst id t st'.
  pose proof (start_time_ge (nextStartTimeRef (refs st)) now) as Hge.
  assert (H0 : Qle_bool 0 (start_time (nextStartTimeRef (refs st)) now) = true).
  { apply Qle_bool_iff. eapply Qle_trans; eassumption. }
  destruct st as [re [ic oc sr pr so on nx ac se] [nd cb ps cs fr ef]].
  unfold playAudioChunk_schedule, start_time in *. cbn in *.
  destruct (Qle_bool now nx) eqn:E; cbn in *;
    unfold source_start; cbn; rewrite H0; cbn;
    rewrite list_lookup_middle by reflexivity; cbn;
    unfold started_at; cbn; rewrite alter_snoc;
    rewrite list_lookup_middle by reflexivity; cbn; auto 10.
Qed.

Lemma start_time_zero (later : Q) : (0 <= later)%Q -> (start_time 0 later == later)%Q.
Proof.
  intros H. unfold start_time. destruct (Qle_bool later 0) eqn:E; cbn; [|reflexivity].
  apply Qle_bool_iff in E. now apply Qle_antisym.
Qed.

(** [setupAudioInput] touches the two handles of the capture nodes, the
    capture callback and the supply of identities, whether it returns or
    not. *)
Lemma setupAudioInput_frame pf env st :
  let st' := state_of (setupAudioInput pf env st) in
  react st' = react st /\
  nextStartTimeRef (refs st') = nextStartTimeRef (refs st) /\
  activeSourcesRef (refs st') = activeSourcesRef (refs st) /\
  inputContextRef (refs st') = inputContextRef (refs st) /\
  outputContextRef (refs st') = outputContextRef (refs st) /\
  streamRef (refs st') = streamRef (refs st) /\
  outputNodeRef (refs st') = outputNodeRef (refs st) /\
  sessionPromiseRef (refs st') = sessionPromiseRef (refs st) /\
  nodes (heap st') = nodes (heap st) /\
  effects (heap st') = effects (heap st) /\
  pendingStart (heap st') = pendingStart (heap st) /\
  callbacks (heap st') = callbacks (heap st).
Proof.
  unfold setupAudioInput, graph_call.
  destruct (graph_error pf CreateMediaStreamSource st); cbn; [auto 20|].
  destruct (graph_error pf CreateScriptProcessor _); cbn; [auto 20|].
  destruct (graph_error pf ConnectSource _); cbn; [auto 20|].
  destruct (graph_error pf ConnectProcessor _); cbn; auto 20.
Qed.

Lemma reported_frame c :
  react (reported c) = react (state_of c) /\
  refs (reported c) = refs (state_of c) /\
  nodes (heap (reported c)) = nodes (heap (state_of c)) /\
  pendingStart (heap (reported c)) = pendingStart (heap (state_of c)) /\
  callbacks (heap (reported c)) = callbacks (heap (state_of c)).
Proof. destruct c; repeat split. Qed.

Lemma settle_frame promise fulfilled st :
  react (settle promise fulfilled st) = react st /\
  refs (settle promise fulfilled st) = refs st /\
  nodes (heap (settle promise fulfilled st)) = nodes (heap st) /\
  effects (heap (settle promise fulfilled st)) = effects (heap st) /\
  reactions (heap (settle promise fulfilled st)) = reactions (heap st) /\
  onaudioprocess (heap (settle promise fulfilled st)) = onaudioprocess (heap st) /\
  pendingStart (heap (settle promise fulfilled st)) = pendingStart (heap st) /\
  callbacks (heap (settle promise fulfilled st)) = callbacks (heap st).
Proof. unfold settle. destruct (promise_state promise st); repeat split. Qed.

Lemma handle_keeps_schedule pf ev st :
  keeps_schedule ev = true ->
  exists st',
    handle pf ev st = Ok st' /\
    nextStartTimeRef (refs st') = nextStartTimeRef (refs st) /\
    length (nodes (heap st')) = length (nodes (heap st)).
Proof.
  intros Hq.
  assert (Hopen : forall env, exists st',
            Ok (reported (onOpen pf env st)) = Ok st' /\
            nextStartTimeRef (refs st') = nextStartTimeRef (refs st) /\
            length (nodes (heap st')) = length (nodes (heap st))).
  { intros env. eexists. split; [reflexivity|].
    destruct (reported_frame (onOpen pf env st)) as (_ & Hr & Hn & _).
    destruct (setupAudioInput_frame pf env (setStatus connected st))
      as (_ & Hc & _ & _ & _ & _ & _ & _ & Hn' & _).
    unfold onOpen in *. rewrite Hr, Hn, Hc, Hn'. auto. }
  assert (Hblock : forall cb block, exists st',
            (if context_closed (cb_ctx cb) st then Ok st
             else audioprocess cb block st) = Ok st' /\
            nextStartTimeRef (refs st') = nextStartTimeRef (refs st) /\
            length (nodes (heap st')) = length (nodes (heap st))).
  { intros cb block. destruct (context_closed (cb_ctx cb) st); [eauto|].
    unfold audioprocess. destruct (cb_isMuted cb); [eauto|].
    rewrite PcmFacts.createPcmBlob_value. cbn [rbind].
    eexists. split; [reflexivity|]. cbn. auto. }
  destruct ev as [ok|granted| |promise fulfilled|m now| | |block|source| | |k granted|k|k block];
    try discriminate; cbn [handle].
  - unfold startSession_resume. destruct (pendingStart (heap st)); [|eauto].
    destruct granted; eexists; (split; [reflexivity|]); cbn; auto.
  - destruct (callbacks (heap st)) as [env|]; [apply Hopen|eauto].
  - eexists. split; [reflexivity|].
    destruct (settle_frame promise fulfilled st) as (_ & Hr & Hn & _).
    now rewrite Hr, Hn.
  - destruct (callbacks (heap st)); [|eauto].
    cbn in Hq. apply andb_true_iff in Hq. destruct Hq as [Hi Hd].
    unfold handleServerMessage. destruct (interrupted m); [discriminate|].
    destruct (inlineData m) as [[|ch l]|]; try discriminate; cbn; eauto.
  - destruct (callbacks (heap st)); eexists; (split; [reflexivity|]); cbn; auto.
  - destruct (callbacks (heap st)); eexists; (split; [reflexivity|]); cbn; auto.
  - destruct (onaudioprocess (heap st)) as [cb|]; [apply Hblock|eauto].
  - eexists. split; [reflexivity|]. unfold node_finished.
    destruct (nodes (heap st) !! source) as [[b [|w| |]]|]; cbn;
      rewrite ?length_alter; auto.
  - eexists. split; [reflexivity|]. cbn. auto.
  - unfold startSession_resume_earlier.
    destruct (earlierStarts (heap st) !! k); [|eauto].
    destruct granted; eexists; (split; [reflexivity|]); cbn; auto.
  - destruct (earlierCallbacks (heap st) !! k) as [env|]; [apply Hopen|eauto].
  - destruct (earlierProcessors (heap st) !! k) as [cb|]; [apply Hblock|eauto].
Qed.

Lemma step_keeps_schedule pf ev st :
  keeps_schedule ev = true ->
  exists st',
    step pf ev st = Ok st' /\
    nextStartTimeRef (refs st') = nextStartTimeRef (refs st) /\
    length (nodes (heap st')) = length (nodes (heap st)).
Proof.
  intros Hq. destruct (handle_keeps_schedule pf ev st Hq) as (st1 & E & Hc & Hn).
  exists (microtasks st1). split; [now apply step_after_handle|]. split; assumption.
Qed.

Lemma run_keeps_schedule pf evs st :
  forallb keeps_schedule evs = true ->
  exists st',
    run pf evs st = Ok st' /\
    nextStartTimeRef (refs st') = nextStartTimeRef (refs st) /\
    length (nodes (heap st')) = length (nodes (heap st)).
Proof.
  revert st. induction evs as [|ev evs IH]; intros st Hq; cbn in Hq.
  - exists st. cbn. auto.
  - apply andb_true_iff in Hq. destruct Hq as [Hev Hevs].
    destruct (step_keeps_schedule pf ev st Hev) as (st1 & E1 & Hc1 & Hn1).
    destruct (IH st1 Hevs) as (st2 & E2 & Hc2 & Hn2).
    exists st2. cbn [run]. rewrite E1. cbn [rbind].
    split; [exact E2|]. split; congruence.
Qed.

Lemma start_time_on_time (cursor now : Q) :
  (now <= cursor)%Q -> start_time cursor now = cursor.
Proof.
  intros H. unfold start_time. apply Qle_bool_iff in H. now rewrite H.
Qed.

Lemma start_time_late (cursor now : Q) :
  (cursor < now)%Q -> start_time cursor now = now.
Proof.
  intros H. unfold start_time. destruct (Qle_bool now cursor) eqn:E; [|reflexivity].
  apply Qle_bool_iff in E. exfalso. eapply Qlt_not_le; eassumption.
Qed.

Lemma sent_app st st' new :
  effects (heap st') = effects (heap st) ++ new ->
  sent st' =
    sent st ++ flat_map (fun e => match e with SendRealtimeInput _ m => [m] | _ => [] end) new.
Proof. intros H. unfold sent. now rewrite H, flat_map_app. Qed.

Lemma promise_state_settled st st' promise :
  settled (heap st') = settled (heap st) ->
  promise_state promise st' = promise_state promise st.
Proof. intros H. unfold promise_state. now rewrite H. Qed.

Lemma reaction_calls_settled st st' r :
  settled (heap st') = settled (heap st) ->
  reaction_calls st' r = reaction_calls st r.
Proof.
  intros H. unfold reaction_calls. now rewrite (promise_state_settled st st' (fst r) H).
Qed.

(** A [then] callback registered by a callback runs, or not, after the
    ones that were waiting. *)
Lemma microtasks_registered st st1 r :
  settled (heap st1) = settled (heap st) ->
  effects (heap st1) = effects (heap st) ->
  reactions (heap st1) = reactions (heap st) ++ [r] ->
  effects (heap (microtasks st1)) = effects (heap (microtasks st)) ++ reaction_calls st r.
Proof.
  intros Hs He Hr. rewrite !microtasks_effects, He, Hr, flat_map_app. cbn [flat_map].
  rewrite app_nil_r, app_assoc. f_equal; [f_equal|now apply reaction_calls_settled].
  apply flat_map_ext. intros a. now apply reaction_calls_settled.
Qed.

(** Whether a captured block is sent depends on the flag the callback closed
    over, not on the mute flag of the component.  The session promise is
    fulfilled; what was waiting on a promise is sent first. *)
Lemma capture_callback_reads_captured_flag pf st cb inputData :
  onaudioprocess (heap st) = Some cb ->
  context_closed (cb_ctx cb) st = false ->
  promise_state (cb_session cb) st = Some true ->
  exists st',
    step pf (AudioProcess inputData) st = Ok st' /\
    status (react st') = status (react st) /\
    isMuted (react st') = isMuted (react st) /\
    sent st' =
      if cb_isMuted cb then sent (microtasks st)
      else sent (microtasks st) ++
           [{| blob_data :=
                 b64_encode (map byte_to_Z (CodecSpec.floatTo16BitPCM inputData));
               blob_mimeType := pcm_mime |}].
Proof.
  intros Hcb Hopen Hful. unfold step. cbn [handle]. rewrite Hcb, Hopen.
  unfold audioprocess.
  destruct (cb_isMuted cb); [cbn [rbind]; eauto|].
  rewrite PcmFacts.createPcmBlob_value. cbn [rbind].
  eexists. split; [reflexivity|]. split; [reflexivity|]. split; [reflexivity|].
  erewrite sent_app.
  2:{ apply (microtasks_registered st); reflexivity. }
  unfold reaction_calls. cbn [fst snd]. rewrite Hful. cbn. reflexivity.
Qed.

Lemma starts_not_before_app now new1 new2 :
  starts_not_before now new1 -> starts_not_before now new2 ->
  starts_not_before now (new1 ++ new2).
Proof.
  intros H1 H2 id t Hin. apply in_app_or in Hin. destruct Hin; eauto.
Qed.

Lemma try_stop_effects pf id st :
  exists st' new,
    try_stop pf id st = Ok st' /\
    effects (heap st') = effects (heap st) ++ new /\
    refs st' = refs st /\
    forall now, starts_not_before now new.
Proof.
  assert (Hnil : exists st' new, Ok st = Ok st' /\
            effects (heap st') = effects (heap st) ++ new /\ refs st' = refs st /\
            forall now, starts_not_before now new).
  { exists st, []. rewrite app_nil_r. repeat split. intros now id' t []. }
  unfold try_stop, source_stop.
  destruct (nodes (heap st) !! id) as [n|]; [|exact Hnil].
  destruct (node_state n); cbn; try exact Hnil;
    try (destruct (stop_again_throws pf); exact Hnil).
  eexists. exists [NodeStop id]. repeat split.
  intros now id' t [H|[]]. discriminate.
Qed.

Lemma forEach_try_stop_effects pf ids st :
  exists st' new,
    forEach ids (try_stop pf) st = Ok st' /\
    effects (heap st') = effects (heap st) ++ new /\
    refs st' = refs st /\
    forall now, starts_not_before now new.
Proof.
  revert st. induction ids as [|id ids IH]; intros st.
  - exists st, []. rewrite app_nil_r. repeat split. intros now id' t [].
  - destruct (try_stop_effects pf id st) as (st1 & new1 & E1 & He1 & Hr1 & Hs1).
    destruct (IH st1) as (st2 & new2 & E2 & He2 & Hr2 & Hs2).
    exists st2, (new1 ++ new2). cbn [forEach]. rewrite E1. cbn [rbind].
    split; [exact E2|]. split; [now rewrite He2, He1, app_assoc|].
    split; [congruence|]. intros now. now apply starts_not_before_app.
Qed.

Lemma flush_effects pf st :
  exists st' new,
    flush pf st = Ok st' /\
    effects (heap st') = effects (heap st) ++ new /\
    forall now, starts_not_before now new.
Proof.
  unfold flush, stop_all.
  destruct (forEach_try_stop_effects pf (activeSourcesRef (refs st)) st)
    as (st1 & new & E & He & _ & Hs).
  rewrite E. cbn [rbind]. eexists. exists new. split; [reflexivity|].
  split; [exact He | exact Hs].
Qed.

Lemma schedule_effects buf now st :
  exists new,
    effects (heap (playAudioChunk_schedule buf now st)) = effects (heap st) ++ new /\
    starts_not_before now new.
Proof.
  pose proof (start_time_ge (nextStartTimeRef (refs st)) now) as Hge.
  destruct st as [re [ic oc sr pr so on nx ac se] [nd cb ps cs fr ef]].
  unfold playAudioChunk_schedule, start_time in *. cbn in *.
  destruct (Qle_bool now nx) eqn:E; cbn in *; unfold source_start; cbn.
  - destruct (Qle_bool 0 nx); cbn.
    + rewrite list_lookup_middle by reflexivity. cbn.
      exists [NodeStart (length nd) nx]. split; [reflexivity|].
      intros id t [H|[]]. now inversion H; subst.
    + exists [ConsoleError]. split; [reflexivity|]. intros id t [H|[]]. discriminate.
  - destruct (Qle_bool 0 now); cbn.
    + rewrite list_lookup_middle by reflexivity. cbn.
      exists [NodeStart (length nd) now]. split; [reflexivity|].
      intros id t [H|[]]. now inversion H; subst.
    + exists [ConsoleError]. split; [reflexivity|]. intros id t [H|[]]. discriminate.
Qed.

Lemma handleServerMessage_effects pf message now st :
  exists st' new,
    handleServerMessage pf message now st = Ok st' /\
    effects (heap st') = effects (heap st) ++ new /\
    starts_not_before now new.
Proof.
  unfold handleServerMessage.
  set (started := match inlineData message with
                  | Some (c :: base64Audio) => _ | _ => None end).
  set (st0 := match started with Some (Throw _) => perform ConsoleError st | _ => st end).
  assert (H0 : exists new0, effects (heap st0) = effects (heap st) ++ new0 /\
                            starts_not_before now new0).
  { subst st0. destruct started as [[?|?]|].
    - exists []. rewrite app_nil_r. split; [reflexivity|]. intros id t [].
    - exists [ConsoleError]. split; [reflexivity|]. intros id t [H|[]]. discriminate.
    - exists []. rewrite app_nil_r. split; [reflexivity|]. intros id t []. }
  destruct H0 as (new0 & He0 & Hs0).
  assert (H1 : exists st1 new1,
             (if interrupted message then flush pf st0 else Ok st0) = Ok st1 /\
             effects (heap st1) = effects (heap st0) ++ new1 /\
             starts_not_before now new1).
  { destruct (interrupted message).
    - destruct (flush_effects pf st0) as (st1 & new1 & E & He & Hs). eauto 6.
    - exists st0, []. rewrite app_nil_r. split; [reflexivity|].
      split; [reflexivity|]. intros id t []. }
  destruct H1 as (st1 & new1 & E1 & He1 & Hs1). rewrite E1. cbn [rbind].
  destruct started as [[audioBuffer|e]|].
  - destruct (schedule_effects audioBuffer now st1) as (new2 & He2 & Hs2).
    eexists. exists (new0 ++ new1 ++ new2). split; [reflexivity|].
    split; [now rewrite He2, He1, He0, <- !app_assoc|].
    now repeat apply starts_not_before_app.
  - exists st1, (new0 ++ new1). split; [reflexivity|].
    split; [now rewrite He1, He0, <- app_assoc|].
    now apply starts_not_before_app.
  - exists st1, (new0 ++ new1). split; [reflexivity|].
    split; [now rewrite He1, He0, <- app_assoc|].
    now apply starts_not_before_app.
Qed.


(** The guarded [stop()] of a node that is not playing does nothing. *)
Lemma try_stop_idle pf id st : playing st id = false -> try_stop pf id st = Ok st.
Proof.
  unfold playing, started_at, try_stop, source_stop.
  destruct (nodes (heap st) !! id) as [n|]; [|reflexivity].
  destruct (node_state n); try discriminate; intros _; cbn; try reflexivity;
    now destruct (stop_again_throws pf).
Qed.

(** The guarded [stop()] of a playing node calls [stop()] on it and
    touches no other node. *)
Lemma try_stop_calls pf id st :
  exists st' calls,
    try_stop pf id st = Ok st' /\
    effects (heap st') = effects (heap st) ++ calls /\
    (playing st id = true -> In (NodeStop id) calls) /\
    (forall j, j <> id -> playing st' j = playing st j).
Proof.
  destruct (playing st id) eqn:Ep.
  2:{ exists st, []. split; [now apply try_stop_idle|].
      split; [now rewrite app_nil_r|]. split; [discriminate|reflexivity]. }
  unfold playing, started_at in Ep. unfold try_stop, source_stop.
  destruct (nodes (heap st) !! id) as [n|]; [|discriminate].
  destruct (node_state n); try discriminate. cbn.
  eexists. exists [NodeStop id]. split; [reflexivity|]. split; [reflexivity|].
  split; [intros _; now left|].
  intros j Hj. rewrite playing_set_node_state_stopped.
  destruct (Nat.eqb_spec id j); [congruence|reflexivity].
Qed.

Lemma forEach_try_stop_calls pf ids st :
  exists st' calls,
    forEach ids (try_stop pf) st = Ok st' /\
    effects (heap st') = effects (heap st) ++ calls /\
    forall id, In id ids -> playing st id = true -> In (NodeStop id) calls.
Proof.
  revert st. induction ids as [|a ids IH]; intros st.
  - exists st, []. split; [reflexivity|]. split; [now rewrite app_nil_r|].
    intros id [].
  - destruct (try_stop_calls pf a st) as (st1 & new1 & E1 & He1 & Hc1 & Ho1).
    destruct (IH st1) as (st2 & new2 & E2 & He2 & Hc2).
    exists st2, (new1 ++ new2). cbn [forEach]. rewrite E1. cbn [rbind].
    split; [exact E2|]. split; [now rewrite He2, He1, app_assoc|].
    intros id Hin Hp. apply in_or_app. destruct (Nat.eq_dec id a) as [->|Hne].
    + left. now apply Hc1.
    + destruct Hin as [->|Hin]; [congruence|].
      right. apply Hc2; [exact Hin|]. now rewrite Ho1.
Qed.

Lemma flush_calls pf st :
  exists st' calls,
    flush pf st = Ok st' /\
    effects (heap st') = effects (heap st) ++ calls /\
    forall id, In id (activeSourcesRef (refs st)) -> playing st id = true ->
               In (NodeStop id) calls.
Proof.
  unfold flush, stop_all.
  destruct (forEach_try_stop_calls pf (activeSourcesRef (refs st)) st)
    as (st1 & calls & E & He & Hc).
  rewrite E. cbn [rbind]. eexists. exists calls. split; [reflexivity|].
  split; [exact He | exact Hc].
Qed.

(** A teardown right after a teardown: only the tracks of a retained stream
    are stopped again. *)
Lemma cleanup_again pf st :
  sessionPromiseRef (refs st) = None ->
  inputContextRef (refs st) = None ->
  outputContextRef (refs st) = None ->
  activeSourcesRef (refs st) = [] ->
  exists st',
    cleanup pf st = Ok st' /\
    refs st' = refs st /\
    nodes (heap st') = nodes (heap st) /\
    effects (heap st') =
      effects (heap st) ++
      match streamRef (refs st) with Some s => [TracksStop s] | None => [] end.
Proof.
  intros Hs Hi Ho Ha.
  destruct st as [re [ic oc sr pr so on nx ac se] hp]. cbn in *. subst.
  unfold cleanup, stop_all. cbn.
  destruct sr; cbn; eexists; (split; [reflexivity|]); cbn;
    rewrite ?app_nil_r; auto.
Qed.

(** The mute button leaves the installed callback as it is. *)
Lemma toggleMute_keeps_callback st :
  onaudioprocess (heap (toggleMute st)) = onaudioprocess (heap st) /\
  status (react (toggleMute st)) = status (react st) /\
  isMuted (react (toggleMute st)) = negb (isMuted (react st)).
Proof. repeat split. Qed.

End VoiceFacts.

(** ** The component claims *)

Module VoiceClaims.
Import Codec Voice VoiceFacts.

(** C1, as the code has it.  When a message with the interruption flag is
    handled, the flush does not throw: [stop()] is called on every node of
    the active set that was playing, no node of the set plays any more, the
    set is empty and the cursor is 0 (not the current time of the context).
    A chunk carried by the same message, if it decodes, is scheduled after
    the flush, and then it starts at the clock reading of the message and
    is the only node in the set; a chunk that does not decode is logged
    and the message leaves the flushed state.  The next chunk enqueued
    after the flush starts at the current time of its own enqueue. *)
Theorem interruption_flushes_playback pf message now st buf later :
  interrupted message = true ->
  (0 <= later)%Q ->
  let decoded :=
    match inlineData message with
    | Some (c :: base64Audio) => Some (playAudioChunk_decode (c :: base64Audio))
    | _ => None
    end in
  let st0 := match decoded with
             | Some (Throw _) => perform ConsoleError st
             | _ => st
             end in
  exists st_f st' calls,
    flush pf st0 = Ok st_f /\
    effects (heap st_f) = effects (heap st0) ++ calls /\
    (forall id, In id (activeSourcesRef (refs st)) -> playing st id = true ->
                In (NodeStop id) calls) /\
    (forall id, In id (activeSourcesRef (refs st)) -> playing st_f id = false) /\
    activeSourcesRef (refs st_f) = [] /\
    nextStartTimeRef (refs st_f) = 0%Q /\
    handleServerMessage pf message now st = Ok st' /\
    st' = match decoded with
          | Some (Ok chunk) => playAudioChunk_schedule chunk now st_f
          | _ => st_f
          end /\
    (forall chunk,
       decoded = Some (Ok chunk) -> (0 <= now)%Q ->
       exists t,
         started_at st' (length (nodes (heap st))) = Some t /\ (t == now)%Q /\
         activeSourcesRef (refs st') = [length (nodes (heap st))]) /\
    exists t,
      started_at (playAudioChunk_schedule buf later st_f) (length (nodes (heap st_f)))
        = Some t /\ (t == later)%Q.
Proof.
  intros Hint Hlater decoded st0. unfold handleServerMessage. rewrite Hint.
  fold decoded. fold st0.
  assert (H0 : activeSourcesRef (refs st0) = activeSourcesRef (refs st) /\
               (forall id, playing st0 id = playing st id) /\
               length (nodes (heap st0)) = length (nodes (heap st))).
  { subst st0. destruct decoded as [[?|?]|]; auto. }
  destruct H0 as (Hact & Hplay & Hlen).
  destruct (flush_ok pf st0) as (st_f & Ef & Ha & Hc & _ & Hl & Hp & _).
  destruct (flush_calls pf st0) as (st_f' & calls & Ef' & He & Hcalls).
  assert (st_f' = st_f) by congruence. subst st_f'.
  exists st_f,
    (match decoded with
     | Some (Ok audioBuffer) => playAudioChunk_schedule audioBuffer now st_f
     | _ => st_f
     end), calls.
  split; [exact Ef|]. split; [exact He|].
  split; [intros id Hid Hpl; apply Hcalls; [now rewrite Hact | now rewrite Hplay]|].
  split; [intros id Hid; apply Hp; now rewrite Hact|].
  split; [exact Ha|]. split; [exact Hc|].
  rewrite Ef. cbn [rbind].
  split; [now destruct decoded as [[?|?]|]|]. split; [reflexivity|]. split.
  - intros chunk -> Hnow.
    destruct (schedule_spec chunk now st_f Hnow) as (Hs & _ & Hset & _).
    rewrite Hl, Hlen in Hs, Hset. rewrite Ha in Hset. rewrite Hc in Hs.
    eexists. split; [exact Hs|]. split; [now apply start_time_zero | exact Hset].
  - destruct (schedule_spec buf later st_f Hlater) as (Hs & _).
    eexists. split; [exact Hs|]. rewrite Hc. now apply start_time_zero.
Qed.

Lemma interruption_flushes_playback_witness :
  let st := playAudioChunk [65; 65; 65; 61] 1 (playAudioChunk [65; 65; 65; 61] 1 initial) in
  let chunk := {| channelData := [0 # 32768]; sampleRate := 24000 |} in
  let message := {| inlineData := Some [65; 65; 65; 61]; interrupted := true |} in
  activeSourcesRef (refs st) = [0; 1]%nat /\
  exists st_f st' calls,
    flush strict_engine st = Ok st_f /\
    effects (heap st_f) = effects (heap st) ++ calls /\
    (forall id, In id [0; 1]%nat -> playing st id = true -> In (NodeStop id) calls) /\
    (forall id, In id [0; 1]%nat -> playing st_f id = false) /\
    activeSourcesRef (refs st_f) = [] /\
    nextStartTimeRef (refs st_f) = 0%Q /\
    handleServerMessage strict_engine message 2 st = Ok st' /\
    st' = playAudioChunk_schedule chunk 2 st_f /\
    (forall chunk',
       Some (playAudioChunk_decode [65; 65; 65; 61]) = Some (Ok chunk') -> (0 <= 2)%Q ->
       exists t,
         started_at st' 2 = Some t /\ (t == 2)%Q /\
         activeSourcesRef (refs st') = [2%nat]) /\
    exists t,
      started_at (playAudioChunk_schedule chunk 7 st_f) (length (nodes (heap st_f)))
        = Some t /\ (t == 7)%Q.
Proof.
  split; [reflexivity|].
  exact (interruption_flushes_playback strict_engine
           {| inlineData := Some [65; 65; 65; 61]; interrupted := true |} 2
           (playAudioChunk [65; 65; 65; 61] 1 (playAudioChunk [65; 65; 65; 61] 1 initial))
           {| channelData := [0 # 32768]; sampleRate := 24000 |} 7
           eq_refl ltac:(discriminate)).
Defined.

(** C1 as stated fails.  Two chunks are scheduled in a connected session;
    an interruption arrives when the context's clock reads 2; the cursor is
    then 0, not 2. *)
Lemma interruption_resets_cursor_to_zero :
  exists st st',
    run strict_engine
        (connect_events ++ [SessionMessage one_frame 1; SessionMessage one_frame 1])
        initial = Ok st /\
    length (activeSourcesRef (refs st)) = 2%nat /\
    handleServerMessage strict_engine interruption 2 st = Ok st' /\
    nextStartTimeRef (refs st') = 0%Q /\
    ~ (nextStartTimeRef (refs st') == 2)%Q.
Proof.
  eexists. eexists. split; [vm_compute; reflexivity|].
  split; [reflexivity|]. split; [vm_compute; reflexivity|].
  split; [reflexivity|]. discriminate.
Qed.

(** C5, as the code has it.  Chunk 1 is enqueued at [now1] and chunk 2 at
    [now2], with only events in between that neither enqueue nor flush.
    Chunk 1 starts at the cursor, or at [now1] if the cursor is behind it.
    Chunk 2 starts at the start of chunk 1 plus the duration of chunk 1
    when [now2] has not passed that time, and at [now2] otherwise.  After
    each start the cursor is the start time plus the chunk's duration. *)
Theorem consecutive_chunks_start_times pf c1 c2 b1 b2 now1 now2 between st :
  playAudioChunk_decode c1 = Ok b1 ->
  playAudioChunk_decode c2 = Ok b2 ->
  (0 <= now1)%Q -> (0 <= now2)%Q ->
  forallb keeps_schedule between = true ->
  let id1 := length (nodes (heap st)) in
  let st1 := playAudioChunk c1 now1 st in
  exists st1' t1 t2,
    run pf between st1 = Ok st1' /\
    started_at st1 id1 = Some t1 /\
    started_at (playAudioChunk c2 now2 st1') (S id1) = Some t2 /\
    t1 = start_time (nextStartTimeRef (refs st)) now1 /\
    t2 = start_time (t1 + duration b1) now2 /\
    nextStartTimeRef (refs st1) = (t1 + duration b1)%Q /\
    nextStartTimeRef (refs (playAudioChunk c2 now2 st1')) = (t2 + duration b2)%Q /\
    ((now2 <= t1 + duration b1)%Q -> t2 = (t1 + duration b1)%Q) /\
    ((t1 + duration b1 < now2)%Q -> t2 = now2).
Proof.
  intros D1 D2 H1 H2 Hq id1 st1. subst id1 st1.
  unfold playAudioChunk. rewrite D1, D2.
  destruct (schedule_spec b1 now1 st H1) as (Hs1 & Hc1 & _ & Hn1 & _).
  destruct (run_keeps_schedule pf between (playAudioChunk_schedule b1 now1 st) Hq)
    as (st1' & Er & Hc & Hn).
  destruct (schedule_spec b2 now2 st1' H2) as (Hs2 & Hc2 & _).
  rewrite Hn, Hn1, length_app, Nat.add_1_r in Hs2. cbn [length] in Hs2.
  rewrite Hc, Hc1 in Hs2, Hc2.
  exists st1'. eexists. eexists. split; [exact Er|]. split; [exact Hs1|].
  split; [exact Hs2|]. split; [reflexivity|]. split; [reflexivity|].
  split; [exact Hc1|]. split; [exact Hc2|]. split.
  - apply start_time_on_time.
  - apply start_time_late.
Qed.

Lemma consecutive_chunks_start_times_witness :
  let chunk := {| channelData := [0 # 32768]; sampleRate := 24000 |} in
  let st1 := playAudioChunk [65; 65; 65; 61] 1 initial in
  exists st1' t1 t2,
    run strict_engine [SourceEnded 0; MuteClicked] st1 = Ok st1' /\
    started_at st1 0 = Some t1 /\
    started_at (playAudioChunk [65; 65; 65; 61] 1 st1') 1 = Some t2 /\
    t1 = start_time 0 1 /\
    t2 = start_time (t1 + duration chunk) 1 /\
    nextStartTimeRef (refs st1) = (t1 + duration chunk)%Q /\
    nextStartTimeRef (refs (playAudioChunk [65; 65; 65; 61] 1 st1'))
      = (t2 + duration chunk)%Q /\
    ((1 <= t1 + duration chunk)%Q -> t2 = (t1 + duration chunk)%Q) /\
    ((t1 + duration chunk < 1)%Q -> t2 = 1%Q).
Proof.
  apply (consecutive_chunks_start_times strict_engine
           [65; 65; 65; 61] [65; 65; 65; 61]
           {| channelData := [0 # 32768]; sampleRate := 24000 |}
           {| channelData := [0 # 32768]; sampleRate := 24000 |}
           1 1 [SourceEnded 0; MuteClicked] initial).
  - vm_compute. reflexivity.
  - vm_compute. reflexivity.
  - discriminate.
  - discriminate.
  - reflexivity.
Defined.

(** C5 as stated fails.  A one-frame chunk is enqueued when the clock reads
    1 and the next one when it reads 2, with nothing in between: the first
    starts at 1 and lasts 1/24000, the second starts at 2. *)
Lemma late_chunk_leaves_a_gap :
  let st1 := playAudioChunk [65; 65; 65; 61] 1 initial in
  let st2 := playAudioChunk [65; 65; 65; 61] 2 st1 in
  exists b1 t1 t2,
    playAudioChunk_decode [65; 65; 65; 61] = Ok b1 /\
    started_at st1 0 = Some t1 /\
    started_at st2 1 = Some t2 /\
    ~ (t2 == t1 + duration b1)%Q.
Proof.
  do 3 eexists. split; [vm_compute; reflexivity|].
  split; [vm_compute; reflexivity|]. split; [vm_compute; reflexivity|].
  discriminate.
Qed.

(** C10.  Whenever a chunk that decodes is enqueued while the clock reads
    [now], the one call of [start] that the enqueue makes gets a time that
    is not before [now]; when the cursor is 0 that time is [now] itself.
    The cursor is 0 after [startSession] and after a flush.  Whatever the
    message and the state, no [start] made while the message is handled
    gets a time before [now]. *)
Theorem enqueue_never_starts_in_the_past pf c buf now st :
  playAudioChunk_decode c = Ok buf ->
  (0 <= now)%Q ->
  let id := length (nodes (heap st)) in
  let st' := playAudioChunk c now st in
  (exists t,
     started_at st' id = Some t /\
     effects (heap st') = effects (heap st) ++ [NodeStart id t] /\
     (now <= t)%Q /\
     ((nextStartTimeRef (refs st) == 0)%Q -> (t == now)%Q)) /\
  (forall audio_ok, nextStartTimeRef (refs (startSession audio_ok st)) = 0%Q) /\
  (exists st_f, flush pf st = Ok st_f /\ nextStartTimeRef (refs st_f) = 0%Q) /\
  (forall message, exists st_m calls,
     handleServerMessage pf message now st = Ok st_m /\
     effects (heap st_m) = effects (heap st) ++ calls /\
     starts_not_before now calls).
Proof.
  intros D Hnow id st'. subst id st'. unfold playAudioChunk. rewrite D.
  destruct (schedule_spec buf now st Hnow) as (Hs & _ & _ & _ & He & _).
  split; [|split; [|split; [|intros message; apply handleServerMessage_effects]]].
  - eexists. split; [exact Hs|]. split; [exact He|].
    split; [apply start_time_ge|].
    intros H0. destruct (Qlt_le_dec (nextStartTimeRef (refs st)) now) as [Hlt|Hle].
    + now rewrite start_time_late.
    + rewrite start_time_on_time by assumption.
      apply Qle_antisym; [now rewrite H0 | assumption].
  - intros [|]; reflexivity.
  - destruct (flush_ok pf st) as (st_f & Ef & _ & Hc & _). eauto.
Qed.

Lemma enqueue_never_starts_in_the_past_witness :
  let st := initial in
  let id := length (nodes (heap st)) in
  let st' := playAudioChunk [65; 65; 65; 61] 3 st in
  (exists t,
     started_at st' id = Some t /\
     effects (heap st') = effects (heap st) ++ [NodeStart id t] /\
     (3 <= t)%Q /\
     ((nextStartTimeRef (refs st) == 0)%Q -> (t == 3)%Q)) /\
  (forall audio_ok, nextStartTimeRef (refs (startSession audio_ok st)) = 0%Q) /\
  (exists st_f, flush strict_engine st = Ok st_f /\ nextStartTimeRef (refs st_f) = 0%Q) /\
  (forall message, exists st_m calls,
     handleServerMessage strict_engine message 3 st = Ok st_m /\
     effects (heap st_m) = effects (heap st) ++ calls /\
     starts_not_before 3 calls).
Proof.
  apply (enqueue_never_starts_in_the_past strict_engine [65; 65; 65; 61]
           {| channelData := [0 # 32768]; sampleRate := 24000 |} 3 initial).
  - vm_compute. reflexivity.
  - discriminate.
Defined.

(** C6.  For every byte sequence of odd length, [decodeRawPcm] throws (the
    [Int16Array] view is refused with a [RangeError]); no buffer is
    returned.  [playAudioChunk] catches the error, logs it, and schedules
    nothing. *)
Theorem odd_length_pcm_is_rejected (arrayBuffer : list byte) :
  Nat.odd (length arrayBuffer) = true ->
  decodeRawPcm arrayBuffer = Throw RangeError /\
  forall base64Audio currentTime st,
    base64ToArrayBuffer base64Audio = Ok arrayBuffer ->
    playAudioChunk base64Audio currentTime st = perform ConsoleError st.
Proof.
  intros Hodd.
  assert (H : decodeRawPcm arrayBuffer = Throw RangeError).
  { unfold decodeRawPcm, new_Int16Array.
    rewrite <- Nat.negb_odd, Hodd. reflexivity. }
  split; [exact H|].
  intros c now st Hc. unfold playAudioChunk, playAudioChunk_decode.
  rewrite Hc. cbn [rbind]. now rewrite H.
Qed.

Lemma odd_length_pcm_is_rejected_witness :
  decodeRawPcm [x01; x02; x03] = Throw RangeError /\
  forall base64Audio currentTime st,
    base64ToArrayBuffer base64Audio = Ok [x01; x02; x03] ->
    playAudioChunk base64Audio currentTime st = perform ConsoleError st.
Proof.
  apply (odd_length_pcm_is_rejected [x01; x02; x03]). reflexivity.
Defined.




(** The reset is heard when the cursor is ahead of the clock: a chunk is
    scheduled, the teardown empties the set and keeps the cursor, and an
    interruption that arrives before the chunk's end makes the next chunk
    start at the clock reading instead of the cursor. *)
Lemma empty_flush_moves_next_start :
  exists st st_f t t',
    run strict_engine (connect_events ++ [SessionMessage one_frame 1; EffectCleanup])
        initial = Ok st /\
    activeSourcesRef (refs st) = [] /\
    flush strict_engine st = Ok st_f /\
    started_at (playAudioChunk [65; 65; 65; 61] 1 st) 1 = Some t /\
    started_at (playAudioChunk [65; 65; 65; 61] 1 st_f) 1 = Some t' /\
    (t == 24001 # 24000)%Q /\ (t' == 1)%Q.
Proof.
  do 4 eexists. split; [vm_compute; reflexivity|]. split; [reflexivity|].
  split; [vm_compute; reflexivity|]. split; [vm_compute; reflexivity|].
  split; [vm_compute; reflexivity|]. split; reflexivity.
Qed.

(** On an engine where [stop()] on a finished node throws, the error stays
    inside the flush and inside the teardown. *)
Lemma stop_error_is_swallowed :
  exists st st_f st_c,
    run strict_engine (connect_events ++ [SessionMessage one_frame 1; SourceEnded 0])
        initial = Ok st /\
    source_stop strict_engine 0 st = Throw InvalidStateError /\
    flush strict_engine (upd_refs (set_activeSourcesRef [0%nat]) st) = Ok st_f /\
    cleanup strict_engine (upd_refs (set_activeSourcesRef [0%nat]) st) = Ok st_c.
Proof.
  do 3 eexists. split; [vm_compute; reflexivity|].
  split; [vm_compute; reflexivity|].
  split; vm_compute; reflexivity.
Qed.

(** C3, as the code has it.  In every state, [cleanup] run twice in a row
    returns both times without throwing; afterwards the session handle and
    both audio-context handles are null, the active set is empty and the
    status is [disconnected].  The handles of the media stream, the
    processor node, the source node and the output gain node are what they
    were before.  The second teardown changes no handle and calls nothing
    but [stop()] on the tracks of the stream it still holds. *)
Theorem cleanup_twice pf st :
  exists st1 st2,
    cleanup pf st = Ok st1 /\
    cleanup pf st1 = Ok st2 /\
    sessionPromiseRef (refs st2) = None /\
    inputContextRef (refs st2) = None /\
    outputContextRef (refs st2) = None /\
    activeSourcesRef (refs st2) = [] /\
    status (react st2) = disconnected /\
    streamRef (refs st2) = streamRef (refs st) /\
    processorRef (refs st2) = processorRef (refs st) /\
    sourceRef (refs st2) = sourceRef (refs st) /\
    outputNodeRef (refs st2) = outputNodeRef (refs st) /\
    refs st2 = refs st1 /\
    effects (heap st2) =
      effects (heap st1) ++
      match streamRef (refs st) with Some s => [TracksStop s] | None => [] end.
Proof.
  destruct (cleanup_ok pf st)
    as (st1 & E1 & Hse1 & Hi1 & Hoc1 & Ha1 & _ & Hs1 & Hp1 & Hso1 & Ho1 & _).
  destruct (cleanup_ok pf st1)
    as (st2 & E2 & Hse & Hi & Hoc & Ha & Hst & Hs2 & Hp2 & Hso2 & Ho2 & _).
  destruct (cleanup_again pf st1 Hse1 Hi1 Hoc1 Ha1) as (st2' & E2' & Hr & _ & He).
  assert (st2' = st2) by congruence. subst st2'.
  exists st1, st2. rewrite <- Hs1.
  repeat split; try assumption; congruence.
Qed.

(** C3 as stated fails.  After a session was connected, two teardowns in a
    row leave the handles of the stream, the processor node, the source
    node and the output gain node set. *)
Lemma cleanup_keeps_stream_and_node_handles :
  exists st st1 st2,
    run strict_engine connect_events initial = Ok st /\
    cleanup strict_engine st = Ok st1 /\
    cleanup strict_engine st1 = Ok st2 /\
    streamRef (refs st2) = Some 3%nat /\
    processorRef (refs st2) = Some 6%nat /\
    sourceRef (refs st2) = Some 5%nat /\
    outputNodeRef (refs st2) = Some 2%nat.
Proof.
  do 3 eexists. split; [vm_compute; reflexivity|].
  split; [vm_compute; reflexivity|]. split; [vm_compute; reflexivity|].
  repeat split.
Qed.

(** C2, the code at the failing input.  A session is connected with the
    mute flag clear; the mute button is clicked, which sets the flag and
    leaves the status [connected]; the next captured block is still sent.
    The callback tests the [isMuted] of the render that started the
    session, which the click does not change. *)
Theorem mute_does_not_stop_sends :
  exists st st_muted st',
    run strict_engine connect_events initial = Ok st /\
    status (react st) = connected /\
    step strict_engine MuteClicked st = Ok st_muted /\
    isMuted (react st_muted) = true /\
    status (react st_muted) = connected /\
    step strict_engine (AudioProcess [0; 0; 0; 0]%Q) st_muted = Ok st' /\
    sent st_muted = [] /\
    length (sent st') = 1%nat.
Proof.
  do 3 eexists. split; [vm_compute; reflexivity|].
  split; [reflexivity|]. split; [vm_compute; reflexivity|].
  split; [reflexivity|]. split; [reflexivity|].
  split; [vm_compute; reflexivity|]. split; reflexivity.
Qed.

End VoiceClaims.

(** ** Whole runs, more of the codec, the session, the chat service *)

Module ScheduleFacts.
Import Codec Voice VoiceFacts Schedule.

Lemma handle_returns pf ev st : exists st', handle pf ev st = Ok st'.
Proof.
  destruct ev as [ok|granted| |promise fulfilled|m now| | |block|source| | |k granted|k|k block];
    cbn [handle]; eauto.
  - destruct (callbacks (heap st)); eauto.
  - destruct (callbacks (heap st)); [|eauto].
    destruct (handleServerMessage_effects pf m now st) as (st' & _ & E & _). eauto.
  - destruct (callbacks (heap st)); eauto.
  - destruct (callbacks (heap st)); eauto.
  - destruct (onaudioprocess (heap st)) as [cb|]; [|eauto].
    destruct (context_closed (cb_ctx cb) st); [eauto|].
    unfold audioprocess. destruct (cb_isMuted cb); [eauto|].
    rewrite PcmFacts.createPcmBlob_value. cbn [rbind]. eauto.
  - destruct (cleanup_ok pf st) as (st' & E & _). eauto.
  - destruct (earlierCallbacks (heap st) !! k); eauto.
  - destruct (earlierProcessors (heap st) !! k) as [cb|]; [|eauto].
    destruct (context_closed (cb_ctx cb) st); [eauto|].
    unfold audioprocess. destruct (cb_isMuted cb); [eauto|].
    rewrite PcmFacts.createPcmBlob_value. cbn [rbind]. eauto.
Qed.

Lemma step_returns pf ev st : exists st', step pf ev st = Ok st'.
Proof.
  destruct (handle_returns pf ev st) as (st' & E).
  exists (microtasks st'). now apply step_after_handle.
Qed.

Lemma run_returns pf evs st : exists st', run pf evs st = Ok st'.
Proof.
  revert st. induction evs as [|ev evs IH]; intros st; cbn [run]; [eauto|].
  destruct (step_returns pf ev st) as (st1 & E). rewrite E. cbn [rbind]. apply IH.
Qed.

(** The invariant only reads the active set and the nodes. *)
Lemma active_is_playing_frame st st' :
  activeSourcesRef (refs st') = activeSourcesRef (refs st) ->
  nodes (heap st') = nodes (heap st) ->
  active_is_playing st -> active_is_playing st'.
Proof.
  intros Ha Hn [Hnd Hiff]. unfold active_is_playing, playing, started_at in *.
  rewrite Ha, Hn. auto.
Qed.

Lemma active_is_playing_cleared st st' :
  activeSourcesRef (refs st') = [] ->
  (forall id, In id (activeSourcesRef (refs st)) -> playing st' id = false) ->
  (forall j, playing st' j = true -> playing st j = true) ->
  active_is_playing st -> active_is_playing st'.
Proof.
  intros Ha Hstop Hmono [_ Hiff]. split; rewrite Ha; [constructor|].
  intros id. split; [intros []|]. intros Hp.
  pose proof (Hmono id Hp) as Hold. apply Hiff in Hold.
  rewrite (Hstop id Hold) in Hp. discriminate.
Qed.

Lemma playing_snoc st st' x :
  nodes (heap st') = nodes (heap st) ++ [x] ->
  forall j, playing st' j =
    if Nat.eqb j (length (nodes (heap st)))
    then match node_state x with Scheduled _ => true | _ => false end
    else playing st j.
Proof.
  intros Hn j. unfold playing, started_at. rewrite Hn.
  destruct (Nat.eqb_spec j (length (nodes (heap st)))) as [->|Hne].
  - rewrite list_lookup_middle by reflexivity. now destruct (node_state x).
  - destruct (Nat.lt_ge_cases j (length (nodes (heap st)))) as [Hlt|Hge].
    + now rewrite lookup_app_l by exact Hlt.
    + rewrite !(proj2 (lookup_ge_None _ _)); [reflexivity| |].
      * exact Hge.
      * rewrite length_app. cbn. lia.
Qed.

Lemma playing_lt st j : playing st j = true -> (j < length (nodes (heap st)))%nat.
Proof.
  unfold playing, started_at. destruct (nodes (heap st) !! j) eqn:E; [|discriminate].
  intros _. eapply lookup_lt_Some, E.
Qed.

Lemma Set_add_fresh x s : ~ In x s -> Set_add x s = s ++ [x].
Proof.
  intros Hx. unfold Set_add.
  destruct (existsb (Nat.eqb x) s) eqn:E; [|reflexivity].
  apply existsb_exists in E. destruct E as (y & Hy & Hxy).
  apply Nat.eqb_eq in Hxy. now subst.
Qed.

(** What [playAudioChunk_schedule] does, whether [start] accepts the time
    or throws. *)
Lemma schedule_cases buf now st :
  let n := length (nodes (heap st)) in
  let t := start_time (nextStartTimeRef (refs st)) now in
  let st' := playAudioChunk_schedule buf now st in
  react st' = react st /\
  ((Qle_bool 0 t = true /\
    nodes (heap st') =
      nodes (heap st) ++ [{| node_buffer := buf; node_state := Scheduled t |}] /\
    activeSourcesRef (refs st') = Set_add n (activeSourcesRef (refs st)) /\
    nextStartTimeRef (refs st') = (t + duration buf)%Q) \/
   (Qle_bool 0 t = false /\
    nodes (heap st') =
      nodes (heap st) ++ [{| node_buffer := buf; node_state := Unscheduled |}] /\
    activeSourcesRef (refs st') = activeSourcesRef (refs st) /\
    nextStartTimeRef (refs st') = t)).
Proof.
  destruct st as [re [ic oc sr pr so on nx ac se] [nd cb ps cs fr ef]].
  unfold playAudioChunk_schedule, start_time. cbn.
  destruct (Qle_bool now nx) eqn:E; cbn; unfold source_start; cbn.
  - destruct (Qle_bool 0 nx) eqn:E0; cbn.
    + rewrite list_lookup_middle by reflexivity. cbn.
      rewrite alter_snoc. auto 10.
    + auto 10.
  - destruct (Qle_bool 0 now) eqn:E0; cbn.
    + rewrite list_lookup_middle by reflexivity. cbn.
      rewrite alter_snoc. auto 10.
    + auto 10.
Qed.

Lemma schedule_keeps_invariant buf now st :
  active_is_playing st -> active_is_playing (playAudioChunk_schedule buf now st).
Proof.
  intros [Hnd Hiff].
  assert (Hfresh : ~ In (length (nodes (heap st))) (activeSourcesRef (refs st))).
  { intros Hin. apply Hiff, playing_lt in Hin. lia. }
  destruct (schedule_cases buf now st) as (_ & [(_ & Hn & Ha & _)|(_ & Hn & Ha & _)]).
  - rewrite Set_add_fresh in Ha by exact Hfresh.
    split; rewrite Ha.
    + apply NoDup_ListNoDup, NoDup_app.
      split; [now apply NoDup_ListNoDup|]. split; [|apply NoDup_singleton].
      intros x Hx Hx'. apply list_elem_of_In in Hx, Hx'. destruct Hx' as [<-|[]].
      now apply Hfresh.
    + intros id. rewrite (playing_snoc _ _ _ Hn id). cbn. rewrite in_app_iff.
      destruct (Nat.eqb_spec id (length (nodes (heap st)))) as [->|Hne].
      * split; [reflexivity|]. intros _. right. now left.
      * rewrite Hiff. split; [intros [H|[H|[]]]; [exact H|congruence]|auto].
  - split; rewrite Ha; [exact Hnd|].
    intros id. rewrite (playing_snoc _ _ _ Hn id). cbn.
    destruct (Nat.eqb_spec id (length (nodes (heap st)))) as [->|Hne];
      [|apply Hiff].
    split; [intros H; now apply Hfresh in H | discriminate].
Qed.

Lemma flush_keeps_invariant pf st :
  active_is_playing st ->
  exists st', flush pf st = Ok st' /\ active_is_playing st' /\
              forall j, playing st' j = false.
Proof.
  intros Hinv. destruct (flush_ok pf st) as (st' & E & Ha & _ & _ & _ & Hstop & Hmono).
  exists st'. split; [exact E|].
  assert (Hinv' : active_is_playing st')
    by (eapply active_is_playing_cleared; eassumption).
  split; [exact Hinv'|]. intros j. destruct (playing st' j) eqn:Ep; [|reflexivity].
  apply Hinv' in Ep. rewrite Ha in Ep. destruct Ep.
Qed.

(** The guarded stops leave the rest of the heap alone. *)
Lemma forEach_try_stop_heap pf ids st :
  exists st',
    forEach ids (try_stop pf) st = Ok st' /\
    pendingStart (heap st') = pendingStart (heap st) /\
    callbacks (heap st') = callbacks (heap st) /\
    onaudioprocess (heap st') = onaudioprocess (heap st) /\
    fresh (heap st') = fresh (heap st).
Proof.
  revert st. induction ids as [|id ids IH]; intros st; [exists st; cbn; auto|].
  assert (H1 : exists st1, try_stop pf id st = Ok st1 /\
            pendingStart (heap st1) = pendingStart (heap st) /\
            callbacks (heap st1) = callbacks (heap st) /\
            onaudioprocess (heap st1) = onaudioprocess (heap st) /\
            fresh (heap st1) = fresh (heap st)).
  { unfold try_stop, source_stop.
    destruct (nodes (heap st) !! id) as [n|]; [|exists st; auto].
    destruct (node_state n); cbn; try (exists st; now auto);
      try (destruct (stop_again_throws pf); exists st; now auto).
    eexists. split; [reflexivity|]. cbn. auto. }
  destruct H1 as (st1 & E1 & Hp1 & Hc1 & Ho1 & Hf1).
  destruct (IH st1) as (st2 & E2 & Hp2 & Hc2 & Ho2 & Hf2).
  exists st2. cbn [forEach]. rewrite E1. cbn [rbind].
  split; [exact E2|]. repeat split; congruence.
Qed.

Lemma cleanup_frame pf st :
  exists st',
    cleanup pf st = Ok st' /\
    activeSourcesRef (refs st') = [] /\
    (forall id, In id (activeSourcesRef (refs st)) -> playing st' id = false) /\
    (forall j, playing st' j = true -> playing st j = true) /\
    pendingStart (heap st') = pendingStart (heap st) /\
    callbacks (heap st') = callbacks (heap st) /\
    onaudioprocess (heap st') = onaudioprocess (heap st) /\
    nextStartTimeRef (refs st') = nextStartTimeRef (refs st).
Proof.
  destruct st as [re [ic oc sr pr so on nx ac se] hp].
  unfold cleanup, stop_all. cbn [refs sessionPromiseRef].
  set (st0 := match se with Some session => _ | None => _ end).
  assert (H0 : refs st0 =
               {| inputContextRef := ic; outputContextRef := oc; streamRef := sr;
                  processorRef := pr; sourceRef := so; outputNodeRef := on;
                  nextStartTimeRef := nx; activeSourcesRef := ac;
                  sessionPromiseRef := None |} /\
               nodes (heap st0) = nodes hp /\
               pendingStart (heap st0) = pendingStart hp /\
               callbacks (heap st0) = callbacks hp /\
               onaudioprocess (heap st0) = onaudioprocess hp).
  { subst st0. now destruct se. }
  destruct H0 as (H0 & Hn0 & Hp0 & Hc0 & Ho0).
  destruct (forEach_try_stop pf (activeSourcesRef (refs st0)) st0)
    as (st1 & E & Hr & Hre & Hl & Hp & Hm).
  destruct (forEach_try_stop_heap pf (activeSourcesRef (refs st0)) st0)
    as (st1' & E' & Hps & Hcs & Hos & _).
  assert (st1' = st1) by congruence. subst st1'.
  rewrite E. cbn [rbind]. eexists. split; [reflexivity|].
  rewrite H0 in Hr, Hp. cbn in Hp.
  assert (Hm' : forall j, playing st1 j = true ->
                          playing {| react := re;
                                     refs := {| inputContextRef := ic;
                                                outputContextRef := oc; streamRef := sr;
                                                processorRef := pr; sourceRef := so;
                                                outputNodeRef := on;
                                                nextStartTimeRef := nx;
                                                activeSourcesRef := ac;
                                                sessionPromiseRef := se |};
                                     heap := hp |} j = true).
  { intros j Hj. apply Hm in Hj. unfold playing, started_at in *.
    now rewrite Hn0 in Hj. }
  destruct ic, oc, sr; cbn; repeat (rewrite Hr; cbn);
    (repeat split; try reflexivity; try exact Hp; try exact Hm'; congruence).
Qed.

Lemma cleanup_keeps_invariant pf st :
  active_is_playing st ->
  exists st', cleanup pf st = Ok st' /\ active_is_playing st'.
Proof.
  intros Hinv. destruct (cleanup_frame pf st) as (st' & E & Ha & Hstop & Hmono & _).
  exists st'. split; [exact E|]. eapply active_is_playing_cleared; eassumption.
Qed.

Lemma playing_node_finished st id j :
  playing (node_finished id st) j = playing st j && negb (Nat.eqb j id).
Proof.
  unfold node_finished.
  destruct (nodes (heap st) !! id) as [[b ns]|] eqn:E.
  - destruct ns; cbn [node_state];
      try (destruct (Nat.eqb_spec j id) as [->|Hne];
           [unfold playing, started_at; rewrite E; reflexivity
           |now rewrite andb_true_r]).
    unfold playing, started_at, set_node_state, upd_heap. cbn.
    destruct (Nat.eqb_spec j id) as [->|Hne].
    + rewrite list_lookup_alter_eq, E. cbn. now rewrite ?andb_false_r.
    + rewrite list_lookup_alter_ne by congruence. now rewrite ?andb_true_r.
  - destruct (Nat.eqb_spec j id) as [->|Hne]; [|now rewrite andb_true_r].
    unfold playing, started_at. now rewrite E.
Qed.

Lemma ended_keeps_invariant st id :
  active_is_playing st -> active_is_playing (onended id (node_finished id st)).
Proof.
  intros [Hnd Hiff].
  assert (Hact : activeSourcesRef (refs (onended id (node_finished id st))) =
                 Set_delete id (activeSourcesRef (refs st))).
  { unfold onended, node_finished.
    destruct (nodes (heap st) !! id) as [[b [|w| |]]|]; reflexivity. }
  assert (Hplay : forall j, playing (onended id (node_finished id st)) j =
                            playing st j && negb (Nat.eqb j id)).
  { intros j. rewrite <- playing_node_finished. reflexivity. }
  split; rewrite Hact; unfold Set_delete.
  - now apply List.NoDup_filter.
  - intros j. rewrite Hplay, filter_In, Hiff, andb_true_iff, !negb_true_iff.
    rewrite !Nat.eqb_neq. intuition congruence.
Qed.

Lemma message_keeps_invariant pf message now st :
  active_is_playing st ->
  exists st', handleServerMessage pf message now st = Ok st' /\ active_is_playing st'.
Proof.
  intros Hinv. unfold handleServerMessage.
  set (started := match inlineData message with
                  | Some (c :: base64Audio) => _ | _ => None end).
  set (st0 := match started with Some (Throw _) => perform ConsoleError st | _ => st end).
  assert (H0 : active_is_playing st0).
  { subst st0. destruct started as [[?|?]|]; exact Hinv. }
  assert (H1 : exists st1,
             (if interrupted message then flush pf st0 else Ok st0) = Ok st1 /\
             active_is_playing st1).
  { destruct (interrupted message); [|eauto].
    destruct (flush_keeps_invariant pf st0 H0) as (st1 & E & Hinv1 & _). eauto. }
  destruct H1 as (st1 & E1 & Hinv1). rewrite E1. cbn [rbind].
  destruct started as [[audioBuffer|e]|]; eexists; (split; [reflexivity|]);
    [now apply schedule_keeps_invariant | exact Hinv1 | exact Hinv1].
Qed.

Lemma handle_keeps_invariant pf ev st :
  active_is_playing st ->
  exists st', handle pf ev st = Ok st' /\ active_is_playing st'.
Proof.
  intros Hinv.
  assert (Hframe : forall st', activeSourcesRef (refs st') = activeSourcesRef (refs st) ->
                               nodes (heap st') = nodes (heap st) ->
                               exists st'', Ok st' = Ok st'' /\ active_is_playing st'').
  { intros st' Ha Hn. exists st'. split; [reflexivity|].
    eapply active_is_playing_frame; eassumption. }
  assert (Hopen : forall env, exists st'',
            Ok (reported (onOpen pf env st)) = Ok st'' /\ active_is_playing st'').
  { intros env.
    destruct (reported_frame (onOpen pf env st)) as (_ & Hr & Hn & _).
    destruct (setupAudioInput_frame pf env (setStatus connected st))
      as (_ & _ & Ha & _ & _ & _ & _ & _ & Hn' & _).
    unfold onOpen in *. apply Hframe; [now rewrite Hr, Ha | now rewrite Hn, Hn']. }
  assert (Hblock : forall cb block, exists st'',
            (if context_closed (cb_ctx cb) st then Ok st
             else audioprocess cb block st) = Ok st'' /\ active_is_playing st'').
  { intros cb block.
    destruct (context_closed (cb_ctx cb) st); [apply Hframe; reflexivity|].
    unfold audioprocess. destruct (cb_isMuted cb); [apply Hframe; reflexivity|].
    rewrite PcmFacts.createPcmBlob_value. cbn [rbind]. apply Hframe; reflexivity. }
  destruct ev as [ok|granted| |promise fulfilled|m now| | |block|source| | |k granted|k|k block];
    cbn [handle].
  - apply Hframe; destruct ok; reflexivity.
  - apply Hframe; unfold startSession_resume;
      destruct (pendingStart (heap st)); try destruct granted; reflexivity.
  - destruct (callbacks (heap st)) as [env|]; [apply Hopen|apply Hframe; reflexivity].
  - destruct (settle_frame promise fulfilled st) as (_ & Hr & Hn & _).
    apply Hframe; [now rewrite Hr | exact Hn].
  - destruct (callbacks (heap st)); [|apply Hframe; reflexivity].
    now apply message_keeps_invariant.
  - destruct (callbacks (heap st)); apply Hframe; reflexivity.
  - destruct (callbacks (heap st)); apply Hframe; reflexivity.
  - destruct (onaudioprocess (heap st)) as [cb|]; [apply Hblock|apply Hframe; reflexivity].
  - eexists. split; [reflexivity|]. now apply ended_keeps_invariant.
  - apply Hframe; reflexivity.
  - now apply cleanup_keeps_invariant.
  - apply Hframe; unfold startSession_resume_earlier;
      destruct (earlierStarts (heap st) !! k); try destruct granted; reflexivity.
  - destruct (earlierCallbacks (heap st) !! k) as [env|];
      [apply Hopen|apply Hframe; reflexivity].
  - destruct (earlierProcessors (heap st) !! k) as [cb|];
      [apply Hblock|apply Hframe; reflexivity].
Qed.

Lemma step_keeps_invariant pf ev st :
  active_is_playing st ->
  exists st', step pf ev st = Ok st' /\ active_is_playing st'.
Proof.
  intros Hinv. destruct (handle_keeps_invariant pf ev st Hinv) as (st' & E & Hinv').
  exists (microtasks st'). split; [now apply step_after_handle|].
  eapply active_is_playing_frame; [| |exact Hinv']; reflexivity.
Qed.

Lemma run_keeps_invariant pf evs st :
  active_is_playing st ->
  exists st', run pf evs st = Ok st' /\ active_is_playing st'.
Proof.
  revert st. induction evs as [|ev evs IH]; intros st Hinv; cbn [run]; [eauto|].
  destruct (step_keeps_invariant pf ev st Hinv) as (st1 & E & Hinv1).
  rewrite E. cbn [rbind]. now apply IH.
Qed.

Lemma initial_invariant : active_is_playing initial.
Proof.
  split; [constructor|]. intros id. split; [intros []|discriminate].
Qed.

(** *** Where exceptions escape *)

Lemma uncaught_app st st' new :
  effects (heap st') = effects (heap st) ++ new ->
  uncaught st' =
    uncaught st ++ flat_map (fun e => match e with Uncaught x => [x] | _ => [] end) new.
Proof. intros H. unfold uncaught. now rewrite H, flat_map_app. Qed.

Lemma uncaught_same st st' :
  effects (heap st') = effects (heap st) -> uncaught st' = uncaught st.
Proof. intros H. unfold uncaught. now rewrite H. Qed.

Lemma try_stop_uncaught pf id st :
  exists st', try_stop pf id st = Ok st' /\ uncaught st' = uncaught st /\
              refs st' = refs st.
Proof.
  unfold try_stop, source_stop.
  destruct (nodes (heap st) !! id) as [n|]; [|eauto].
  destruct (node_state n); cbn; eauto;
    try (destruct (stop_again_throws pf); now eauto).
  eexists. split; [reflexivity|]. split; [|reflexivity].
  erewrite uncaught_app by reflexivity. cbn. apply app_nil_r.
Qed.

Lemma forEach_try_stop_uncaught pf ids st :
  exists st', forEach ids (try_stop pf) st = Ok st' /\ uncaught st' = uncaught st /\
              refs st' = refs st.
Proof.
  revert st. induction ids as [|id ids IH]; intros st; [eauto|].
  destruct (try_stop_uncaught pf id st) as (st1 & E1 & H1 & Hr1).
  destruct (IH st1) as (st2 & E2 & H2 & Hr2).
  exists st2. cbn [forEach]. rewrite E1. cbn [rbind].
  split; [exact E2|]. split; congruence.
Qed.

Lemma flush_uncaught pf st :
  exists st', flush pf st = Ok st' /\ uncaught st' = uncaught st.
Proof.
  unfold flush, stop_all.
  destruct (forEach_try_stop_uncaught pf (activeSourcesRef (refs st)) st)
    as (st1 & E & H & _).
  rewrite E. cbn [rbind]. eexists. split; [reflexivity|]. exact H.
Qed.

Lemma cleanup_uncaught pf st :
  exists st', cleanup pf st = Ok st' /\ uncaught st' = uncaught st.
Proof.
  unfold cleanup, stop_all.
  set (st0 := match sessionPromiseRef (refs st) with Some session => _ | None => _ end).
  assert (H0 : uncaught st0 = uncaught st)
    by (subst st0; now destruct (sessionPromiseRef (refs st))).
  destruct (forEach_try_stop_uncaught pf (activeSourcesRef (refs st0)) st0)
    as (st1 & E & H & Hr).
  rewrite E. cbn [rbind]. eexists. split; [reflexivity|].
  rewrite <- H0, <- H. clear.
  destruct st1 as [re [ic oc sr pr so on nx ac se] hp].
  destruct ic, oc, sr; unfold uncaught; cbn; rewrite ?flat_map_app; cbn;
    now rewrite ?app_nil_r.
Qed.

Lemma schedule_uncaught buf now st :
  uncaught (playAudioChunk_schedule buf now st) = uncaught st.
Proof.
  destruct (schedule_effects buf now st) as (new & He & _).
  assert (Hnew : new = [ConsoleError] \/ exists id t, new = [NodeStart id t]).
  { revert He. destruct st as [re [ic oc sr pr so on nx ac se] [nd cb ps cs fr ef sd rs]].
    unfold playAudioChunk_schedule. cbn.
    destruct (Qle_bool now nx) eqn:E; cbn; unfold source_start; cbn.
    - destruct (Qle_bool 0 nx); cbn.
      + rewrite list_lookup_middle by reflexivity. cbn. intros He.
        apply app_inv_head in He. eauto.
      + intros He. apply app_inv_head in He. eauto.
    - destruct (Qle_bool 0 now); cbn.
      + rewrite list_lookup_middle by reflexivity. cbn. intros He.
        apply app_inv_head in He. eauto.
      + intros He. apply app_inv_head in He. eauto. }
  rewrite (uncaught_app st _ new He).
  destruct Hnew as [->|(id & t & ->)]; cbn; apply app_nil_r.
Qed.

Lemma handleServerMessage_uncaught pf message now st :
  exists st', handleServerMessage pf message now st = Ok st' /\
              uncaught st' = uncaught st.
Proof.
  unfold handleServerMessage.
  set (started := match inlineData message with
                  | Some (c :: base64Audio) => _ | _ => None end).
  set (st0 := match started with Some (Throw _) => perform ConsoleError st | _ => st end).
  assert (H0 : uncaught st0 = uncaught st).
  { subst st0. destruct started as [[?|?]|]; try reflexivity.
    erewrite uncaught_app by reflexivity. cbn. apply app_nil_r. }
  assert (H1 : exists st1,
             (if interrupted message then flush pf st0 else Ok st0) = Ok st1 /\
             uncaught st1 = uncaught st0).
  { destruct (interrupted message); [apply flush_uncaught|eauto]. }
  destruct H1 as (st1 & E1 & H1). rewrite E1. cbn [rbind].
  destruct started as [[audioBuffer|e]|]; eexists; (split; [reflexivity|]);
    rewrite ?schedule_uncaught; congruence.
Qed.

Lemma audioprocess_uncaught cb inputData st :
  exists st', audioprocess cb inputData st = Ok st' /\ uncaught st' = uncaught st.
Proof.
  unfold audioprocess. destruct (cb_isMuted cb); [eauto|].
  rewrite PcmFacts.createPcmBlob_value. cbn [rbind]. eauto.
Qed.

Lemma microtasks_uncaught st : uncaught (microtasks st) = uncaught st.
Proof.
  rewrite (uncaught_app st _ _ (microtasks_effects st)).
  rewrite <- (app_nil_r (uncaught st)) at 2. f_equal.
  induction (reactions (heap st)) as [|r rs IH]; [reflexivity|].
  cbn [flat_map]. rewrite flat_map_app, IH, app_nil_r.
  unfold reaction_calls.
  destruct (promise_state (fst r) st) as [[|]|], (snd r); reflexivity.
Qed.

(** What [setupAudioInput] does on each engine. *)
Lemma onOpen_cases pf env st :
  let st1 := setStatus connected st in
  match onOpen pf env st with
  | Returns st' =>
      onaudioprocess (heap st') =
        Some {| cb_ctx := ce_inputCtx env; cb_isMuted := ce_isMuted env;
                cb_session := ce_session env |} /\
      sourceRef (refs st') = Some (fresh (heap st)) /\
      processorRef (refs st') = Some (S (fresh (heap st)))
  | Escapes e st' =>
      exists call st0, graph_error pf call st0 = Some e
  end /\
  status (react (state_of (onOpen pf env st))) = connected /\
  uncaught (state_of (onOpen pf env st)) = uncaught st /\
  (forall e, graph_error pf CreateMediaStreamSource st1 = Some e ->
             onOpen pf env st = Escapes e st1).
Proof.
  cbn zeta. unfold onOpen, setupAudioInput, graph_call.
  destruct (graph_error pf CreateMediaStreamSource (setStatus connected st)) eqn:E1;
    cbn.
  { split; [eauto|]. split; [reflexivity|]. split; [reflexivity|].
    intros e0 H. now inversion H. }
  destruct (graph_error pf CreateScriptProcessor _) eqn:E2; cbn.
  { split; [eauto|]. split; [reflexivity|]. split; [reflexivity|]. discriminate. }
  destruct (graph_error pf ConnectSource _) eqn:E3; cbn.
  { split; [eauto|]. split; [reflexivity|]. split; [reflexivity|]. discriminate. }
  destruct (graph_error pf ConnectProcessor _) eqn:E4; cbn.
  { split; [eauto|]. split; [reflexivity|]. split; [reflexivity|]. discriminate. }
  split; [auto|]. split; [reflexivity|]. split; [reflexivity|]. discriminate.
Qed.

Lemma handle_uncaught pf ev st :
  exists st', handle pf ev st = Ok st' /\
    forall e, In e (uncaught st') ->
              In e (uncaught st) \/ exists call st0, graph_error pf call st0 = Some e.
Proof.
  assert (Hsame : forall st', uncaught st' = uncaught st ->
            exists st'', Ok st' = Ok st'' /\
              forall e, In e (uncaught st'') ->
                In e (uncaught st) \/ exists call st0, graph_error pf call st0 = Some e).
  { intros st' H. exists st'. split; [reflexivity|]. intros e He. left. congruence. }
  assert (Hlog : forall s, uncaught (perform ConsoleError s) = uncaught s).
  { intros s. erewrite uncaught_app by reflexivity. cbn. apply app_nil_r. }
  assert (Hopen : forall env, exists st'',
            Ok (reported (onOpen pf env st)) = Ok st'' /\
            forall e, In e (uncaught st'') ->
              In e (uncaught st) \/ exists call st0, graph_error pf call st0 = Some e).
  { intros env. destruct (onOpen_cases pf env st) as (Hc & _ & Hu & _).
    destruct (onOpen pf env st) as [st'|e st'] eqn:E; cbn [reported state_of] in *.
    + now apply Hsame.
    + eexists. split; [reflexivity|]. intros e0 He0.
      erewrite uncaught_app in He0 by reflexivity. cbn in He0.
      apply in_app_or in He0. destruct He0 as [He0|[<-|[]]].
      * left. congruence.
      * right. exact Hc. }
  assert (Hresumed : forall env granted s,
            uncaught s = uncaught st ->
            uncaught (startSession_resumed env granted s) = uncaught st).
  { intros env granted s Hs. destruct granted; [exact Hs|].
    unfold startSession_resumed.
    rewrite uncaught_same with (st := perform ConsoleError s) by reflexivity.
    now rewrite Hlog. }
  assert (Hblock : forall cb block, exists st'',
            (if context_closed (cb_ctx cb) st then Ok st
             else audioprocess cb block st) = Ok st'' /\
            forall e, In e (uncaught st'') ->
              In e (uncaught st) \/ exists call st0, graph_error pf call st0 = Some e).
  { intros cb block. destruct (context_closed (cb_ctx cb) st); [now apply Hsame|].
    destruct (audioprocess_uncaught cb block st) as (st' & -> & H).
    now apply Hsame. }
  destruct ev as [ok|granted| |promise fulfilled|m now| | |block|source| | |k granted|k|k block];
    cbn [handle].
  - apply Hsame. destruct ok; [reflexivity|]. unfold startSession.
    rewrite uncaught_same with (st := perform ConsoleError _) by reflexivity.
    rewrite Hlog. reflexivity.
  - apply Hsame. unfold startSession_resume.
    destruct (pendingStart (heap st)); [|reflexivity]. now apply Hresumed.
  - destruct (callbacks (heap st)) as [env|]; [apply Hopen|now apply Hsame].
  - apply Hsame. apply uncaught_same.
    now destruct (settle_frame promise fulfilled st) as (_ & _ & _ & He & _).
  - destruct (callbacks (heap st)); [|now apply Hsame].
    destruct (handleServerMessage_uncaught pf m now st) as (st' & -> & H).
    now apply Hsame.
  - destruct (callbacks (heap st)); now apply Hsame.
  - destruct (callbacks (heap st)); [|now apply Hsame].
    apply Hsame. rewrite Hlog. reflexivity.
  - destruct (onaudioprocess (heap st)) as [cb|]; [apply Hblock|now apply Hsame].
  - apply Hsame. apply uncaught_same. unfold onended, node_finished.
    destruct (nodes (heap st) !! source) as [[b [|w| |]]|]; reflexivity.
  - now apply Hsame.
  - destruct (cleanup_uncaught pf st) as (st' & -> & H). now apply Hsame.
  - apply Hsame. unfold startSession_resume_earlier.
    destruct (earlierStarts (heap st) !! k); [|reflexivity]. now apply Hresumed.
  - destruct (earlierCallbacks (heap st) !! k) as [env|]; [apply Hopen|now apply Hsame].
  - destruct (earlierProcessors (heap st) !! k) as [cb|]; [apply Hblock|now apply Hsame].
Qed.

Lemma run_uncaught pf evs st :
  exists st', run pf evs st = Ok st' /\
    forall e, In e (uncaught st') ->
              In e (uncaught st) \/ exists call st0, graph_error pf call st0 = Some e.
Proof.
  revert st. induction evs as [|ev evs IH]; intros st; cbn [run]; [eauto|].
  destruct (handle_uncaught pf ev st) as (st1 & E1 & H1).
  rewrite (step_after_handle pf ev st st1 E1). cbn [rbind].
  destruct (IH (microtasks st1)) as (st2 & E2 & H2).
  exists st2. split; [exact E2|]. intros e He.
  destruct (H2 e He) as [Hin|Hg]; [|now right].
  rewrite microtasks_uncaught in Hin. now apply H1.
Qed.

Lemma start_time_ge_cursor cursor now : (cursor <= start_time cursor now)%Q.
Proof.
  unfold start_time. destruct (Qle_bool now cursor) eqn:E; cbn; [apply Qle_refl|].
  destruct (Qlt_le_dec cursor now) as [H|H]; [now apply Qlt_le_weak|].
  apply Qle_bool_iff in H. congruence.
Qed.

Lemma enqueue_all_nodes chunks st :
  Forall (fun c => (0 <= snd c)%Q) chunks ->
  nodes (heap (enqueue_all chunks st)) =
    nodes (heap st) ++
    zip_with (fun c t => {| node_buffer := fst c; node_state := Scheduled t |})
             chunks (start_times (nextStartTimeRef (refs st)) chunks).
Proof.
  intros Hnn. revert st. induction Hnn as [|[buf now] chunks Hnow _ IH]; intros st.
  - cbn. now rewrite app_nil_r.
  - cbn [enqueue_all fold_left fst snd start_times zip_with]. cbn [snd] in Hnow.
    fold (enqueue_all chunks (playAudioChunk_schedule buf now st)).
    rewrite IH.
    destruct (schedule_spec buf now st Hnow) as (_ & Hc & _ & Hn & _).
    rewrite Hn, Hc, <- app_assoc. reflexivity.
Qed.

Lemma start_times_length cursor chunks :
  length (start_times cursor chunks) = length chunks.
Proof.
  revert cursor. induction chunks as [|[b now] r IH]; intros cursor; cbn; [reflexivity|].
  now rewrite IH.
Qed.

Lemma start_times_consecutive cursor chunks k b now b' now' :
  chunks !! k = Some (b, now) ->
  chunks !! S k = Some (b', now') ->
  exists t t',
    start_times cursor chunks !! k = Some t /\
    start_times cursor chunks !! S k = Some t' /\
    (now <= t)%Q /\
    t' = start_time (t + duration b) now'.
Proof.
  revert cursor chunks. induction k as [|k IH]; intros cursor chunks H1 H2.
  - destruct chunks as [|[b0 now0] [|[b1 now1] r]]; try discriminate.
    cbn in H1, H2. inversion H1; inversion H2; subst.
    cbn. do 2 eexists. repeat split. apply start_time_ge.
  - destruct chunks as [|[b0 now0] r]; [discriminate|].
    cbn in H1, H2. cbn [start_times].
    destruct (IH (start_time cursor now0 + duration b0)%Q r H1 H2)
      as (t & t' & E1 & E2 & Hge & Ht').
    exists t, t'. auto.
Qed.
End ScheduleFacts.

Module ScheduleProps.
Import Codec Voice VoiceFacts Schedule ScheduleFacts.

(** X1.  An exception escapes a callback of the component only from
    [onOpen], and only when the platform refuses one of the four calls that
    [setupAudioInput] makes into the audio graph, none of which is inside a
    [try]: it is that call's exception, and the status is [connected] all
    the same.  When the first call is refused nothing else of the setup
    has happened; on an engine that refuses none, [onOpen] returns with
    both capture handles set and the capture callback installed.  The
    teardown, the message handler and the capture callback return in every
    state on every engine.  Over any sequence of events, every exception
    the platform reports is one a graph call was refused with. *)
Theorem exceptions_escape_only_from_setup pf :
  (forall st, exists st', cleanup pf st = Ok st') /\
  (forall message now st, exists st', handleServerMessage pf message now st = Ok st') /\
  (forall cb inputData st, exists st', audioprocess cb inputData st = Ok st') /\
  (forall env st e st',
     onOpen pf env st = Escapes e st' ->
     status (react st') = connected /\
     exists call st0, graph_error pf call st0 = Some e) /\
  (forall env st e,
     graph_error pf CreateMediaStreamSource (setStatus connected st) = Some e ->
     onOpen pf env st = Escapes e (setStatus connected st)) /\
  (forall env st,
     (forall call st0, graph_error pf call st0 = None) ->
     exists st',
       onOpen pf env st = Returns st' /\
       sourceRef (refs st') = Some (fresh (heap st)) /\
       processorRef (refs st') = Some (S (fresh (heap st))) /\
       onaudioprocess (heap st') =
         Some {| cb_ctx := ce_inputCtx env; cb_isMuted := ce_isMuted env;
                 cb_session := ce_session env |}) /\
  (forall evs st,
     exists st',
       run pf evs st = Ok st' /\
       forall e, In e (uncaught st') ->
                 In e (uncaught st) \/
                 exists call st0, graph_error pf call st0 = Some e).
Proof.
  split; [|split; [|split; [|split; [|split; [|split]]]]].
  - intros st. destruct (cleanup_ok pf st) as (st' & E & _). eauto.
  - intros m now st.
    destruct (handleServerMessage_effects pf m now st) as (st' & _ & E & _). eauto.
  - intros cb inputData st.
    destruct (audioprocess_uncaught cb inputData st) as (st' & E & _). eauto.
  - intros env st e st' E.
    destruct (onOpen_cases pf env st) as (Hc & Hs & _). rewrite E in Hc, Hs.
    split; [exact Hs | exact Hc].
  - intros env st e He. now apply (onOpen_cases pf env st).
  - intros env st Hnone.
    destruct (onOpen_cases pf env st) as (Hc & _).
    destruct (onOpen pf env st) as [st'|e st'].
    + exists st'. split; [reflexivity|]. tauto.
    + destruct Hc as (call & st0 & Hc). rewrite Hnone in Hc. discriminate.
  - intros evs st. apply run_uncaught.
Qed.

Lemma exceptions_escape_only_from_setup_witness :
  let env := {| ce_inputCtx := 0; ce_stream := 3; ce_session := 4;
                ce_outputCtx := 1; ce_outNode := 2; ce_isMuted := false |} in
  onOpen no_source_engine env initial =
    Escapes NotSupportedError (setStatus connected initial) /\
  exists st',
    onOpen strict_engine env initial = Returns st' /\
    sourceRef (refs st') = Some (fresh (heap initial)) /\
    processorRef (refs st') = Some (S (fresh (heap initial))) /\
    onaudioprocess (heap st') =
      Some {| cb_ctx := 0; cb_isMuted := false; cb_session := 4 |}.
Proof.
  intros env.
  destruct (exceptions_escape_only_from_setup no_source_engine)
    as (_ & _ & _ & _ & Hfirst & _).
  destruct (exceptions_escape_only_from_setup strict_engine)
    as (_ & _ & _ & _ & _ & Hnone & _).
  split; [now apply Hfirst|]. apply (Hnone env initial). reflexivity.
Defined.

(** On an engine that cannot join the microphone stream to the input
    context, the session still shows as connected; the exception has
    escaped [onOpen], no capture callback is installed, and a captured
    block goes nowhere. *)
Lemma connected_without_capture :
  exists st st',
    run no_source_engine connect_events initial = Ok st /\
    status (react st) = connected /\
    uncaught st = [NotSupportedError] /\
    onaudioprocess (heap st) = None /\
    sourceRef (refs st) = None /\
    step no_source_engine (AudioProcess [1 # 2; 1 # 2]%Q) st = Ok st' /\
    sent st' = [].
Proof.
  do 2 eexists. split; [vm_compute; reflexivity|]. split; [reflexivity|].
  split; [reflexivity|]. split; [reflexivity|]. split; [reflexivity|].
  split; [vm_compute; reflexivity|]. reflexivity.
Qed.

(** X2.  After any sequence of events on a mounted component, the active
    set holds no node twice, and a node is in it exactly when it was started
    and has neither ended nor been stopped. *)
Theorem active_set_is_playing_nodes pf evs :
  exists st,
    run pf evs initial = Ok st /\
    List.NoDup (activeSourcesRef (refs st)) /\
    forall id, In id (activeSourcesRef (refs st)) <-> playing st id = true.
Proof.
  destruct (run_keeps_invariant pf evs initial initial_invariant) as (st & E & Hinv).
  exists st. split; [exact E | exact Hinv].
Qed.

(** X3.  When any number of decoded chunks are enqueued one after the
    other, each at a clock reading that is not negative, every chunk starts
    no earlier than its own clock reading and no earlier than the end of the
    chunk before it; it starts exactly at that end whenever its clock
    reading has not passed it. *)
Theorem chunks_never_overlap chunks st k b now b' now' :
  Forall (fun c => (0 <= snd c)%Q) chunks ->
  chunks !! k = Some (b, now) ->
  chunks !! S k = Some (b', now') ->
  let n := length (nodes (heap st)) in
  let st' := enqueue_all chunks st in
  exists t t',
    started_at st' (n + k) = Some t /\
    started_at st' (n + S k) = Some t' /\
    (now <= t)%Q /\
    (t + duration b <= t')%Q /\
    t' = start_time (t + duration b) now' /\
    ((now' <= t + duration b)%Q -> t' = (t + duration b)%Q).
Proof.
  intros Hnn H1 H2 n st'. subst n st'.
  destruct (start_times_consecutive (nextStartTimeRef (refs st)) chunks k b now b' now'
              H1 H2) as (t & t' & E1 & E2 & Hge & Ht').
  exists t, t'.
  assert (Hlook : forall i c ti,
            chunks !! i = Some c ->
            start_times (nextStartTimeRef (refs st)) chunks !! i = Some ti ->
            started_at (enqueue_all chunks st) (length (nodes (heap st)) + i) = Some ti).
  { intros i c ti Hc Hti. unfold started_at.
    rewrite enqueue_all_nodes by exact Hnn.
    rewrite lookup_app_r by lia.
    replace (length (nodes (heap st)) + i - length (nodes (heap st)))%nat with i by lia.
    rewrite lookup_zip_with, Hc. cbn. now rewrite Hti. }
  split; [eapply Hlook; eassumption|]. split; [eapply Hlook; eassumption|].
  split; [exact Hge|]. split; [rewrite Ht'; apply start_time_ge_cursor|].
  split; [exact Ht'|]. intros Hle. rewrite Ht'. now apply start_time_on_time.
Qed.
Lemma chunks_never_overlap_witness :
  let c1 := {| channelData := [0; 0]%Q; sampleRate := 24000 |} in
  let c2 := {| channelData := [0]%Q; sampleRate := 24000 |} in
  let st' := enqueue_all [(c1, 1%Q); (c2, 1%Q)] initial in
  exists t t',
    started_at st' 0 = Some t /\
    started_at st' 1 = Some t' /\
    (1 <= t)%Q /\
    (t + duration c1 <= t')%Q /\
    t' = start_time (t + duration c1) 1 /\
    ((1 <= t + duration c1)%Q -> t' = (t + duration c1)%Q).
Proof.
  apply (chunks_never_overlap
           [({| channelData := [0; 0]%Q; sampleRate := 24000 |}, 1%Q);
            ({| channelData := [0]%Q; sampleRate := 24000 |}, 1%Q)]
           initial 0
           {| channelData := [0; 0]%Q; sampleRate := 24000 |} 1%Q
           {| channelData := [0]%Q; sampleRate := 24000 |} 1%Q).
  - repeat constructor; discriminate.
  - reflexivity.
  - reflexivity.
Defined.
End ScheduleProps.

Module CodecMore.
Import Codec CodecSpec Voice VoiceFacts Schedule ScheduleFacts.

(** *** Base64 failures and shape *)

Lemma strip_padding_keeps data c :
  In c data -> c <> pad_char -> In c (strip_padding data).
Proof.
  intros Hin Hne. unfold strip_padding.
  assert (Hrev : In c (rev data)) by now apply in_rev in Hin.
  destruct (rev data) as [|c1 r1] eqn:E; [exact Hin|].
  destruct (Z.eqb_spec c1 pad_char) as [->|_]; [|exact Hin].
  destruct Hrev as [<-|Hr1]; [congruence|].
  destruct r1 as [|c2 r2]; [destruct Hr1|].
  destruct (Z.eqb_spec c2 pad_char) as [->|_]; [|now apply in_rev in Hr1].
  destruct Hr1 as [<-|Hr2]; [congruence|]. now apply in_rev in Hr2.
Qed.

Lemma sextets_foreign data c :
  In c data -> b64_index c = None -> sextets data = None.
Proof.
  induction data as [|d data IH]; intros Hin Hc; [destruct Hin|].
  cbn [sextets]. destruct Hin as [->|Hin].
  - now rewrite Hc.
  - rewrite (IH Hin Hc). now destruct (b64_index d).
Qed.

Lemma atob_foreign data c :
  In c data -> is_ascii_whitespace c = false -> b64_index c = None ->
  c <> pad_char -> atob data = Throw InvalidCharacterError.
Proof.
  intros Hin Hws Hidx Hpad. unfold atob.
  set (d1 := List.filter _ data).
  assert (H1 : In c d1) by (apply filter_In; split; [exact Hin | now rewrite Hws]).
  set (d2 := if (length d1 mod 4 =? 0)%nat then strip_padding d1 else d1).
  assert (H2 : In c d2).
  { subst d2. destruct (length d1 mod 4 =? 0)%nat; [|exact H1].
    now apply strip_padding_keeps. }
  destruct (length d2 mod 4 =? 1)%nat; [reflexivity|].
  now rewrite (sextets_foreign d2 c H2 Hidx).
Qed.

Lemma b64_encode_length l :
  length (b64_encode l) = (4 * ((length l + 2) / 3))%nat.
Proof.
  induction l as [|a|a b|a b c l IH] using Base64Facts.list_ind3; try reflexivity.
  cbn [b64_encode length]. rewrite IH.
  replace (S (S (S (length l))) + 2)%nat with ((length l + 2) + 1 * 3)%nat by lia.
  rewrite Nat.div_add by lia. lia.
Qed.

Lemma b64_encode_alphabet l :
  Forall (fun b => 0 <= b < 256) l ->
  Forall (fun c => b64_index c <> None \/ c = pad_char) (b64_encode l).
Proof.
  intros Hl. rewrite Base64Facts.b64_encode_split. apply Forall_app. split.
  - pose proof (Base64Facts.b64_body_range l Hl) as Hr.
    apply Forall_forall. intros c Hc. apply list_elem_of_In, in_map_iff in Hc.
    destruct Hc as (s & <- & Hs). left.
    rewrite Forall_forall in Hr. apply list_elem_of_In in Hs.
    now rewrite Base64Facts.b64_index_char by auto.
  - unfold b64_padding.
    destruct (length l mod 3)%nat as [|[|[|?]]]; repeat constructor; now right.
Qed.

(** *** PCM: decoding, clipping, order *)

Lemma list_ind2 {A} (P : list A -> Prop) :
  P [] -> (forall a, P [a]) -> (forall a b l, P l -> P (a :: b :: l)) ->
  forall l, P l.
Proof.
  intros H0 H1 H2. fix IH 1.
  intros [|a [|b l]]; [exact H0 | apply H1 | apply H2, IH].
Qed.

Lemma int16_view_length buf :
  Nat.even (length buf) = true -> (2 * length (int16_view buf))%nat = length buf.
Proof.
  induction buf as [|a|a b l IH] using list_ind2; intros He.
  - reflexivity.
  - discriminate.
  - cbn [int16_view length] in *. specialize (IH He). lia.
Qed.

Lemma int16_of_bytes_range lo hi : -32768 <= int16_of_bytes lo hi <= 32767.
Proof.
  unfold int16_of_bytes.
  pose proof (byte_to_Z_range lo). pose proof (byte_to_Z_range hi).
  destruct (Z.leb_spec 32768 (byte_to_Z lo + 256 * byte_to_Z hi)); lia.
Qed.

Lemma int16_view_range buf : Forall (fun v => -32768 <= v <= 32767) (int16_view buf).
Proof.
  induction buf as [|a|a b l IH] using list_ind2; cbn [int16_view]; constructor;
    [apply int16_of_bytes_range | exact IH].
Qed.

Lemma truncate_le q1 q2 : (q1 <= q2)%Q -> truncate q1 <= truncate q2.
Proof.
  intros Hle. pose proof (Qfloor_resp_le _ _ Hle) as Hfl.
  assert (Hop : (- q2 <= - q1)%Q) by now apply Qopp_le_compat.
  pose proof (Qfloor_resp_le _ _ Hop) as Hcl.
  destruct q1 as [n1 d1], q2 as [n2 d2]. unfold truncate, Qle in *. cbn in *.
  destruct (Z_lt_le_dec n1 0) as [Hn1|Hn1], (Z_lt_le_dec n2 0) as [Hn2|Hn2].
  - replace n1 with (- - n1) by lia. replace n2 with (- - n2) by lia.
    rewrite !(Z.quot_opp_l (- _)) by lia.
    rewrite !Z.quot_div_nonneg by lia. lia.
  - replace n1 with (- - n1) by lia. rewrite (Z.quot_opp_l (- _)) by lia.
    rewrite !Z.quot_div_nonneg by lia.
    pose proof (Z.div_pos (- n1) (Z.pos d1)). pose proof (Z.div_pos n2 (Z.pos d2)). lia.
  - exfalso. nia.
  - rewrite !Z.quot_div_nonneg by lia. exact Hfl.
Qed.

Lemma Qle_bool_false x y : Qle_bool x y = false -> (y < x)%Q.
Proof.
  intros H. apply Qnot_le_lt. intros Hle. apply Qle_bool_iff in Hle. congruence.
Qed.

Lemma Qle_bool_spec x y : BoolSpec (x <= y)%Q (y < x)%Q (Qle_bool x y).
Proof.
  destruct (Qle_bool x y) eqn:E; constructor;
    [now apply Qle_bool_iff | now apply Qle_bool_false].
Qed.

Lemma clamp_le x y : (x <= y)%Q -> (clamp x <= clamp y)%Q.
Proof.
  intros Hxy. unfold clamp. destruct x as [n1 d1], y as [n2 d2].
  destruct (Qle_bool_spec 1 (n1 # d1)), (Qle_bool_spec 1 (n2 # d2)),
    (Qle_bool_spec (n1 # d1) (-1)), (Qle_bool_spec (n2 # d2) (-1));
    unfold Qle, Qlt in *; cbn in *; nia.
Qed.

Lemma scaled_le s1 s2 :
  (s1 <= s2)%Q ->
  ((if negb (Qle_bool 0 s1) then s1 * 32768 else s1 * 32767) <=
   (if negb (Qle_bool 0 s2) then s2 * 32768 else s2 * 32767))%Q.
Proof.
  intros Hle. destruct s1 as [n1 d1], s2 as [n2 d2].
  destruct (Qle_bool_spec 0 (n1 # d1)), (Qle_bool_spec 0 (n2 # d2));
    cbn [negb]; unfold Qle, Qlt in *; cbn in *; nia.
Qed.

Lemma pcm16_of_sample_le x y :
  (x <= y)%Q -> pcm16_of_sample x <= pcm16_of_sample y.
Proof.
  intros Hxy. unfold pcm16_of_sample. apply truncate_le, scaled_le, clamp_le, Hxy.
Qed.

Lemma pcm16_of_sample_high x : (1 <= x)%Q -> pcm16_of_sample x = 32767.
Proof.
  intros H. unfold pcm16_of_sample, clamp. apply Qle_bool_iff in H. now rewrite H.
Qed.

Lemma pcm16_of_sample_low x : (x <= -1)%Q -> pcm16_of_sample x = -32768.
Proof.
  intros H. unfold pcm16_of_sample, clamp.
  assert (H1 : Qle_bool 1 x = false).
  { destruct (Qle_bool 1 x) eqn:E; [|reflexivity]. apply Qle_bool_iff in E.
    exfalso. assert (Hc : (1 <= -1)%Q) by (eapply Qle_trans; eassumption).
    now apply Hc. }
  apply Qle_bool_iff in H. now rewrite H1, H.
Qed.

Lemma pcm16_of_decoded v :
  -32768 <= v <= 32767 ->
  pcm16_of_sample (inject_Z v / 32768) = if v <=? 0 then v else v - 1.
Proof.
  intros Hv. change (inject_Z v / 32768)%Q with (v * 1 # 32768).
  unfold pcm16_of_sample, clamp.
  destruct (Qle_bool_spec 1 (v * 1 # 32768)) as [H1|H1];
    [unfold Qle in H1; cbn in H1; lia|].
  destruct (Qle_bool_spec (v * 1 # 32768) (-1)) as [H2|H2].
  - unfold Qle in H2. cbn in H2. assert (v = -32768) by lia. subst. reflexivity.
  - unfold Qlt in H1, H2. cbn in H1, H2.
    destruct (Qle_bool_spec 0 (v * 1 # 32768)) as [H3|H3]; cbn [negb];
      unfold Qle, Qlt in H3; cbn in H3;
      unfold truncate, Qmult; cbn [Qnum Qden];
      destruct (Z.leb_spec v 0); Z.quot_rem_to_equations; lia.
Qed.
Lemma decodeRawPcm_value (arrayBuffer : list byte) :
  Nat.even (length arrayBuffer) = true ->
  arrayBuffer <> [] ->
  decodeRawPcm arrayBuffer =
    Ok {| channelData := map (fun v => (inject_Z v / 32768)%Q) (int16_view arrayBuffer);
          sampleRate := 24000 |}.
Proof.
  intros He Hne. rewrite CodecLoops.decodeRawPcm_map. unfold new_Int16Array.
  rewrite He. cbn [rbind].
  pose proof (int16_view_length arrayBuffer He) as Hlen.
  destruct (length (int16_view arrayBuffer) =? 0)%nat eqn:E0; [|reflexivity].
  apply Nat.eqb_eq in E0. rewrite E0 in Hlen.
  destruct arrayBuffer; [congruence|discriminate].
Qed.
End CodecMore.

Module CodecProps.
Import Codec CodecSpec Voice VoiceFacts Schedule ScheduleFacts CodecMore.

(** X5.  A text with a character that is neither in the base64 alphabet
    nor ASCII whitespace nor [=] is refused by [base64ToArrayBuffer] with
    an [InvalidCharacterError]; [playAudioChunk] logs it and schedules
    nothing. *)
Theorem foreign_character_is_rejected data c :
  In c data ->
  is_ascii_whitespace c = false -> b64_index c = None -> c <> pad_char ->
  base64ToArrayBuffer data = Throw InvalidCharacterError /\
  forall now st, playAudioChunk data now st = perform ConsoleError st.
Proof.
  intros Hin Hws Hidx Hpad.
  assert (H : base64ToArrayBuffer data = Throw InvalidCharacterError).
  { rewrite CodecLoops.base64ToArrayBuffer_atob.
    now rewrite (atob_foreign data c Hin Hws Hidx Hpad). }
  split; [exact H|]. intros now st.
  unfold playAudioChunk, playAudioChunk_decode. now rewrite H.
Qed.

Lemma foreign_character_is_rejected_witness :
  base64ToArrayBuffer [65; 65; 42; 65] = Throw InvalidCharacterError /\
  forall now st, playAudioChunk [65; 65; 42; 65] now st = perform ConsoleError st.
Proof.
  apply (foreign_character_is_rejected [65; 65; 42; 65] 42).
  - right. right. now left.
  - reflexivity.
  - reflexivity.
  - discriminate.
Defined.

(** X10.  [arrayBufferToBase64] never throws; its text has four characters
    for every three bytes, rounded up, and holds only characters of the
    base64 alphabet and [=]. *)
Theorem base64_text_shape (buffer : list byte) :
  exists text,
    arrayBufferToBase64 buffer = Ok text /\
    length text = (4 * ((length buffer + 2) / 3))%nat /\
    Forall (fun c => b64_index c <> None \/ c = pad_char) text.
Proof.
  exists (b64_encode (map byte_to_Z buffer)).
  split; [rewrite CodecLoops.arrayBufferToBase64_btoa; apply Base64Facts.btoa_bytes|].
  split.
  - now rewrite b64_encode_length, length_map.
  - apply b64_encode_alphabet, Base64Facts.bytes_in_range.
Qed.

(** X7.  On a buffer of even length that is not empty, [decodeRawPcm]
    returns a 24 kHz buffer with one frame for every two bytes; every sample
    is the signed 16-bit value over 32768, so it lies in [-1, 1); the
    duration in seconds is the byte length over 48000. *)
Theorem decodeRawPcm_even (arrayBuffer : list byte) :
  Nat.even (length arrayBuffer) = true ->
  arrayBuffer <> [] ->
  exists buffer,
    decodeRawPcm arrayBuffer = Ok buffer /\
    channelData buffer = map (fun v => (inject_Z v / 32768)%Q) (int16_view arrayBuffer) /\
    (2 * length (channelData buffer))%nat = length arrayBuffer /\
    sampleRate buffer = 24000 /\
    Forall (fun y => (-1 <= y)%Q /\ (y < 1)%Q) (channelData buffer) /\
    (duration buffer == inject_Z (Z.of_nat (length arrayBuffer)) / 48000)%Q.
Proof.
  intros He Hne. pose proof (int16_view_length arrayBuffer He) as Hlen.
  eexists. split; [apply decodeRawPcm_value; assumption|].
  cbn [channelData sampleRate].
  split; [reflexivity|]. split; [now rewrite length_map|]. split; [reflexivity|].
  split.
  - apply Forall_forall. intros y Hy. apply list_elem_of_In, in_map_iff in Hy.
    destruct Hy as (v & <- & Hv).
    pose proof (int16_view_range arrayBuffer) as Hr. rewrite Forall_forall in Hr.
    apply list_elem_of_In, Hr in Hv.
    unfold Qle, Qlt. cbn. lia.
  - unfold duration. cbn [channelData sampleRate]. rewrite length_map.
    unfold Qeq. cbn. lia.
Qed.

Lemma decodeRawPcm_even_witness :
  exists buffer,
    decodeRawPcm [x00; x80; xff; x7f] = Ok buffer /\
    channelData buffer =
      map (fun v => (inject_Z v / 32768)%Q) (int16_view [x00; x80; xff; x7f]) /\
    (2 * length (channelData buffer))%nat = length [x00; x80; xff; x7f] /\
    sampleRate buffer = 24000 /\
    Forall (fun y => (-1 <= y)%Q /\ (y < 1)%Q) (channelData buffer) /\
    (duration buffer == inject_Z (Z.of_nat (length [x00; x80; xff; x7f])) / 48000)%Q.
Proof.
  apply (decodeRawPcm_even [x00; x80; xff; x7f]).
  - reflexivity.
  - discriminate.
Defined.

(** X8.  The value [createPcmBlob] stores for a sample: a sample of 1 or
    more is stored as 32767 and a sample of -1 or less as -32768 (it clips,
    it does not wrap); a larger sample is never stored as a smaller value. *)
Theorem encoder_clips_and_keeps_order (data : list Q) :
  floatToInt16 data = map (fun x => ToInt16 (scale_sample x)) data /\
  (forall x, (1 <= x)%Q -> ToInt16 (scale_sample x) = 32767) /\
  (forall x, (x <= -1)%Q -> ToInt16 (scale_sample x) = -32768) /\
  (forall x y, (x <= y)%Q -> ToInt16 (scale_sample x) <= ToInt16 (scale_sample y)).
Proof.
  split; [apply CodecLoops.floatToInt16_map|].
  split; [|split].
  - intros x Hx. rewrite PcmFacts.ToInt16_scale_sample. now apply pcm16_of_sample_high.
  - intros x Hx. rewrite PcmFacts.ToInt16_scale_sample. now apply pcm16_of_sample_low.
  - intros x y Hxy. rewrite !PcmFacts.ToInt16_scale_sample.
    now apply pcm16_of_sample_le.
Qed.

Lemma encoder_clips_and_keeps_order_witness :
  floatToInt16 [3; -5 # 2]%Q = [32767; -32768] /\
  ToInt16 (scale_sample (1 # 4)) <= ToInt16 (scale_sample (1 # 2)).
Proof.
  destruct (encoder_clips_and_keeps_order [3; -5 # 2]%Q) as (Hmap & Hhi & Hlo & Hmono).
  split.
  - rewrite Hmap. cbn [map].
    rewrite (Hhi 3%Q) by discriminate. now rewrite (Hlo (-5 # 2)%Q) by discriminate.
  - apply Hmono. discriminate.
Defined.

(** X9.  Encoding what [decodeRawPcm] decoded does not give back the 16-bit
    values: a value that is not positive comes back as itself, a positive
    value comes back one step lower. *)
Theorem reencoding_decoded_audio (arrayBuffer : list byte) :
  Nat.even (length arrayBuffer) = true ->
  arrayBuffer <> [] ->
  exists buffer,
    decodeRawPcm arrayBuffer = Ok buffer /\
    floatToInt16 (channelData buffer) =
      map (fun v => if v <=? 0 then v else v - 1) (int16_view arrayBuffer).
Proof.
  intros He Hne.
  eexists. split; [apply decodeRawPcm_value; assumption|]. cbn [channelData].
  rewrite CodecLoops.floatToInt16_map, map_map.
  pose proof (int16_view_range arrayBuffer) as Hr. clear He Hne.
  induction Hr as [|v l Hv _ IH]; [reflexivity|]. cbn [map].
  now rewrite IH, PcmFacts.ToInt16_scale_sample, pcm16_of_decoded.
Qed.
Lemma reencoding_decoded_audio_witness :
  exists buffer,
    decodeRawPcm [x05; x00; xfb; xff] = Ok buffer /\
    floatToInt16 (channelData buffer) =
      map (fun v => if v <=? 0 then v else v - 1) (int16_view [x05; x00; xfb; xff]).
Proof.
  apply (reencoding_decoded_audio [x05; x00; xfb; xff]).
  - reflexivity.
  - discriminate.
Defined.
End CodecProps.

Module SessionFacts.
Import Codec CodecSpec Voice VoiceFacts Schedule ScheduleFacts CodecMore.

(** Logging does not change what a chunk is scheduled to. *)
Lemma schedule_after_log buf now e st :
  refs (playAudioChunk_schedule buf now (perform e st)) =
    refs (playAudioChunk_schedule buf now st) /\
  nodes (heap (playAudioChunk_schedule buf now (perform e st))) =
    nodes (heap (playAudioChunk_schedule buf now st)).
Proof.
  destruct st as [re [ic oc sr pr so on nx ac se] [nd cb ps cs fr ef]].
  unfold playAudioChunk_schedule, start_time. cbn.
  destruct (Qle_bool now nx) eqn:E; cbn; unfold source_start; cbn.
  - destruct (Qle_bool 0 nx) eqn:E0; cbn; [|auto].
    rewrite list_lookup_middle by reflexivity. cbn. auto.
  - destruct (Qle_bool 0 now) eqn:E0; cbn; [|auto].
    rewrite list_lookup_middle by reflexivity. cbn. auto.
Qed.

Lemma sum_of_squares_nonneg (l : list Q) (acc : Q) :
  (0 <= acc)%Q -> (0 <= fold_left (fun sum x => sum + x * x) l acc)%Q.
Proof.
  revert acc. induction l as [|x l IH]; intros acc Hacc; [exact Hacc|].
  cbn [fold_left]. apply IH.
  rewrite <- (Qplus_0_l 0). apply Qplus_le_compat; [exact Hacc|].
  destruct x as [n d]. unfold Qle. cbn. nia.
Qed.

Lemma mean_square_nonneg (l : list Q) : l <> [] -> (0 <= mean_square l)%Q.
Proof.
  intros Hne. unfold mean_square. apply Qle_shift_div_l.
  - destruct l; [congruence|]. reflexivity.
  - rewrite Qmult_0_l. apply sum_of_squares_nonneg, Qle_refl.
Qed.

(** The level [onaudioprocess] computes for a block. *)
Lemma audioprocess_volume (inputData : list Q) :
  Math_min_number
    (times (Math_sqrt (quotient
       (for_loop (length inputData) 0
          (fun i sum => (sum + (inputData !!! i) * (inputData !!! i))%Q) 0%Q)
       (length inputData))) 5) 1 =
  match inputData with
  | [] => NaN
  | _ => Root (Math_min (mean_square inputData * (5 * 5)) (1 * 1))
  end.
Proof.
  rewrite (for_loop_fold (fun sum x => (sum + x * x)%Q) inputData [] 0%Q).
  destruct inputData as [|x l] eqn:E; [reflexivity|]. rewrite <- E.
  assert (Hne : inputData <> []) by (subst; discriminate).
  pose proof (mean_square_nonneg inputData Hne) as Hm.
  unfold quotient, Math_sqrt. fold (mean_square inputData).
  replace (length inputData) with (S (length l)) at 1 by (subst; reflexivity).
  cbn match. fold (mean_square inputData).
  apply Qle_bool_iff in Hm. rewrite Hm. reflexivity.
Qed.
End SessionFacts.

Module SessionProps.
Import Codec CodecSpec Voice VoiceFacts Schedule ScheduleFacts CodecMore SessionFacts.

(** X4.  A message that carries audio and the interruption flag: the nodes
    that were active are stopped, and the message's own chunk is then
    scheduled at the clock reading; afterwards it is the only node in the
    active set and the cursor is at its end. *)
Theorem interrupting_message_chunk_is_played pf c rest buf now st :
  playAudioChunk_decode (c :: rest) = Ok buf ->
  (0 <= now)%Q ->
  let n := length (nodes (heap st)) in
  exists st' t,
    handleServerMessage pf {| inlineData := Some (c :: rest); interrupted := true |}
                        now st = Ok st' /\
    activeSourcesRef (refs st') = [n] /\
    started_at st' n = Some t /\
    (t == now)%Q /\
    nextStartTimeRef (refs st') = (t + duration buf)%Q /\
    forall id, In id (activeSourcesRef (refs st)) -> (id < n)%nat ->
               playing st' id = false.
Proof.
  intros D Hnow n. subst n. unfold handleServerMessage. cbn [inlineData interrupted].
  rewrite D.
  destruct (flush_ok pf st) as (st_f & Ef & Ha & Hc & _ & Hl & Hstop & _).
  rewrite Ef. cbn [rbind].
  destruct (schedule_spec buf now st_f Hnow) as (Hs & Hcur & Hact & Hn & _).
  rewrite Hl in Hs, Hact. rewrite Ha in Hact. rewrite Hc in Hs, Hcur.
  do 2 eexists. split; [reflexivity|]. split; [exact Hact|]. split; [exact Hs|].
  split; [now apply start_time_zero|]. split; [exact Hcur|].
  intros id Hid Hlt. rewrite (playing_snoc _ _ _ Hn id), Hl.
  destruct (Nat.eqb_spec id (length (nodes (heap st)))); [lia|]. now apply Hstop.
Qed.

Lemma interrupting_message_chunk_is_played_witness :
  let st := playAudioChunk [65; 65; 65; 61] 1 initial in
  exists st' t,
    handleServerMessage strict_engine
      {| inlineData := Some [65; 65; 65; 61]; interrupted := true |} 2 st = Ok st' /\
    activeSourcesRef (refs st') = [1%nat] /\
    started_at st' 1 = Some t /\
    (t == 2)%Q /\
    nextStartTimeRef (refs st') =
      (t + duration {| channelData := [0 # 32768]; sampleRate := 24000 |})%Q /\
    forall id, In id (activeSourcesRef (refs st)) -> (id < 1)%nat ->
               playing st' id = false.
Proof.
  apply (interrupting_message_chunk_is_played strict_engine 65 [65; 65; 61]
           {| channelData := [0 # 32768]; sampleRate := 24000 |} 2
           (playAudioChunk [65; 65; 65; 61] 1 initial)).
  - vm_compute. reflexivity.
  - discriminate.
Defined.

(** X6.  A chunk whose payload fails to decode is dropped: it is logged,
    no reference and no node changes, and a chunk enqueued after it is
    scheduled exactly as if the bad one had not arrived. *)
Theorem failed_chunk_is_dropped bad e now_bad st :
  playAudioChunk_decode bad = Throw e ->
  playAudioChunk bad now_bad st = perform ConsoleError st /\
  refs (playAudioChunk bad now_bad st) = refs st /\
  nodes (heap (playAudioChunk bad now_bad st)) = nodes (heap st) /\
  forall good now,
    refs (playAudioChunk good now (playAudioChunk bad now_bad st)) =
      refs (playAudioChunk good now st) /\
    nodes (heap (playAudioChunk good now (playAudioChunk bad now_bad st))) =
      nodes (heap (playAudioChunk good now st)).
Proof.
  intros D. assert (H : playAudioChunk bad now_bad st = perform ConsoleError st)
    by (unfold playAudioChunk; now rewrite D).
  rewrite H. split; [reflexivity|]. split; [reflexivity|]. split; [reflexivity|].
  intros good now. unfold playAudioChunk.
  destruct (playAudioChunk_decode good) as [buf|e'].
  - apply schedule_after_log.
  - split; reflexivity.
Qed.

Lemma failed_chunk_is_dropped_witness :
  playAudioChunk [65; 65; 65; 65] 1 initial = perform ConsoleError initial /\
  refs (playAudioChunk [65; 65; 65; 65] 1 initial) = refs initial /\
  nodes (heap (playAudioChunk [65; 65; 65; 65] 1 initial)) = nodes (heap initial) /\
  forall good now,
    refs (playAudioChunk good now (playAudioChunk [65; 65; 65; 65] 1 initial)) =
      refs (playAudioChunk good now initial) /\
    nodes (heap (playAudioChunk good now (playAudioChunk [65; 65; 65; 65] 1 initial))) =
      nodes (heap (playAudioChunk good now initial)).
Proof.
  apply (failed_chunk_is_dropped [65; 65; 65; 65] RangeError 1 initial).
  vm_compute. reflexivity.
Defined.

(** X11.  A teardown while [startSession] is waiting for the microphone
    does not cancel the start: when the stream is granted afterwards, the
    stream and the session handles are set and the callbacks registered,
    with the status [disconnected] and both context handles null, and
    nothing is closed; when the session then opens the status becomes
    [connected]. *)
Theorem teardown_does_not_cancel_pending_start pf st env :
  pendingStart (heap st) = Some env ->
  exists st1,
    cleanup pf st = Ok st1 /\
    let st2 := startSession_resume true st1 in
    status (react st2) = disconnected /\
    inputContextRef (refs st2) = None /\
    outputContextRef (refs st2) = None /\
    streamRef (refs st2) = Some (fresh (heap st1)) /\
    sessionPromiseRef (refs st2) = Some (S (fresh (heap st1))) /\
    callbacks (heap st2) =
      Some {| ce_inputCtx := se_inputCtx env; ce_stream := fresh (heap st1);
              ce_session := S (fresh (heap st1));
              ce_outputCtx := se_outputCtx env; ce_outNode := se_outNode env;
              ce_isMuted := se_isMuted env |} /\
    effects (heap st2) = effects (heap st1) /\
    status (react (state_of
      (onOpen pf {| ce_inputCtx := se_inputCtx env;
                    ce_stream := fresh (heap st1);
                    ce_session := S (fresh (heap st1));
                    ce_outputCtx := se_outputCtx env;
                    ce_outNode := se_outNode env;
                    ce_isMuted := se_isMuted env |} st2))) = connected.
Proof.
  intros Hp.
  destruct (cleanup_ok pf st) as (st1 & E & _ & Hi & Ho & _ & Hst & _).
  destruct (cleanup_frame pf st) as (st1' & E' & _ & _ & _ & Hps & _).
  assert (st1' = st1) by congruence. subst st1'.
  exists st1. split; [exact E|]. cbn zeta.
  split; [|split; [|split; [|split; [|split; [|split; [|split]]]]]];
    [| | | | | | |unfold onOpen;
       match goal with
       | |- context [setupAudioInput pf ?env ?s] =>
           destruct (setupAudioInput_frame pf env s) as (Hre & _)
       end; cbn zeta in Hre; rewrite Hre; reflexivity];
    unfold startSession_resume; rewrite Hps, Hp; cbn;
    rewrite ?Hi, ?Ho, ?Hst; reflexivity.
Qed.

Lemma teardown_does_not_cancel_pending_start_witness :
  exists st1,
    cleanup strict_engine (startSession true initial) = Ok st1 /\
    let st2 := startSession_resume true st1 in
    status (react st2) = disconnected /\
    inputContextRef (refs st2) = None /\
    outputContextRef (refs st2) = None /\
    streamRef (refs st2) = Some (fresh (heap st1)) /\
    sessionPromiseRef (refs st2) = Some (S (fresh (heap st1))) /\
    callbacks (heap st2) =
      Some {| ce_inputCtx := 0%nat; ce_stream := fresh (heap st1);
              ce_session := S (fresh (heap st1));
              ce_outputCtx := 1%nat; ce_outNode := 2%nat;
              ce_isMuted := false |} /\
    effects (heap st2) = effects (heap st1) /\
    status (react (state_of
      (onOpen strict_engine {| ce_inputCtx := 0%nat;
                               ce_stream := fresh (heap st1);
                               ce_session := S (fresh (heap st1));
                               ce_outputCtx := 1%nat;
                               ce_outNode := 2%nat;
                               ce_isMuted := false |} st2))) = connected.
Proof.
  apply (teardown_does_not_cancel_pending_start strict_engine (startSession true initial)
           {| se_inputCtx := 0%nat; se_outputCtx := 1%nat; se_outNode := 2%nat;
              se_isMuted := false |}).
  reflexivity.
Defined.

(** Two starts that overlap, as when the effect runs, is torn down and
    runs again before the microphone is granted: both resume, and each
    opens a session.  The handles are those of the start that resumed last;
    the session of the other is referenced nowhere, and the next teardown
    closes one session only. *)
Lemma overlapping_starts_open_two_sessions :
  exists st st',
    run strict_engine
        [EffectOpen true; EffectCleanup; EffectOpen true;
         EarlierUserMedia 0 true; UserMedia true] initial = Ok st /\
    sessionPromiseRef (refs st) = Some 9%nat /\
    map ce_session (earlierCallbacks (heap st)) = [7%nat] /\
    run strict_engine [SessionSettled 7 true; SessionSettled 9 true; EffectCleanup] st
      = Ok st' /\
    In (SessionClose 9) (effects (heap st')) /\
    ~ In (SessionClose 7) (effects (heap st')).
Proof.
  do 2 eexists. split; [vm_compute; reflexivity|]. split; [reflexivity|].
  split; [reflexivity|]. split; [vm_compute; reflexivity|].
  split; [cbn; tauto|]. cbn. intros H.
  repeat (destruct H as [H|H]; [discriminate|]). exact H.
Qed.

(** X12.  A capture callback whose captured flag is clear hands exactly one
    blob per block to the session promise and calls nothing itself: the
    blob's mime type is [audio/pcm;rate=16000], its text decodes to the
    two-bytes-per-sample PCM16 of the block, and no reference, status or
    mute flag changes.  The level it sets is NaN for an empty block;
    otherwise it is the square root of a number between 0 and 1, which is
    25 times the mean square of the block, or 1 when that is more than 1.
    After the microtasks the blob has been sent if the promise was
    fulfilled; if it was rejected nothing is sent and the rejection goes
    unhandled; if it is pending the send waits. *)
Theorem captured_block_is_sent_encoded cb inputData st :
  cb_isMuted cb = false ->
  exists st' media,
    audioprocess cb inputData st = Ok st' /\
    reactions (heap st') = reactions (heap st) ++ [(cb_session cb, SendMedia media)] /\
    effects (heap st') = effects (heap st) /\
    blob_mimeType media = pcm_mime /\
    base64ToArrayBuffer (blob_data media) = Ok (floatTo16BitPCM inputData) /\
    length (floatTo16BitPCM inputData) = (2 * length inputData)%nat /\
    refs st' = refs st /\
    status (react st') = status (react st) /\
    isMuted (react st') = isMuted (react st) /\
    (inputData = [] -> volume (react st') = NaN) /\
    (inputData <> [] ->
     exists q,
       volume (react st') = Root q /\
       (0 <= q)%Q /\ (q <= 1)%Q /\
       ((25 * mean_square inputData <= 1)%Q -> (q == 25 * mean_square inputData)%Q) /\
       ((1 <= 25 * mean_square inputData)%Q -> (q == 1)%Q)) /\
    effects (heap (microtasks st')) =
      effects (heap (microtasks st)) ++
      match promise_state (cb_session cb) st with
      | Some true => [SendRealtimeInput (cb_session cb) media]
      | Some false => [UnhandledRejection (cb_session cb)]
      | None => []
      end /\
    (promise_state (cb_session cb) st = None ->
     In (cb_session cb, SendMedia media) (reactions (heap (microtasks st')))).
Proof.
  intros Hm. unfold audioprocess. rewrite Hm.
  rewrite PcmFacts.createPcmBlob_value. cbn [rbind].
  rewrite audioprocess_volume.
  do 2 eexists. split; [reflexivity|].
  split; [reflexivity|]. split; [reflexivity|]. split; [reflexivity|].
  split; [apply Base64Facts.base64ToArrayBuffer_encoded|].
  split.
  { rewrite <- PcmFacts.createPcmBlob_buffer, PcmFacts.Int16Array_buffer_length.
    now rewrite CodecLoops.floatToInt16_map, length_map. }
  split; [reflexivity|]. split; [reflexivity|]. split; [reflexivity|].
  split; [intros ->; reflexivity|]. split; [|split].
  - intros Hne. pose proof (mean_square_nonneg inputData Hne) as H0.
    destruct inputData as [|x l]; [congruence|].
    set (m := mean_square (x :: l)) in *.
    eexists. split; [reflexivity|]. unfold Math_min.
    change (1 * 1)%Q with 1%Q.
    assert (E25 : (m * (5 * 5) == 25 * m)%Q) by ring.
    destruct (Qle_bool (m * (5 * 5)) 1) eqn:E.
    + apply Qle_bool_iff in E.
      split; [rewrite E25; apply (Qmult_le_0_compat 25 m); [discriminate|exact H0]|].
      split; [exact E|]. split; [intros _; exact E25|].
      intros H1. rewrite E25 in *. now apply Qle_antisym.
    + assert (Hlt : (1 < 25 * m)%Q).
      { apply Qnot_le_lt. intros H. rewrite <- E25 in H.
        apply Qle_bool_iff in H. congruence. }
      split; [discriminate|]. split; [discriminate|]. split; [|reflexivity].
      intros H. exfalso. eapply Qlt_not_le; eassumption.
  - match goal with
    | |- effects (heap (microtasks ?s1)) = _ =>
        rewrite (microtasks_registered st s1 (cb_session cb, SendMedia _))
          by reflexivity
    end.
    unfold reaction_calls. cbn [fst snd].
    now destruct (promise_state (cb_session cb) st) as [[|]|].
  - intros Hp. cbn. apply filter_In. split; [apply in_or_app; right; now left|].
    cbn [fst]. 
    match goal with
    | |- context [promise_state _ ?s1] =>
        rewrite (promise_state_settled st s1 (cb_session cb)) by reflexivity
    end.
    now rewrite Hp.
Qed.

Lemma captured_block_is_sent_encoded_witness :
  let cb := {| cb_ctx := 0; cb_isMuted := false; cb_session := 4 |} in
  exists st' media,
    audioprocess cb [0; 1 # 2]%Q connected_session = Ok st' /\
    reactions (heap st') = reactions (heap connected_session) ++ [(4%nat, SendMedia media)] /\
    effects (heap st') = effects (heap connected_session) /\
    blob_mimeType media = pcm_mime /\
    base64ToArrayBuffer (blob_data media) = Ok (floatTo16BitPCM [0; 1 # 2]%Q) /\
    length (floatTo16BitPCM [0; 1 # 2]%Q) = (2 * 2)%nat /\
    refs st' = refs connected_session /\
    status (react st') = status (react connected_session) /\
    isMuted (react st') = isMuted (react connected_session) /\
    ([0; 1 # 2]%Q = [] -> volume (react st') = NaN) /\
    ([0; 1 # 2]%Q <> [] ->
     exists q,
       volume (react st') = Root q /\
       (0 <= q)%Q /\ (q <= 1)%Q /\
       ((25 * mean_square [0; 1 # 2] <= 1)%Q -> (q == 25 * mean_square [0; 1 # 2])%Q) /\
       ((1 <= 25 * mean_square [0; 1 # 2])%Q -> (q == 1)%Q)) /\
    effects (heap (microtasks st')) =
      effects (heap (microtasks connected_session)) ++ [SendRealtimeInput 4 media] /\
    (promise_state 4 connected_session = None ->
     In (4%nat, SendMedia media) (reactions (heap (microtasks st')))).
Proof.
  exact (captured_block_is_sent_encoded
           {| cb_ctx := 0; cb_isMuted := false; cb_session := 4 |} [0; 1 # 2]%Q
           connected_session eq_refl).
Defined.
End SessionProps.

Module ChatFacts.
Import Codec Chat.

Lemma fold_push {A B} (f : A -> B) (xs : list A) (acc : list B) :
  fold_left (fun acc x => acc ++ [f x]) xs acc = acc ++ map f xs.
Proof.
  revert acc. induction xs as [|x xs IH]; intros acc; cbn.
  - now rewrite app_nil_r.
  - now rewrite IH, <- app_assoc.
Qed.

Lemma newParts_value msg atts : newParts msg atts = map inline_part atts ++ [Text msg].
Proof.
  unfold newParts. destruct atts as [|a atts]; [reflexivity|].
  cbn [length Nat.ltb Nat.leb]. now rewrite fold_push.
Qed.

Lemma scan_parts ps :
  fold_left scan_part ps ([], []) =
    (match last (inline_blobs ps) with Some b => data_url b | None => [] end,
     List.last (captions ps) []).
Proof.
  induction ps as [|p ps IH] using rev_ind; [reflexivity|].
  rewrite fold_left_app, IH. cbn [fold_left].
  unfold inline_blobs, captions. rewrite !flat_map_app. cbn [flat_map].
  rewrite !app_nil_r. fold (inline_blobs ps). fold (captions ps).
  unfold scan_part. cbn [fst snd].
  destruct (p_inlineData p) as [b|].
  - rewrite last_snoc, app_nil_r. reflexivity.
  - rewrite app_nil_r. destruct (p_text p) as [[|c t]|].
    + now rewrite app_nil_r.
    + now rewrite List.last_last.
    + now rewrite app_nil_r.
Qed.

Lemma filter_indexed_miss {A} (idx k : nat) (l : list A) :
  (idx < k)%nat -> filter_indexed (fun _ j => negb (Nat.eqb j idx)) k l = l.
Proof.
  revert k. induction l as [|x l IH]; intros k Hlt; [reflexivity|].
  cbn [filter_indexed].
  replace (Nat.eqb k idx) with false by (symmetry; apply Nat.eqb_neq; lia).
  cbn [negb]. now rewrite IH by lia.
Qed.

Lemma filter_indexed_remove {A} (k i : nat) (l : list A) :
  filter_indexed (fun _ j => negb (Nat.eqb j (k + i))) k l = take i l ++ drop (S i) l.
Proof.
  revert k i. induction l as [|x l IH]; intros k i; [now destruct i|].
  cbn [filter_indexed]. destruct i as [|i].
  - rewrite Nat.add_0_r, Nat.eqb_refl. cbn [negb].
    rewrite filter_indexed_miss by lia. reflexivity.
  - replace (Nat.eqb k (k + S i)) with false by (symmetry; apply Nat.eqb_neq; lia).
    cbn [negb]. replace (k + S i)%nat with (S k + i)%nat by lia.
    now rewrite IH.
Qed.
End ChatFacts.

Module ChatProps.
Import Codec Chat ChatFacts.

(** X13.  What [sendMessageToGemini] hands to the SDK: the message is the
    plain string when there is no attachment, and otherwise the attachments
    in order followed by the text; a thinking budget is sent exactly when
    thinking is enabled and the budget is positive; the history holds, in
    order, the messages that are neither errors nor placeholders, each with
    its attachments first and its text last. *)
Theorem chat_request_shape history currentMessage atts settings :
  let r := chat_request history currentMessage atts settings in
  r_message r =
    match atts with
    | [] => PlainString currentMessage
    | _ => Parts (map inline_part atts ++ [Text currentMessage])
    end /\
  (forall b, r_thinkingConfig r = Some b <->
             enableThinking settings = true /\ 0 < b /\ b = thinkingBudget settings) /\
  Forall2 (fun m c =>
             c_role c = role m /\
             c_parts c = map inline_part (default [] (attachments m)) ++ [Text (text m)])
          (sent_as_history history) (r_history r) /\
  (forall m, In m (sent_as_history history) <->
             In m history /\ isError m <> Some true /\ isThinking m <> Some true).
Proof.
  cbn zeta. split; [|split; [|split]].
  - unfold chat_request. cbn [r_message]. rewrite newParts_value.
    destruct atts as [|a atts]; [reflexivity|].
    cbn [length Nat.ltb Nat.leb negb]. now rewrite andb_false_r.
  - intros b. unfold chat_request. cbn [r_thinkingConfig].
    destruct (enableThinking settings); cbn [andb].
    + destruct (Z.ltb_spec 0 (thinkingBudget settings)) as [Hpos|Hneg]; split.
      * intros Hb. inversion Hb. subst. auto.
      * intros (_ & _ & ->). reflexivity.
      * discriminate.
      * intros (_ & Hb & ->). lia.
    + split; [discriminate|]. intros (H & _). discriminate.
  - unfold chat_request, pastHistory, sent_as_history. cbn [r_history].
    induction (List.filter _ history) as [|m l IH]; cbn [map]; constructor; [|exact IH].
    cbn [c_role c_parts]. split; [reflexivity|].
    destruct (attachments m) as [[|a atts']|]; reflexivity.
  - intros m. unfold sent_as_history. rewrite filter_In, andb_true_iff, !negb_true_iff.
    unfold truthy. destruct (isError m) as [[|]|], (isThinking m) as [[|]|];
      intuition congruence.
Qed.

(** X14.  [generateImageWithGemini], from the response on: the image is the
    data URL of the last part with inline data and the caption is the last
    text that is not empty among the parts without inline data (the empty
    string if there is none); with no part with inline data, or no
    candidates field, it throws [No image data received from the model.];
    with an empty candidates array it throws a [TypeError]. *)
Theorem image_of_response_picks_last ps others :
  image_of_response (response_with ps others) =
    match last (inline_blobs ps) with
    | Some b => Returned (data_url b, List.last (captions ps) [])
    | None => Failed (ErrorMessage no_image)
    end /\
  image_of_response {| candidates := None |} = Failed (ErrorMessage no_image) /\
  image_of_response {| candidates := Some [] |} = Failed TypeError /\
  image_of_response (response_with [] others) = Failed (ErrorMessage no_image).
Proof.
  split; [|repeat split].
  unfold image_of_response, response_with. cbn [candidates content parts].
  rewrite scan_parts. destruct (last (inline_blobs ps)) as [b|]; reflexivity.
Qed.

(** X15.  When the first part of the response carries the base64 text of a
    byte sequence, [generateSpeech] returns exactly those bytes; for the
    empty byte sequence the text is empty and it throws
    [No audio data returned]. *)
Theorem generateSpeech_returns_encoded_bytes (bytes : list byte) :
  exists base64,
    arrayBufferToBase64 bytes = Ok base64 /\
    forall sdk text response,
      sdk text = Returned response ->
      first_inline_data response = Some base64 ->
      generateSpeech sdk text =
        match bytes with
        | [] => Failed (ErrorMessage no_audio)
        | _ => Returned bytes
        end.
Proof.
  exists (b64_encode (map byte_to_Z bytes)).
  split; [rewrite CodecLoops.arrayBufferToBase64_btoa; apply Base64Facts.btoa_bytes|].
  intros sdk text response Hs Hd. unfold generateSpeech. rewrite Hs, Hd.
  pose proof (Base64Facts.base64ToArrayBuffer_encoded bytes) as Hdec.
  destruct bytes as [|b0 bytes]; [reflexivity|].
  destruct (b64_encode (map byte_to_Z (b0 :: bytes))) as [|c t] eqn:E.
  - apply (f_equal (@length Z)) in E.
    rewrite CodecMore.b64_encode_length, length_map in E. cbn [length] in E.
    replace (S (length bytes) + 2)%nat with (length bytes + 1 * 3)%nat in E by lia.
    rewrite Nat.div_add in E by lia. cbn in E. lia.
  - now rewrite Hdec.
Qed.

Lemma generateSpeech_returns_encoded_bytes_witness :
  exists base64,
    arrayBufferToBase64 [x52; x49] = Ok base64 /\
    forall sdk text response,
      sdk text = Returned response ->
      first_inline_data response = Some base64 ->
      generateSpeech sdk text = Returned [x52; x49].
Proof.
  apply (generateSpeech_returns_encoded_bytes [x52; x49]).
Defined.

(** X16.  [removeAttachment] drops the attachment at the index and keeps
    the others in order; an index past the end changes nothing. *)
Theorem removeAttachment_removes_one index prev :
  removeAttachment index prev = take index prev ++ drop (S index) prev /\
  ((index < length prev)%nat -> S (length (removeAttachment index prev)) = length prev) /\
  ((length prev <= index)%nat -> removeAttachment index prev = prev).
Proof.
  assert (H : removeAttachment index prev = take index prev ++ drop (S index) prev)
    by apply (filter_indexed_remove 0 index prev).
  split; [exact H|]. rewrite H. split; intros Hi.
  - rewrite length_app, length_take, length_drop. lia.
  - rewrite take_ge, drop_ge by lia. apply app_nil_r.
Qed.

Lemma removeAttachment_removes_one_witness :
  let a := {| mimeType := js "image/png"; data := js "AAAA"; previewUrl := [] |} in
  let b := {| mimeType := js "image/gif"; data := js "BBBB"; previewUrl := [] |} in
  removeAttachment 0 [a; b] = [b] /\ removeAttachment 2 [a; b] = [a; b].
Proof.
  set (a := {| mimeType := js "image/png"; data := js "AAAA"; previewUrl := [] |}).
  set (b := {| mimeType := js "image/gif"; data := js "BBBB"; previewUrl := [] |}).
  destruct (removeAttachment_removes_one 0 [a; b]) as (H1 & _ & _).
  destruct (removeAttachment_removes_one 2 [a; b]) as (_ & _ & H3).
  split; [exact H1 | apply H3; cbn; lia].
Defined.

(** X17.  After [toggleThinking] the budget is 4096 when thinking is on and
    0 when it is off, and that is what the next chat request carries; a
    budget chosen with the slider is lost when thinking is toggled off and
    on again; with the initial settings no thinking budget is sent. *)
Theorem toggleThinking_sets_budget history currentMessage atts settings :
  let s1 := toggleThinking settings in
  enableThinking s1 = negb (enableThinking settings) /\
  thinkingBudget s1 = (if enableThinking s1 then DEFAULT_THINKING_BUDGET else 0) /\
  r_thinkingConfig (chat_request history currentMessage atts s1) =
    (if enableThinking s1 then Some DEFAULT_THINKING_BUDGET else None) /\
  (forall value,
     thinkingBudget (toggleThinking (toggleThinking (handleBudgetChange value settings))) =
       if enableThinking settings then DEFAULT_THINKING_BUDGET else 0) /\
  r_thinkingConfig (chat_request history currentMessage atts INITIAL_SETTINGS) = None.
Proof.
  cbn zeta. unfold toggleThinking, chat_request. cbn.
  destruct (enableThinking settings); cbn; repeat split.
Qed.
End ChatProps.
